(** * Human pose estimation: the training script [train.py]

    A shallow embedding of [fluid/PaddleCV/human_pose_estimation/train.py]:
    the learning-rate schedule built by [optimizer_setting], the dataset
    dispatch and the epoch/batch loop of [train], the grid composed by
    [save_batch_heatmaps] and the heatmap decoder [get_max_preds].

    Conventions.
    - A numpy array is its shape together with its row-major buffer.
    - A float32 heatmap score or pixel, and a float64 scalar such as the
      learning rate, is an IEEE value: NaN, an infinity, or a finite number
      given by its exact rational value.  There is one zero.
    - Every float operation rounds explicitly, to float32 or to float64 as
      numpy and Python do, and overflows to an infinity where the result can
      be out of range.  The float32 coordinates computed by [get_max_preds]
      and the 8-bit images are finite and kept as rationals.
    - Python exceptions are a result type; calls into PaddlePaddle and the
      file system are events of a trace, and OpenCV is a parameter. *)

From Stdlib Require Import ZArith QArith Qround Qabs String Lia.
From stdpp Require Import base list strings gmap pretty.

Local Open Scope Z_scope.

(** ** Exceptions *)

Inductive exn : Type :=
| ValueError (msg : string)
| AssertionError (msg : string)
| ZeroDivisionError (msg : string)
| OverflowError (msg : string)
| IndexError (msg : string)
| Cv2Error (msg : string).

Inductive result (A : Type) : Type :=
| Ok (a : A)
| Raise (e : exn).
Arguments Ok {A} a.
Arguments Raise {A} e.

Definition bind {A B} (r : result A) (k : A -> result B) : result B :=
  match r with
  | Ok a => k a
  | Raise e => Raise e
  end.

Notation "x <- r ;; k" := (bind r (fun x => k))
  (at level 100, r at next level, right associativity).

Fixpoint mapM_result {A B} (f : A -> result B) (l : list A) : result (list B) :=
  match l with
  | [] => Ok []
  | a :: l' => b <- f a ;; bs <- mapM_result f l' ;; Ok (b :: bs)
  end.

(** ** Floating-point values

    The values of a binary format, float32 or float64: which of the two a
    value belongs to shows in the rounding of the operation that made it. *)

Inductive f32 : Type :=
| NaN
| NegInf
| Fin (q : Q)
| PosInf.

Definition isnan (a : f32) : bool :=
  match a with NaN => true | _ => false end.

(** IEEE [a <= b]: false as soon as one side is NaN. *)
Definition f32_le (a b : f32) : bool :=
  match a, b with
  | NaN, _ | _, NaN => false
  | NegInf, _ => true
  | _, PosInf => true
  | Fin x, Fin y => Qle_bool x y
  | _, _ => false
  end.

(** IEEE [a < b]. *)
Definition f32_lt (a b : f32) : bool :=
  match a, b with
  | NaN, _ | _, NaN => false
  | NegInf, NegInf => false
  | NegInf, _ => true
  | PosInf, _ => false
  | Fin x, Fin y => negb (Qle_bool y x)
  | Fin _, PosInf => true
  | Fin _, NegInf => false
  end.

Definition f32_ge (a b : f32) : bool := f32_le b a.
Definition f32_gt (a b : f32) : bool := f32_lt b a.

Definition f32_zero : f32 := Fin 0.

(** ** Rounding to a binary floating-point format

    A finite float with [p] significant bits and least normal exponent
    [emin] is [m * 2^s] with [|m| < 2^p] and [emin - (p - 1) <= s].
    [round_float p emin q] is the float nearest to [q], ties to the even
    significand.  float32 has [p = 24], [emin = -126]; float64 has [p = 53],
    [emin = -1022].  [round_float] has no largest exponent; an operation that
    can overflow goes through [float_round] below. *)

(** The integer nearest to [n / d], ties to even, for [0 < d]. *)
Definition rne (n d : Z) : Z :=
  let f := n / d in
  match Z.compare (2 * (n mod d)) d with
  | Lt => f
  | Gt => f + 1
  | Eq => if Z.even f then f else f + 1
  end.

(** [floor (log2 (n / d))] for [0 < n] and [0 < d]. *)
Definition ilog2 (n d : Z) : Z :=
  let e0 := Z.log2 n - Z.log2 d in
  let below :=
    if 0 <=? e0 then n <? d * 2 ^ e0 else n * 2 ^ (- e0) <? d in
  if below then e0 - 1 else e0.

(** [n / d] rounded to [p] significant bits, for [0 < n] and [0 < d]; [s] is
    the exponent of the unit in the last place, [emin - (p - 1)] for
    subnormals. *)
Definition round_pos (p emin n d : Z) : Q :=
  let s := Z.max (ilog2 n d) emin - (p - 1) in
  if 0 <=? s
  then inject_Z (rne n (d * 2 ^ s) * 2 ^ s)
  else Qmake (rne (n * 2 ^ (- s)) d) (Z.to_pos (2 ^ (- s))).

Definition round_float (p emin : Z) (q : Q) : Q :=
  match Qnum q with
  | Z0 => 0%Q
  | Zpos n => round_pos p emin (Zpos n) (Zpos (Qden q))
  | Zneg n => Qopp (round_pos p emin (Zpos n) (Zpos (Qden q)))
  end.

Definition round_f32 : Q -> Q := round_float 24 (-126).
Definition round_f64 : Q -> Q := round_float 53 (-1022).

(** [int64 -> float32], as [ndarray.astype(np.float32)] does it. *)
Definition f32_of_int (z : Z) : Q := round_f32 (inject_Z z).

(** [np.remainder] on floats: the result is exact (it is a [fmod]) and has
    the sign of the divisor. *)
Definition np_remainder (a b : Q) : Q :=
  (a - b * inject_Z (Qfloor (a / b)))%Q.

Definition np_floor (a : Q) : Q := inject_Z (Qfloor a).

Definition f32_mul (a b : Q) : Q := round_f32 (a * b).

(** A float32 array combined with the Python int [n].  Under numpy's
    value-based casting (every release that still has [np.float], which
    [save_batch_heatmaps] needs) the operation is carried out in float32 when
    [n] fits an unsigned 16-bit integer and in float64 otherwise.  The result
    is stored back into the float32 array, which rounds a float64. *)
Definition f32_mod_int (n : Z) (v : Q) : Q :=
  if n <? 65536
  then np_remainder v (round_f32 (inject_Z n))
  else round_f32 (np_remainder v (round_f64 (inject_Z n))).

Definition f32_floordiv_int (n : Z) (v : Q) : Q :=
  if n <? 65536
  then np_floor (round_f32 (v / round_f32 (inject_Z n)))
  else round_f32 (np_floor (round_f64 (v / round_f64 (inject_Z n)))).

(** ** Floating-point arithmetic

    IEEE arithmetic on the values above, in the format [t]: the exact result
    rounded to nearest, an infinity when the rounded result is out of range,
    NaN for an invalid operation.  The one zero of the model stands for
    [+0]. *)

Inductive dtype : Type :=
| float32
| float64.

Definition round_to (t : dtype) : Q -> Q :=
  match t with
  | float32 => round_f32
  | float64 => round_f64
  end.

(** The least power of two that is out of range: [2^128] and [2^1024]. *)
Definition huge (t : dtype) : Q :=
  match t with
  | float32 => inject_Z (2 ^ 128)
  | float64 => inject_Z (2 ^ 1024)
  end.

Definition float_round (t : dtype) (q : Q) : f32 :=
  let r := round_to t q in
  if Qle_bool (huge t) r then PosInf
  else if Qle_bool r (- huge t) then NegInf
  else Fin r.

(** [astype] from one float format to the other. *)
Definition float_cast (t : dtype) (a : f32) : f32 :=
  match a with
  | Fin q => float_round t q
  | _ => a
  end.

Definition is_zero (a : f32) : bool :=
  match a with
  | Fin q => Qeq_bool q 0
  | _ => false
  end.

Definition is_negative (a : f32) : bool :=
  match a with
  | NegInf => true
  | Fin q => negb (Qle_bool 0 q)
  | _ => false
  end.

Definition infinity (negative : bool) : f32 :=
  if negative then NegInf else PosInf.

Definition float_neg (a : f32) : f32 :=
  match a with
  | NaN => NaN
  | NegInf => PosInf
  | Fin q => Fin (- q)
  | PosInf => NegInf
  end.

Definition float_add (t : dtype) (a b : f32) : f32 :=
  match a, b with
  | NaN, _ | _, NaN => NaN
  | Fin x, Fin y => float_round t (x + y)
  | PosInf, NegInf | NegInf, PosInf => NaN
  | PosInf, _ | _, PosInf => PosInf
  | NegInf, _ | _, NegInf => NegInf
  end.

Definition float_sub (t : dtype) (a b : f32) : f32 :=
  float_add t a (float_neg b).

Definition float_mul (t : dtype) (a b : f32) : f32 :=
  match a, b with
  | NaN, _ | _, NaN => NaN
  | Fin x, Fin y => float_round t (x * y)
  | _, _ =>
      if is_zero a || is_zero b then NaN
      else infinity (xorb (is_negative a) (is_negative b))
  end.

Definition float_div (t : dtype) (a b : f32) : f32 :=
  match a, b with
  | NaN, _ | _, NaN => NaN
  | Fin x, Fin y =>
      if Qeq_bool y 0
      then if Qeq_bool x 0 then NaN else infinity (is_negative a)
      else float_round t (x / y)
  | Fin _, _ => Fin 0
  | _, Fin _ => infinity (xorb (is_negative a) (is_negative b))
  | _, _ => NaN
  end.

(** The dtype of [array op scalar] for a float array of dtype [t] and a
    float64 scalar, under numpy's value-based casting (every release that
    still has [np.float]): the scalar counts as the smallest float type that
    holds its value, which is at most float32 when the value is not finite or
    lies strictly between [-3.4e38] and [3.4e38], and float64 otherwise. *)
Definition fits_float32 (scalar : f32) : bool :=
  match scalar with
  | Fin q =>
      let bound := round_f64 (inject_Z (34 * 10 ^ 37)) in
      negb (Qle_bool q (- bound)) && negb (Qle_bool bound q)
  | _ => true
  end.

Definition result_type (t : dtype) (scalar : f32) : dtype :=
  match t with
  | float64 => float64
  | float32 => if fits_float32 scalar then float32 else float64
  end.

(** A float32 value proper: neither NaN nor an infinity. *)
Definition finite_float32 (v : f32) : Prop :=
  match v with
  | Fin q => (- huge float32 < q)%Q /\ (q < huge float32)%Q
  | _ => False
  end.

(** A number above zero: neither NaN, nor an infinity, nor zero. *)
Definition positive (v : f32) : Prop :=
  match v with
  | Fin q => (0 < q)%Q
  | _ => False
  end.

(** ** numpy arrays *)

Record ndarray (A : Type) : Type := NDArray {
  shape : list nat;
  buf : list A
}.
Arguments NDArray {A} shape buf.
Arguments shape {A} n.
Arguments buf {A} n.

Definition size_of (sh : list nat) : nat := foldr Nat.mul 1%nat sh.

(** Every array numpy builds holds as many cells as its shape says. *)
Definition wf {A} (a : ndarray A) : Prop :=
  length (buf a) = size_of (shape a).

Definition ndim {A} (a : ndarray A) : nat := length (shape a).

(** [a.reshape((d0, d1, -1))]: numpy refuses when the known dimensions
    multiply to zero or do not divide the size. *)
Definition reshape_infer {A} (a : ndarray A) (d0 d1 : nat) : result (ndarray A) :=
  let s_known := (d0 * d1)%nat in
  let s_original := length (buf a) in
  if ((s_known =? 0) || negb (s_original mod s_known =? 0))%nat
  then Raise (ValueError "cannot reshape array")
  else Ok (NDArray [d0; d1; (s_original / s_known)%nat] (buf a)).

(** [a.reshape(sh)] with every dimension given. *)
Definition reshape {A} (a : ndarray A) (sh : list nat) : result (ndarray A) :=
  if (length (buf a) =? size_of sh)%nat
  then Ok (NDArray sh (buf a))
  else Raise (ValueError "cannot reshape array").

(** The [n] rows of length [len] of a row-major buffer. *)
Fixpoint rows {A} (n len : nat) (l : list A) : list (list A) :=
  match n with
  | O => []
  | S n' => take len l :: rows n' len (drop len l)
  end.

(** The rows along the last axis of a 3-dimensional array. *)
Definition rows_axis2 {A} (a : ndarray A) : list (list A) :=
  match shape a with
  | [d0; d1; d2] => rows (d0 * d1) d2 (buf a)
  | _ => []
  end.

(** [np.argmax] on one row: the scan of numpy's float argmax loop.  The
    running maximum [mp] is replaced when [not (x <= mp)], and a NaN ends the
    scan at once. *)
Fixpoint argmax_loop (mp : f32) (max_ind i : nat) (ip : list f32) : nat :=
  match ip with
  | [] => max_ind
  | x :: ip' =>
      if negb (f32_le x mp)
      then if isnan x then i else argmax_loop x i (S i) ip'
      else argmax_loop mp max_ind (S i) ip'
  end.

Definition argmax_row (row : list f32) : result nat :=
  match row with
  | [] => Raise (ValueError "attempt to get argmax of an empty sequence")
  | x :: ip => Ok (if isnan x then 0%nat else argmax_loop x 0 1 ip)
  end.

(** [np.maximum]: the first operand wins ties, a NaN propagates. *)
Definition maximum (a b : f32) : f32 :=
  if f32_ge a b || isnan a then a else b.

(** [np.minimum], likewise. *)
Definition minimum (a b : f32) : f32 :=
  if f32_le a b || isnan a then a else b.

Definition amax_row (row : list f32) : result f32 :=
  match row with
  | [] => Raise (ValueError "zero-size array to reduction operation maximum which has no identity")
  | x :: ip => Ok (foldl maximum x ip)
  end.

(** [np.argmax(a, 2)] and [np.amax(a, 2)] on a 3-dimensional array. *)
Definition argmax_axis2 (a : ndarray f32) : result (ndarray nat) :=
  idx <- mapM_result argmax_row (rows_axis2 a) ;;
  Ok (NDArray (take 2 (shape a)) idx).

Definition amax_axis2 (a : ndarray f32) : result (ndarray f32) :=
  m <- mapM_result amax_row (rows_axis2 a) ;;
  Ok (NDArray (take 2 (shape a)) m).

(** [np.tile(a, (1, 1, 2))] on an array whose last axis has length 1. *)
Definition tile2 {A} (a : ndarray A) : ndarray A :=
  NDArray (take 2 (shape a) ++ [2%nat]) (flat_map (fun v => [v; v]) (buf a)).

Definition astype {A B} (f : A -> B) (a : ndarray A) : ndarray B :=
  NDArray (shape a) (map f (buf a)).

(** [a[:, :, c] = f(a[:, :, c])] on an array whose last axis has length 2. *)
Definition update_channel (c : nat) (f : Q -> Q) (a : ndarray Q) : ndarray Q :=
  NDArray (shape a) (imap (fun p v => if (p mod 2 =? c)%nat then f v else v) (buf a)).

Definition bool_to_f32 (b : bool) : Q := if b then 1%Q else 0%Q.

(** ** The decoder

    [batch_heatmaps] is an [ndarray] by typing, so the first assertion of the
    source holds; the second is checked. *)

Definition get_max_preds (batch_heatmaps : ndarray f32)
  : result (ndarray Q * ndarray f32) :=
  if negb (ndim batch_heatmaps =? 4)%nat
  then Raise (AssertionError "batch_images should be 4-ndim")
  else
    let batch_size := nth 0 (shape batch_heatmaps) 0%nat in
    let num_joints := nth 1 (shape batch_heatmaps) 0%nat in
    let width := nth 3 (shape batch_heatmaps) 0%nat in
    heatmaps_reshaped <- reshape_infer batch_heatmaps batch_size num_joints ;;
    idx <- argmax_axis2 heatmaps_reshaped ;;
    maxvals <- amax_axis2 heatmaps_reshaped ;;
    maxvals <- reshape maxvals [batch_size; num_joints; 1%nat] ;;
    idx <- reshape idx [batch_size; num_joints; 1%nat] ;;
    let preds := astype (fun i => f32_of_int (Z.of_nat i)) (tile2 idx) in
    let preds := update_channel 0 (f32_mod_int (Z.of_nat width)) preds in
    let preds := update_channel 1 (f32_floordiv_int (Z.of_nat width)) preds in
    let pred_mask := tile2 (astype (fun m => f32_gt m f32_zero) maxvals) in
    let pred_mask := astype bool_to_f32 pred_mask in
    let preds := NDArray (shape preds) (zip_with f32_mul (buf preds) (buf pred_mask)) in
    Ok (preds, maxvals).

(** [a[i][j][c]] on a 3-dimensional array; [None] stands for numpy's
    [IndexError]. *)
Definition item3 {A} (a : ndarray A) (i j c : nat) : option A :=
  match shape a with
  | [d0; d1; d2] =>
      if ((i <? d0) && (j <? d1) && (c <? d2))%nat
      then buf a !! ((i * d1 + j) * d2 + c)%nat
      else None
  | _ => None
  end.

(** [batch_heatmaps[n][k]], the map of joint [k] in sample [n], flattened
    row by row: cell [(y, x)] of the map sits at position [y * W + x]. *)
Definition heatmap_of {A} (a : ndarray A) (n k : nat) : list A :=
  match shape a with
  | [_; K; H; W] => take (H * W) (drop ((n * K + k) * (H * W)) (buf a))
  | _ => []
  end.

(** What numpy's scan returns on [row]: the first NaN if there is one, and
    otherwise the first position holding a maximal score. *)
Definition first_max (row : list f32) (r : nat) : Prop :=
  exists v, row !! r = Some v /\
    (forall j y, (j < r)%nat -> row !! j = Some y -> isnan y = false) /\
    (isnan v = false ->
       (forall j y, row !! j = Some y -> f32_le y v = true) /\
       (forall j y, (j < r)%nat -> row !! j = Some y -> f32_lt y v = true)).

(** The expression [get_max_preds] evaluates for coordinate [c] of a joint
    whose flat argmax is [i] and whose maximum is [m]. *)
Definition decoded (c : nat) (width i : nat) (m : f32) : Q :=
  let v := f32_of_int (Z.of_nat i) in
  f32_mul
    (if (c =? 0)%nat
     then f32_mod_int (Z.of_nat width) v
     else f32_floordiv_int (Z.of_nat width) v)
    (bool_to_f32 (f32_gt m f32_zero)).

(** ** Python numbers *)

(** [int(x)] on a float: truncation towards zero. *)
Definition int_of_Q (q : Q) : Z := Z.quot (Qnum q) (Zpos (Qden q)).

(** ** The world outside the script

    The script talks to PaddlePaddle, OpenCV and the file system.  Every such
    call is recorded as an event; the directories that exist are kept next
    to the trace because [train] asks for them. *)

Inductive regularizer : Type :=
| L2Decay (regularization_coeff : Q).

Inductive lr_schedule : Type :=
| piecewise_decay (boundaries : list Z) (values : list f32).

Inductive optimizer : Type :=
| AdamOptimizer (learning_rate : lr_schedule)
| Momentum (learning_rate : f32) (momentum : Q) (regularization : regularizer).

Module Args.
Record t : Type := mk {
  batch_size : Z;
  dataset : string;
  use_gpu : bool;
  num_epochs : Z;
  total_images : Z;
  kp_dim : Z;
  model_save_dir : string;
  with_mem_opt : bool;
  pretrained_model : option string;
  checkpoint : option string;
  lr : f32;
  lr_strategy : string
}.
End Args.

(** The defaults of the command line. *)
Definition default_args : Args.t :=
  {| Args.batch_size := 32;
     Args.dataset := "mpii";
     Args.use_gpu := true;
     Args.num_epochs := 140;
     Args.total_images := 144406;
     Args.kp_dim := 16;
     Args.model_save_dir := "output";
     Args.with_mem_opt := true;
     Args.pretrained_model := None;
     Args.checkpoint := None;
     Args.lr := Fin (round_f64 (1 # 1000));
     Args.lr_strategy := "piecewise_decay" |}.

Inductive event : Type :=
| Import (module : string)
| Print (line : string)
| PrintArguments (args : Args.t)
| LayersData (name : string) (shape : list Z) (dtype : string)
| ResNet (layers kps_num : Z)
| ModelNet
| NewOptimizer (o : optimizer)
| Minimize (o : optimizer)
| MemoryOptimize
| RunStartup (use_gpu : bool)
| LoadVars (dirname : string)
| LoadPersistables (dirname : string)
| PaddleBatch (reader : string) (batch_size : Z)
| NewParallelExecutor (use_cuda : bool)
| FindVar (name : string)
| ExeRun (pass_id batch_id : nat)
| PrintProgress (batch_id pass_id : nat) (current_lr : f32) (loss : list f32)
| ImWrite (file_name : string) (img : ndarray Z)
| MakeDirs (path : string)
| SavePersistables (dirname : string).

Record world : Type := World {
  trace : list event;
  dirs : gset string
}.

(** A computation runs in a world and either returns or raises; what it did
    before raising stays done. *)
Definition M (A : Type) : Type := world -> result A * world.

Definition ret {A} (a : A) : M A := fun w => (Ok a, w).

Definition raise {A} (e : exn) : M A := fun w => (Raise e, w).

Definition bindM {A B} (m : M A) (k : A -> M B) : M B :=
  fun w =>
    match m w with
    | (Ok a, w') => k a w'
    | (Raise e, w') => (Raise e, w')
    end.

Notation "x <~ m ;; k" := (bindM m (fun x => k))
  (at level 100, m at next level, right associativity).
Notation "m ;;; k" := (bindM m (fun _ => k))
  (at level 100, right associativity).

Definition lift {A} (r : result A) : M A := fun w => (r, w).

Definition emit (e : event) : M unit :=
  fun w => (Ok tt, World (trace w ++ [e]) (dirs w)).

Definition isdir (path : string) : M bool :=
  fun w => (Ok (bool_decide (path ∈ dirs w)), w).

Definition makedirs (path : string) : M unit :=
  fun w => (Ok tt, World (trace w ++ [MakeDirs path]) ({[path]} ∪ dirs w)).

(** [for x in l: body(x)]. *)
Fixpoint for_each {A} (l : list A) (body : A -> M unit) : M unit :=
  match l with
  | [] => ret tt
  | x :: l' => body x ;;; for_each l' body
  end.

(** [enumerate(l)]. *)
Definition enumerate {A} (l : list A) : list (nat * A) := imap (fun i x => (i, x)) l.

(** [range(n)]. *)
Definition range (n : Z) : list nat := seq 0 (Z.to_nat n).

(** ** [optimizer_setting] *)

Module Strategy.
Record t : Type := mk {
  name : string;
  batch_size : Z;
  epochs : option (list Z)
}.
End Strategy.

Module Params.
Record t : Type := mk {
  total_images : Z;
  lr : f32;
  num_epochs : Z;
  learning_strategy : Strategy.t
}.
End Params.

(** [str([91, 121])] and the like. *)
Definition str_list (l : list Z) : string :=
  "[" +:+ String.concat ", " (map pretty l) +:+ "]".

(** [total_images / batch_size] on two Python 3 integers: the exact
    quotient rounded once to float64.  Python raises when the divisor is
    zero and when the rounded quotient is out of the range of a float. *)
Definition true_divide (a b : Z) : result Q :=
  if b =? 0 then Raise (ZeroDivisionError "division by zero")
  else
    let q := round_f64 (inject_Z a / inject_Z b) in
    if Qle_bool (huge float64) (Qabs q)
    then Raise (OverflowError "integer division result too large for a float")
    else Ok q.

(** [int(total_images / batch_size + 1)]: the float64 quotient, the float64
    sum, and the truncation.  [steps_per_epoch_float] is the value of the
    step when the division goes through. *)
Definition steps_per_epoch_float (total_images batch_size : Z) : Z :=
  int_of_Q (round_f64 (round_f64 (inject_Z total_images / inject_Z batch_size) + 1)).

Definition steps_per_epoch (total_images batch_size : Z) : result Z :=
  q <- true_divide total_images batch_size ;;
  Ok (int_of_Q (round_f64 (q + 1))).

(** [x ** i] on a float64 [x] and a small non-negative integer [i], as the
    C library returns it for the powers taken here: the exact power rounded
    once, so that [x ** 0 = 1.0] and [x ** 1 = x]. *)
Definition float_pow (x : Q) (i : nat) : f32 :=
  float_round float64 (x ^ Z.of_nat i).

(** The dictionary [ls] is shared with the caller, so the entry ['epochs']
    written here is returned with the optimizer. *)
Definition optimizer_setting (args : Args.t) (params : Params.t)
  : M (optimizer * Params.t) :=
  let lr_drop_ratio : Q := round_f64 (1 # 10) in
  let ls := Params.learning_strategy params in
  if String.eqb (Strategy.name ls) "piecewise_decay" then
    let total_images := Params.total_images params in
    let batch_size := Strategy.batch_size ls in
    step <~ lift (steps_per_epoch total_images batch_size) ;;
    let ls := Strategy.mk (Strategy.name ls) (Strategy.batch_size ls) (Some [91; 121]) in
    emit (Print ("=> LR will be dropped at the epoch of " +:+ str_list [91; 121])) ;;;
    let bd := map (fun e => step * e) [91; 121] in
    let base_lr := Params.lr params in
    let lr := map (fun i => float_mul float64 base_lr (float_pow lr_drop_ratio i))
                  (seq 0 (length bd + 1)) in
    let optimizer := AdamOptimizer (piecewise_decay bd lr) in
    emit (NewOptimizer optimizer) ;;;
    ret (optimizer,
         Params.mk (Params.total_images params) (Params.lr params)
                   (Params.num_epochs params) ls)
  else
    let lr := Params.lr params in
    let optimizer :=
      Momentum lr (round_f64 (9 # 10)) (L2Decay (round_f64 (5 # 10000))) in
    emit (NewOptimizer optimizer) ;;;
    ret (optimizer, params).

(** ** [save_batch_heatmaps]

    [batch_image] and [batch_heatmaps] are float32 arrays by typing, as the
    executor returns them. *)

(** An image handed to or returned by OpenCV: row, column, channel. *)
Definition image : Type := nat -> nat -> nat -> Q.

(** The pixels OpenCV computes.  [cv2_circle img center] stands for
    [cv2.circle(img, center, 1, [0, 0, 255], 1)] and [cv2_applyColorMap] for
    the JET map. *)
Class OpenCV : Type := {
  cv2_resize : image -> nat * nat -> image;
  cv2_circle : image -> Z * Z -> image;
  cv2_applyColorMap : (nat -> nat -> Z) -> image
}.

(** [ndarray.min()] and [ndarray.max()] over all the cells. *)
Definition np_min (l : list f32) : result f32 :=
  match l with
  | [] => Raise (ValueError "zero-size array to reduction operation minimum which has no identity")
  | x :: l' => Ok (foldl minimum x l')
  end.

Definition np_max (l : list f32) : result f32 :=
  match l with
  | [] => Raise (ValueError "zero-size array to reduction operation maximum which has no identity")
  | x :: l' => Ok (foldl maximum x l')
  end.

(** [max - min + 1e-5] on the float64 scalars [min] and [max]. *)
Definition normalize_denominator (min max : f32) : f32 :=
  float_add float64 (float_sub float64 max min) (Fin (round_f64 (1 # 100000))).

(** The [if normalize:] block.  [min] and [max] are the float32 extremes
    held as float64 scalars.  Each of the two array operations is carried
    out in the dtype that value-based casting gives it, float32 unless the
    scalar is too large; the block returns the new array with its dtype.
    Casting a pixel or [-min], which are float32 values, to the dtype of an
    operation changes nothing; casting the denominator to float32 rounds
    it. *)
Definition normalize_batch (batch_image : ndarray f32) : result (dtype * ndarray f32) :=
  min <- np_min (buf batch_image) ;;
  max <- np_max (buf batch_image) ;;
  let t := result_type float32 (float_neg min) in
  let batch_image := astype (fun v => float_add t v (float_neg min)) batch_image in
  let d := normalize_denominator min max in
  let t := result_type t d in
  Ok (t, astype (fun v => float_div t v (float_cast t d)) batch_image).

Definition clip (lo hi v : Q) : Q :=
  if Qle_bool v lo then lo else if Qle_bool hi v then hi else v.

(** [astype(np.uint8)] on a float already clipped to [0, 255]. *)
Definition to_uint8 (v : Q) : Z := int_of_Q v mod 256.

(** [(score * 255).clip(0, 255).astype(np.uint8)] on a heatmap score; a NaN
    is taken to zero. *)
Definition score_to_uint8 (v : f32) : Z :=
  match v with
  | NaN => 0
  | NegInf => 0
  | PosInf => 255
  | Fin q => to_uint8 (clip 0 255 (round_f32 (q * 255)))
  end.

(** The same on a pixel of an array of dtype [t].  A product that
    overflows is clipped to 255 like any other large product. *)
Definition pixel_to_uint8 (t : dtype) (v : f32) : Z :=
  match v with
  | NaN => 0
  | NegInf => 0
  | PosInf => 255
  | Fin q => to_uint8 (clip 0 255 (round_to t (q * 255)))
  end.

(** [a[i][c][y][x]] on a 4-dimensional array, [dflt] outside. *)
Definition item4 {A} (dflt : A) (a : ndarray A) (i c y x : nat) : A :=
  match shape a with
  | [_; d1; d2; d3] => default dflt (buf a !! (((i * d1 + c) * d2 + y) * d3 + x)%nat)
  | _ => dflt
  end.

Definition np_zeros (sh : list nat) : ndarray Z :=
  NDArray sh (replicate (size_of sh) 0).

(** An image as a numpy array: its shape, [[height; width; channels]] or
    [[height; width]], and its pixels; an array of two axes is read at
    channel 0. *)
Record picture : Type := Picture {
  pshape : list nat;
  pixels : image
}.

(** numpy's broadcasting of two shapes, given last axis first: two lengths
    agree when they are equal or one of them is 1. *)
Fixpoint broadcast_rev (a b : list nat) : option (list nat) :=
  match a, b with
  | [], sh | sh, [] => Some sh
  | x :: a', y :: b' =>
      if (x =? y)%nat then cons x <$> broadcast_rev a' b'
      else if (x =? 1)%nat then cons y <$> broadcast_rev a' b'
      else if (y =? 1)%nat then cons x <$> broadcast_rev a' b'
      else None
  end.

Definition broadcast_shapes (a b : list nat) : option (list nat) :=
  (fun sh => rev sh) <$> broadcast_rev (rev a) (rev b).

(** Pixel [(y, x, c)] of a picture seen as an array of three axes: an axis
    of length 1 is repeated, and an array of two axes supplies the last
    two. *)
Definition broadcast_pixel (p : picture) : image :=
  fun y x c =>
    match pshape p with
    | [h; w; ch] =>
        pixels p (if h =? 1 then 0 else y)%nat (if w =? 1 then 0 else x)%nat
                 (if ch =? 1 then 0 else c)%nat
    | [h; w] =>
        pixels p (if h =? 1 then 0 else x)%nat (if w =? 1 then 0 else c)%nat 0%nat
    | _ => 0%Q
    end.

(** The grid with the block [blk] cast to uint8 and written at rows
    [r0 .. r0 + h - 1] and columns [c0 .. c0 + w - 1], as far as they
    exist. *)
Definition write_block (grid : ndarray Z) (cols chans r0 c0 h w : nat) (blk : image)
  : ndarray Z :=
  NDArray (shape grid)
    (imap (fun p old =>
             let r := (p / (cols * chans))%nat in
             let c := ((p / chans) mod cols)%nat in
             let k := (p mod chans)%nat in
             if ((r0 <=? r) && (r <? r0 + h) && (c0 <=? c) && (c <? c0 + w))%nat
             then to_uint8 (blk (r - r0) (c - c0) k)%nat
             else old)
          (buf grid)).

(** [grid[r0 : r0 + h, c0 : c0 + w, :] = blk] on a uint8 grid: the slices
    are cut to the grid, and [blk] has to broadcast to what is left. *)
Definition set_block (grid : ndarray Z) (r0 c0 h w : nat) (blk : picture)
  : result (ndarray Z) :=
  match shape grid with
  | [rows; cols; chans] =>
      let slot := [Nat.min (r0 + h) rows - Nat.min r0 rows;
                   Nat.min (c0 + w) cols - Nat.min c0 cols;
                   chans]%nat in
      if bool_decide (broadcast_shapes (pshape blk) slot = Some slot)
      then Ok (write_block grid cols chans r0 c0 h w (broadcast_pixel blk))
      else Raise (ValueError "could not broadcast input array")
  | _ => Raise (IndexError "too many indices for array")
  end.

Definition option_to_result {A} (o : option A) (e : exn) : result A :=
  match o with
  | Some a => Ok a
  | None => Raise e
  end.

(** A loop that threads a state and stops at the first exception. *)
Fixpoint fold_result {A S} (f : A -> S -> result S) (l : list A) (s : S) : result S :=
  match l with
  | [] => Ok s
  | a :: l' => s' <- f a s ;; fold_result f l' s'
  end.

Section visualization.

Context {cv : OpenCV}.

(** [cv2.resize(image, (width, height))].  OpenCV refuses an empty image,
    an empty target and more than 512 channels, and returns an image of a
    single channel as an array of two axes. *)
Definition resize (image : picture) (dsize : nat * nat) : result picture :=
  let '(width, height) := dsize in
  if (size_of (pshape image) =? 0)%nat || (width =? 0)%nat || (height =? 0)%nat
     || (512 <? nth 2 (pshape image) 0)%nat
  then Raise (Cv2Error "resize")
  else
    Ok (Picture (if (nth 2 (pshape image) 0 =? 1)%nat
                 then [height; width]
                 else [height; width; nth 2 (pshape image) 0%nat])
                (cv2_resize (pixels image) dsize)).

(** [cv2.circle(img, center, 1, [0, 0, 255], 1)], in place.  OpenCV draws
    on at most four channels. *)
Definition circle (img : picture) (center : Z * Z) : result picture :=
  if (4 <? nth 2 (pshape img) 0)%nat
  then Raise (Cv2Error "circle")
  else Ok (Picture (pshape img) (cv2_circle (pixels img) center)).

(** The pixels of [colored_heatmap * 0.7 + resized_image * 0.3], in
    float64. *)
Definition blend_pixels (colored_heatmap resized_image : picture) : image :=
  fun y x c =>
    round_f64 (round_f64 (broadcast_pixel colored_heatmap y x c * round_f64 (7 # 10))
               + round_f64 (broadcast_pixel resized_image y x c * round_f64 (3 # 10))).

Definition blend (colored_heatmap resized_image : picture) : result picture :=
  match broadcast_shapes (pshape colored_heatmap) (pshape resized_image) with
  | Some sh => Ok (Picture sh (blend_pixels colored_heatmap resized_image))
  | None => Raise (ValueError "operands could not be broadcast together")
  end.

(** The body of [for j in range(num_joints)]: it draws on [resized_image] in
    place and fills column [j + 1] of row [i] of the grid. *)
Definition draw_joint (batch_heatmaps : ndarray f32) (preds : ndarray Q)
    (heatmap_height heatmap_width i j : nat)
    (st : picture * ndarray Z) : result (picture * ndarray Z) :=
  let '(resized_image, grid_image) := st in
  let height_begin := (heatmap_height * i)%nat in
  x <- option_to_result (item3 preds i j 0) (IndexError "index out of bounds") ;;
  y <- option_to_result (item3 preds i j 1) (IndexError "index out of bounds") ;;
  resized_image <- circle resized_image (int_of_Q x, int_of_Q y) ;;
  let heatmap := fun r c => score_to_uint8 (item4 NaN batch_heatmaps i j r c) in
  let colored_heatmap :=
    Picture [heatmap_height; heatmap_width; 3%nat] (cv2_applyColorMap heatmap) in
  masked_image <- blend colored_heatmap resized_image ;;
  masked_image <- circle masked_image (int_of_Q x, int_of_Q y) ;;
  let width_begin := (heatmap_width * (j + 1))%nat in
  grid_image <- set_block grid_image height_begin width_begin
                          heatmap_height heatmap_width masked_image ;;
  Ok (resized_image, grid_image).

(** Sample [i] of a batch of dtype [t] as the 8-bit image that [cv2.resize]
    receives: [(batch_image[i] * 255).clip(0, 255).astype(np.uint8)],
    transposed to rows, columns, channels. *)
Definition sample_image (t : dtype) (batch_image : ndarray f32) (i : nat) : image :=
  fun y x c => inject_Z (pixel_to_uint8 t (item4 NaN batch_image i c y x)).

(** The body of [for i in range(batch_size)]. *)
Definition draw_sample (t : dtype) (batch_image : ndarray f32)
    (batch_heatmaps : ndarray f32)
    (preds : ndarray Q) (num_joints heatmap_height heatmap_width i : nat)
    (grid_image : ndarray Z) : result (ndarray Z) :=
  if negb (i <? nth 0 (shape batch_image) 0)%nat
  then Raise (IndexError "index out of bounds")
  else if negb (ndim batch_image =? 4)%nat
  then Raise (ValueError "axes don't match array")
  else
    let image :=
      Picture [nth 2 (shape batch_image) 0; nth 3 (shape batch_image) 0;
               nth 1 (shape batch_image) 0]%nat
              (sample_image t batch_image i) in
    resized_image <- resize image (heatmap_width, heatmap_height) ;;
    let height_begin := (heatmap_height * i)%nat in
    st <- fold_result
            (draw_joint batch_heatmaps preds heatmap_height heatmap_width i)
            (seq 0 num_joints) (resized_image, grid_image) ;;
    let '(resized_image, grid_image) := st in
    set_block grid_image height_begin 0 heatmap_height heatmap_width resized_image.

(** The image batch that is drawn, with its dtype. *)
Definition prepare_batch (batch_image : ndarray f32) (normalize : bool)
  : result (dtype * ndarray f32) :=
  if normalize then normalize_batch batch_image else Ok (float32, batch_image).

Definition save_batch_heatmaps (batch_image : ndarray f32) (batch_heatmaps : ndarray f32)
    (file_name : string) (normalize : bool) : M unit :=
  prepared <~ lift (prepare_batch batch_image normalize) ;;
  let '(t, batch_image) := prepared in
  match shape batch_heatmaps with
  | [batch_size; num_joints; heatmap_height; heatmap_width] =>
      let grid_image :=
        np_zeros [batch_size * heatmap_height; (num_joints + 1) * heatmap_width; 3]%nat in
      pm <~ lift (get_max_preds batch_heatmaps) ;;
      let '(preds, maxvals) := pm in
      grid_image <~ lift (fold_result
                            (draw_sample t batch_image batch_heatmaps preds
                                         num_joints heatmap_height heatmap_width)
                            (seq 0 batch_size) grid_image) ;;
      emit (ImWrite file_name grid_image)
  | _ => raise (ValueError "not enough values to unpack")
  end.

(** What the tiles of the grid show.  The point marked for joint [j]; the
    resized image of sample [i] once the markers of the joints [0 .. m - 1]
    are on it, [cv2.circle] drawing in place; and the tile of joint [j],
    blended from the image as it is at that moment. *)
Definition joint_point (preds : ndarray Q) (i j : nat) : Z * Z :=
  (int_of_Q (default 0%Q (item3 preds i j 0)),
   int_of_Q (default 0%Q (item3 preds i j 1))).

Definition marked_image (t : dtype) (batch_image : ndarray f32) (preds : ndarray Q)
    (heatmap_height heatmap_width i m : nat) : image :=
  foldl (fun img j => cv2_circle img (joint_point preds i j))
        (cv2_resize (sample_image t batch_image i) (heatmap_width, heatmap_height))
        (seq 0 m).

Definition joint_tile (t : dtype) (batch_image : ndarray f32)
    (batch_heatmaps : ndarray f32)
    (preds : ndarray Q) (heatmap_height heatmap_width i j : nat) : image :=
  let shape_of_tile := [heatmap_height; heatmap_width; 3%nat] in
  cv2_circle
    (blend_pixels
       (Picture shape_of_tile
          (cv2_applyColorMap
             (fun r c => score_to_uint8 (item4 NaN batch_heatmaps i j r c))))
       (Picture shape_of_tile
          (marked_image t batch_image preds heatmap_height heatmap_width i (S j))))
    (joint_point preds i j).

(** ** [train] *)

(** What one iteration of the batch loop reads from the framework: the
    learning rate variable and the three fetched arrays. *)
Record fetched : Type := Fetched {
  current_lr : f32;
  input_image : ndarray f32;
  loss : list f32;
  out_heatmaps : ndarray f32
}.

(** The body of the batch loop. *)
Definition train_batch (pass_id batch_id : nat) (data : fetched) : M unit :=
  emit (FindVar "learning_rate") ;;;
  emit (ExeRun pass_id batch_id) ;;;
  emit (PrintProgress batch_id pass_id (current_lr data) (loss data)) ;;;
  if (batch_id mod 10 =? 0)%nat
  then save_batch_heatmaps (input_image data) (out_heatmaps data)
                           "visualization@train.jpg" true
  else ret tt.

(** The body of the epoch loop; [batches] is what the reader and the
    executor deliver in this epoch. *)
Definition train_epoch (args : Args.t) (pass_id : nat) (batches : list fetched) : M unit :=
  for_each (enumerate batches) (fun bd => train_batch pass_id bd.1 bd.2) ;;;
  let model_path :=
    (Args.model_save_dir args +:+ "/" +:+ "simplebase-" +:+ Args.dataset args)
      +:+ "/" +:+ pretty pass_id in
  exists_ <~ isdir model_path ;;
  (if negb exists_ then makedirs model_path else ret tt) ;;;
  emit (SavePersistables model_path).

(** What the [if]/[elif]/[else] on the dataset name settles. *)
Record dataset_config : Type := DatasetConfig {
  reader : string;
  IMAGE_SIZE : list Z;
  HEATMAP_SIZE : list Z;
  config_args : Args.t
}.

Definition set_dataset_fields (args : Args.t) (kp_dim total_images : Z) : Args.t :=
  {| Args.batch_size := Args.batch_size args;
     Args.dataset := Args.dataset args;
     Args.use_gpu := Args.use_gpu args;
     Args.num_epochs := Args.num_epochs args;
     Args.total_images := total_images;
     Args.kp_dim := kp_dim;
     Args.model_save_dir := Args.model_save_dir args;
     Args.with_mem_opt := Args.with_mem_opt args;
     Args.pretrained_model := Args.pretrained_model args;
     Args.checkpoint := Args.checkpoint args;
     Args.lr := Args.lr args;
     Args.lr_strategy := Args.lr_strategy args |}.

Definition set_pretrained_model (args : Args.t) (path : option string) : Args.t :=
  {| Args.batch_size := Args.batch_size args;
     Args.dataset := Args.dataset args;
     Args.use_gpu := Args.use_gpu args;
     Args.num_epochs := Args.num_epochs args;
     Args.total_images := Args.total_images args;
     Args.kp_dim := Args.kp_dim args;
     Args.model_save_dir := Args.model_save_dir args;
     Args.with_mem_opt := Args.with_mem_opt args;
     Args.pretrained_model := path;
     Args.checkpoint := Args.checkpoint args;
     Args.lr := Args.lr args;
     Args.lr_strategy := Args.lr_strategy args |}.

Definition select_dataset (args : Args.t) : M dataset_config :=
  if String.eqb (Args.dataset args) "coco" then
    emit (Import "lib.coco_reader") ;;;
    ret (DatasetConfig "lib.coco_reader" [288; 384] [72; 96]
                       (set_dataset_fields args 17 144406))
  else if String.eqb (Args.dataset args) "mpii" then
    emit (Import "lib.mpii_reader") ;;;
    ret (DatasetConfig "lib.mpii_reader" [384; 384] [96; 96]
                       (set_dataset_fields args 16 22246))
  else
    raise (ValueError ("The dataset " +:+ Args.dataset args +:+ " is not supported yet.")).

(** [train args]; [batches pass_id] is what the reader and the executor
    deliver in epoch [pass_id]. *)
Definition train (args : Args.t) (batches : nat -> list fetched) : M unit :=
  cfg <~ select_dataset args ;;
  let args := config_args cfg in
  emit (PrintArguments args) ;;;
  emit (LayersData "image"
          [3; nth 1 (IMAGE_SIZE cfg) 0; nth 0 (IMAGE_SIZE cfg) 0] "float32") ;;;
  emit (LayersData "target"
          [Args.kp_dim args; nth 1 (HEATMAP_SIZE cfg) 0; nth 0 (HEATMAP_SIZE cfg) 0]
          "float32") ;;;
  emit (LayersData "target_weight" [Args.kp_dim args; 1] "float32") ;;;
  emit (ResNet 50 (Args.kp_dim args)) ;;;
  emit ModelNet ;;;
  let params :=
    Params.mk (Args.total_images args) (Args.lr args) (Args.num_epochs args)
              (Strategy.mk (Args.lr_strategy args) (Args.batch_size args) None) in
  op <~ optimizer_setting args params ;;
  let '(optimizer, params) := op in
  emit (Minimize optimizer) ;;;
  (if Args.with_mem_opt args then emit MemoryOptimize else ret tt) ;;;
  emit (RunStartup (Args.use_gpu args)) ;;;
  let args := set_pretrained_model args (Some "./pretrained/resnet_50/115") in
  match Args.pretrained_model args with
  | Some path => if String.eqb path "" then ret tt else emit (LoadVars path)
  | None => ret tt
  end ;;;
  match Args.checkpoint args with
  | Some path => emit (LoadPersistables path)
  | None => ret tt
  end ;;;
  emit (PaddleBatch (reader cfg) (Args.batch_size args)) ;;;
  emit (NewParallelExecutor (Args.use_gpu args)) ;;;
  for_each (range (Params.num_epochs params))
           (fun pass_id => train_epoch args pass_id (batches pass_id)).

End visualization.

(** ** Sample inputs *)

(** One sample, two joints, maps of two rows and three columns.  Joint 0
    peaks at row 1, column 1; joint 1 never rises above zero. *)
Definition example_heatmaps : ndarray f32 :=
  NDArray [1; 2; 2; 3]%nat
    [Fin 0; Fin (1 # 2); Fin 0;
     Fin 0; Fin (3 # 4); Fin 0;
     Fin 0; Fin 0; Fin 0;
     Fin (-1); Fin 0; Fin 0].

(** One sample, one joint, a map of [i + 1] rows and one column that is zero
    except for a one in its last row. *)
Definition spike_heatmaps (i : nat) : ndarray f32 :=
  NDArray [1; 1; S i; 1]%nat (replicate i f32_zero ++ [Fin 1]).

(** An OpenCV that leaves every image as it is and shows a heatmap in
    grey. *)
Definition plain_cv : OpenCV := {|
  cv2_resize := fun img _ => img;
  cv2_circle := fun img _ => img;
  cv2_applyColorMap := fun heatmap => fun y x c => inject_Z (heatmap y x)
|}.

(** One sample of three channels, two rows and two columns. *)
Definition example_image : ndarray f32 :=
  NDArray [1; 3; 2; 2]%nat
    [Fin 0; Fin (1 # 2); Fin 1; Fin (1 # 4);
     Fin 0; Fin 0; Fin 0; Fin 0;
     Fin 1; Fin 1; Fin 1; Fin 1].

Definition example_fetched : fetched :=
  Fetched (Fin (round_f64 (1 # 1000))) example_image [Fin (1 # 2)] example_heatmaps.

Definition empty_world : world := World [] ∅.

(** The optimizers the framework was asked to build, in order. *)
Definition optimizers_built (t : list event) : list optimizer :=
  omap (fun e => match e with NewOptimizer o => Some o | _ => None end) t.

(** The files [cv2.imwrite] was called on, in order. *)
Definition images_written (t : list event) : list string :=
  omap (fun e => match e with ImWrite file_name _ => Some file_name | _ => None end) t.

(** One sample, one joint, a map of two rows and two columns with a NaN in
    it. *)
Definition nan_heatmaps : ndarray f32 :=
  NDArray [1; 1; 2; 2]%nat [Fin 1; NaN; Fin 2; Fin 0].

(** The scores of [example_heatmaps] as two samples of one joint each. *)
Definition example_heatmaps_two_samples : ndarray f32 :=
  NDArray [2; 1; 2; 3]%nat (buf example_heatmaps).

(** A command line for two epochs on COCO, and the same with a batch size
    of zero. *)
Definition coco_args : Args.t :=
  {| Args.batch_size := 32;
     Args.dataset := "coco";
     Args.use_gpu := true;
     Args.num_epochs := 2;
     Args.total_images := 144406;
     Args.kp_dim := 16;
     Args.model_save_dir := "output";
     Args.with_mem_opt := true;
     Args.pretrained_model := None;
     Args.checkpoint := None;
     Args.lr := Fin (round_f64 (1 # 1000));
     Args.lr_strategy := "piecewise_decay" |}.

Definition zero_batch_args : Args.t :=
  {| Args.batch_size := 0;
     Args.dataset := "coco";
     Args.use_gpu := true;
     Args.num_epochs := 2;
     Args.total_images := 144406;
     Args.kp_dim := 16;
     Args.model_save_dir := "output";
     Args.with_mem_opt := true;
     Args.pretrained_model := None;
     Args.checkpoint := None;
     Args.lr := Fin (round_f64 (1 # 1000));
     Args.lr_strategy := "piecewise_decay" |}.

Definition example_params : Params.t :=
  Params.mk 144406 (Fin (round_f64 (1 # 1000))) 140 (Strategy.mk "piecewise_decay" 32 None).

(** The runs of the executor, as pairs of an epoch and a batch index, in
    order. *)
Definition exe_runs (t : list event) : list (nat * nat) :=
  omap (fun e => match e with ExeRun pass_id batch_id => Some (pass_id, batch_id) | _ => None end) t.

(** The directories [save_persistables] wrote a snapshot to, in order. *)
Definition persistables_saved (t : list event) : list string :=
  omap (fun e => match e with SavePersistables d => Some d | _ => None end) t.

(** The directories [os.makedirs] was called on, in order. *)
Definition dirs_made (t : list event) : list string :=
  omap (fun e => match e with MakeDirs d => Some d | _ => None end) t.

(** The calls that load weights, in order. *)
Definition weights_loaded (t : list event) : list event :=
  omap (fun e => match e with
                 | LoadVars _ | LoadPersistables _ => Some e
                 | _ => None
                 end) t.

(** The directory the snapshot of epoch [pass_id] goes to. *)
Definition model_path (args : Args.t) (pass_id : nat) : string :=
  (Args.model_save_dir args +:+ "/" +:+ "simplebase-" +:+ Args.dataset args)
    +:+ "/" +:+ pretty pass_id.

(** A fetched batch that [save_batch_heatmaps] can draw: heatmaps with at
    least one cell along each of their four axes, and three-channel images
    that are not empty, one for every sample at least. *)
Definition drawable (data : fetched) : Prop :=
  wf (out_heatmaps data) /\ wf (input_image data) /\
  exists b k h wd n hi wi,
    shape (out_heatmaps data) = [b; k; h; wd] /\
    shape (input_image data) = [n; 3; hi; wi]%nat /\
    (0 < b)%nat /\ (0 < k)%nat /\ (0 < h)%nat /\ (0 < wd)%nat /\
    (b <= n)%nat /\ (0 < hi)%nat /\ (0 < wi)%nat.

(** The events of the batch loop and of the epoch loop. *)
Definition batch_event (e : event) : Prop :=
  match e with
  | FindVar _ | ExeRun _ _ | PrintProgress _ _ _ _ | ImWrite _ _ => True
  | _ => False
  end.

Definition loop_event (e : event) : Prop :=
  match e with
  | FindVar _ | ExeRun _ _ | PrintProgress _ _ _ _ | ImWrite _ _
  | MakeDirs _ | SavePersistables _ => True
  | _ => False
  end.

(** The trace has grown by events that satisfy [P]. *)
Definition appends (P : event -> Prop) (w w' : world) : Prop :=
  exists t, trace w' = trace w ++ t /\ Forall P t.

(** Two grids of one shape and one size. *)
Definition same_grid (g g' : ndarray Z) : Prop :=
  shape g' = shape g /\ length (buf g') = length (buf g).

(** The one file the training loop draws to. *)
Definition visualization_file : string := "visualization@train.jpg".

(** Every image written so far went to that file. *)
Definition only_visualization_file (w : world) : Prop :=
  Forall (fun file_name => file_name = visualization_file) (images_written (trace w)).

(** [R] relates the world before every run of [m] to the world after it,
    whether the run returns or raises. *)
Definition respects {A} (R : world -> world -> Prop) (m : M A) : Prop :=
  forall w r w', m w = (r, w') -> R w w'.

(** Images still go to the one file. *)
Definition one_file_kept (w w' : world) : Prop :=
  only_visualization_file w -> only_visualization_file w'.

(** The trace has only grown. *)
Definition trace_extended (w w' : world) : Prop :=
  exists t, trace w' = trace w ++ t.

(** An event that is not an image written under another name. *)
Definition no_other_image (e : event) : Prop :=
  forall file_name img, e = ImWrite file_name img -> file_name = visualization_file.

(** ** Further sample inputs *)

(** A batch that is constant at [+inf], and one with a NaN in it. *)
Definition inf_image : ndarray f32 :=
  NDArray [1; 3; 1; 1]%nat [PosInf; PosInf; PosInf].

Definition nan_image : ndarray f32 :=
  NDArray [1; 3; 1; 1]%nat [Fin 0; NaN; Fin 1].

(** One sample of two channels, two rows and two columns. *)
Definition two_channel_image : ndarray f32 :=
  NDArray [1; 2; 2; 2]%nat
    [Fin 0; Fin (1 # 2); Fin 1; Fin (1 # 4);  Fin 1; Fin 1; Fin 1; Fin 1].

(** One grey pixel, and a heatmap of one cell for one joint. *)
Definition one_channel_image : ndarray f32 :=
  NDArray [1; 1; 1; 1]%nat [Fin (1 # 2)].

Definition one_cell_heatmaps : ndarray f32 :=
  NDArray [1; 1; 1; 1]%nat [Fin 1].

(** A fetched batch without images, and a reader that delivers one good
    batch in epoch 0 and the batch without images in every later epoch. *)
Definition empty_fetched : fetched :=
  Fetched (Fin (round_f64 (1 # 1000))) (NDArray [0; 3; 2; 2]%nat []) [Fin (1 # 2)]
          example_heatmaps.

Definition failing_batches (pass_id : nat) : list fetched :=
  if (pass_id =? 0)%nat then [example_fetched] else [empty_fetched].

(** * Properties *)

(** ** The order on float32 scores *)

Section f32_order.

Implicit Types a b c : f32.

Lemma f32_le_notnan a b : f32_le a b = true -> isnan a = false /\ isnan b = false.
Proof. destruct a, b; simpl; intros; try discriminate; auto. Qed.

Lemma f32_lt_notnan a b : f32_lt a b = true -> isnan a = false /\ isnan b = false.
Proof. destruct a, b; simpl; intros; try discriminate; auto. Qed.

Lemma f32_le_refl a : isnan a = false -> f32_le a a = true.
Proof.
  destruct a; simpl; intros; try discriminate; auto.
  apply Qle_bool_iff, Qle_refl.
Qed.

Lemma f32_le_trans a b c :
  f32_le a b = true -> f32_le b c = true -> f32_le a c = true.
Proof.
  destruct a, b, c; simpl; intros H1 H2; try discriminate; auto.
  apply Qle_bool_iff. apply Qle_bool_iff in H1, H2.
  eapply Qle_trans; eauto.
Qed.

(** On scores that are not NaN the order is total: [not (a <= b)] is [b < a]. *)
Lemma f32_le_false a b :
  isnan a = false -> isnan b = false ->
  f32_le a b = false -> f32_lt b a = true.
Proof.
  destruct a, b; simpl; intros; try discriminate; auto.
  match goal with H : Qle_bool _ _ = false |- _ => rewrite H end. reflexivity.
Qed.

Lemma f32_lt_le a b : f32_lt a b = true -> f32_le a b = true.
Proof.
  destruct a, b; simpl; intros H; try discriminate; auto.
  apply Qle_bool_iff. apply Qlt_le_weak. apply Qnot_le_lt.
  intros Hle. apply Qle_bool_iff in Hle. rewrite Hle in H. discriminate.
Qed.

Lemma f32_lt_not_le a b : f32_lt a b = true -> f32_le b a = false.
Proof.
  destruct a, b; simpl; intros H; try discriminate; auto.
  destruct (Qle_bool q0 q); [discriminate | reflexivity].
Qed.

Lemma f32_le_lt_trans a b c :
  f32_le a b = true -> f32_lt b c = true -> f32_lt a c = true.
Proof.
  intros H1 H2.
  destruct (f32_le_notnan _ _ H1) as [Ha _].
  destruct (f32_lt_notnan _ _ H2) as [_ Hc].
  apply f32_le_false; auto.
  destruct (f32_le c a) eqn:E; auto.
  pose proof (f32_le_trans _ _ _ E H1) as H3.
  rewrite (f32_lt_not_le _ _ H2) in H3. discriminate.
Qed.

End f32_order.

(** ** [np.argmax] and [np.amax] on one row *)

Lemma argmax_loop_first_max (ip pre : list f32) (mp : f32) (max_ind : nat) :
  isnan mp = false ->
  pre !! max_ind = Some mp ->
  (forall j y, pre !! j = Some y -> f32_le y mp = true) ->
  (forall j y, (j < max_ind)%nat -> pre !! j = Some y -> f32_lt y mp = true) ->
  first_max (pre ++ ip) (argmax_loop mp max_ind (length pre) ip).
Proof.
  revert pre mp max_ind.
  induction ip as [|x ip IH]; intros pre mp max_ind Hmp Hat Hle Hlt; simpl.
  - rewrite app_nil_r. exists mp. split; [exact Hat|]. split.
    + intros j y Hj Hy. apply Hlt in Hy; auto. apply f32_lt_notnan in Hy. tauto.
    + intros _. split; auto.
  - assert (Hlen : length (pre ++ [x]) = S (length pre))
      by (rewrite length_app; simpl; lia).
    assert (Hassoc : pre ++ x :: ip = (pre ++ [x]) ++ ip)
      by (rewrite <- app_assoc; reflexivity).
    assert (Hin : (max_ind < length pre)%nat) by (apply lookup_lt_Some in Hat; lia).
    destruct (f32_le x mp) eqn:Hx; simpl.
    + (* the running maximum stays *)
      rewrite Hassoc, <- Hlen. apply IH; auto.
      * rewrite lookup_app_l; auto.
      * intros j y Hj. apply lookup_app_Some in Hj as [Hj|[_ Hj]]; eauto.
        apply list_lookup_singleton_Some in Hj as [_ <-]. exact Hx.
      * intros j y Hj Hy. apply lookup_app_Some in Hy as [Hy|[Hge _]]; eauto.
        lia.
    + destruct (isnan x) eqn:Hnan.
      * (* a NaN ends the scan *)
        exists x. split.
        { rewrite lookup_app_r by lia. rewrite Nat.sub_diag. reflexivity. }
        split.
        { intros j y Hj Hy. rewrite lookup_app_l in Hy by lia.
          apply Hle in Hy. apply f32_le_notnan in Hy. tauto. }
        intros Hc. rewrite Hnan in Hc. discriminate.
      * (* a new strict maximum *)
        pose proof (f32_le_false _ _ Hnan Hmp Hx) as Hgt.
        rewrite Hassoc, <- Hlen. apply IH; auto.
        -- rewrite lookup_app_r by lia. rewrite Nat.sub_diag. reflexivity.
        -- intros j y Hj. apply lookup_app_Some in Hj as [Hj|[_ Hj]].
           ++ apply f32_lt_le. eapply f32_le_lt_trans; eauto.
           ++ apply list_lookup_singleton_Some in Hj as [_ <-].
              apply f32_le_refl; auto.
        -- intros j y Hj Hy. rewrite lookup_app_l in Hy by lia.
           eapply f32_le_lt_trans; eauto.
Qed.

Lemma argmax_row_first_max (row : list f32) (r : nat) :
  argmax_row row = Ok r -> first_max row r.
Proof.
  destruct row as [|x ip]; simpl; [discriminate|].
  intros [= <-]. destruct (isnan x) eqn:Hnan.
  - exists x. split; [reflexivity|]. split; [intros; lia|].
    intros Hc. rewrite Hnan in Hc. discriminate.
  - apply (argmax_loop_first_max ip [x] x 0%nat); auto.
    + intros j y Hj. apply list_lookup_singleton_Some in Hj as [_ <-].
      apply f32_le_refl; auto.
    + intros; lia.
Qed.

Lemma argmax_row_nonempty (row : list f32) :
  row <> [] -> exists r, argmax_row row = Ok r.
Proof. destruct row; [congruence|]. simpl. eauto. Qed.

Lemma first_max_lt_length (row : list f32) (r : nat) :
  first_max row r -> (r < length row)%nat.
Proof. intros (v & Hv & _). eapply lookup_lt_Some; eauto. Qed.

(** A strict maximum is where the scan stops. *)
Lemma first_max_strict (row : list f32) (r i : nat) (v : f32) :
  first_max row r ->
  row !! i = Some v ->
  isnan v = false ->
  (forall j y, j <> i -> row !! j = Some y -> f32_lt y v = true) ->
  r = i.
Proof.
  intros (w & Hw & Hpre & Hmax) Hv Hnan Hstrict.
  destruct (decide (r = i)) as [|Hne]; [assumption|exfalso].
  pose proof (Hstrict _ _ Hne Hw) as Hlt.
  destruct (f32_lt_notnan _ _ Hlt) as [Hwn _].
  destruct (Hmax Hwn) as [Hall _].
  pose proof (Hall _ _ Hv) as Hle.
  rewrite (f32_lt_not_le _ _ Hlt) in Hle. discriminate.
Qed.


(** [np.amax] on a row without NaN returns one of its scores, and no score
    of the row is above it. *)
Lemma foldl_maximum_spec (ip : list f32) (x : f32) :
  (forall y, y ∈ x :: ip -> isnan y = false) ->
  foldl maximum x ip ∈ x :: ip /\
  forall y, y ∈ x :: ip -> f32_le y (foldl maximum x ip) = true.
Proof.
  revert x. induction ip as [|z ip IH]; intros x Hnan; simpl.
  - split; [apply list_elem_of_singleton; reflexivity|].
    intros y Hy. apply list_elem_of_singleton in Hy as ->.
    apply f32_le_refl, Hnan. apply list_elem_of_singleton; reflexivity.
  - assert (Hx : isnan x = false) by (apply Hnan; constructor).
    assert (Hz : isnan z = false) by (apply Hnan; do 2 constructor).
    assert (Hm : isnan (maximum x z) = false)
      by (unfold maximum; destruct (f32_ge x z || isnan x); assumption).
    destruct (IH (maximum x z)) as [Hin Hle].
    { intros y Hy. apply elem_of_cons in Hy as [->|Hy]; [assumption|].
      apply Hnan. do 2 constructor. assumption. }
    assert (Hxz : f32_le x (maximum x z) = true /\ f32_le z (maximum x z) = true).
    { unfold maximum, f32_ge. rewrite Hx, orb_false_r.
      destruct (f32_le z x) eqn:E.
      - split; [apply f32_le_refl|]; assumption.
      - split; [|apply f32_le_refl; assumption].
        apply f32_lt_le, f32_le_false; assumption. }
    split.
    + apply elem_of_cons in Hin as [Heq|Hin].
      * rewrite Heq. unfold maximum.
        destruct (f32_ge x z || isnan x); [constructor|do 2 constructor].
      * do 2 constructor. assumption.
    + intros y Hy. apply elem_of_cons in Hy as [->|Hy].
      * eapply f32_le_trans; [apply Hxz|]. apply Hle. constructor.
      * apply elem_of_cons in Hy as [->|Hy].
        -- eapply f32_le_trans; [apply Hxz|]. apply Hle. constructor.
        -- apply Hle. constructor. assumption.
Qed.

Lemma amax_row_spec (row : list f32) :
  row <> [] ->
  (forall y, y ∈ row -> isnan y = false) ->
  exists m, amax_row row = Ok m /\ m ∈ row /\
    forall y, y ∈ row -> f32_le y m = true.
Proof.
  destruct row as [|x ip]; [congruence|]. intros _ Hnan.
  exists (foldl maximum x ip). split; [reflexivity|].
  apply foldl_maximum_spec. assumption.
Qed.

Lemma amax_row_nonempty (row : list f32) :
  row <> [] -> exists m, amax_row row = Ok m.
Proof. destruct row; [congruence|]. simpl. eauto. Qed.

(** With a strict maximum, [np.amax] returns that very score. *)
Lemma amax_row_strict (row : list f32) (i : nat) (v : f32) :
  row !! i = Some v ->
  isnan v = false ->
  (forall j y, j <> i -> row !! j = Some y -> f32_lt y v = true) ->
  amax_row row = Ok v.
Proof.
  intros Hv Hnan Hstrict.
  assert (Hne : row <> []) by (intros ->; discriminate).
  destruct (amax_row_spec row Hne) as (m & Hm & Hin & Hle).
  { intros y Hy. apply list_elem_of_lookup in Hy as [j Hj].
    destruct (decide (j = i)) as [->|Hji].
    - rewrite Hv in Hj. injection Hj as <-. assumption.
    - apply Hstrict in Hj; auto. apply f32_lt_notnan in Hj. tauto. }
  rewrite Hm. f_equal.
  apply list_elem_of_lookup in Hin as [j Hj].
  destruct (decide (j = i)) as [->|Hji].
  - rewrite Hv in Hj. injection Hj as <-. reflexivity.
  - exfalso. pose proof (Hstrict _ _ Hji Hj) as Hlt.
    assert (Hvm : f32_le v m = true).
    { apply Hle. apply list_elem_of_lookup. eauto. }
    rewrite (f32_lt_not_le _ _ Hlt) in Hvm. discriminate.
Qed.

(** ** Rounding *)

Lemma ilog2_spec (n d : Z) :
  0 < n -> 0 < d ->
  (0 <= ilog2 n d -> d * 2 ^ ilog2 n d <= n < d * 2 ^ (ilog2 n d + 1)) /\
  (ilog2 n d < 0 -> d <= n * 2 ^ (- ilog2 n d) < 2 * d).
Proof.
  intros Hn Hd. unfold ilog2.
  pose proof (Z.log2_spec n Hn) as [Hn1 Hn2].
  pose proof (Z.log2_spec d Hd) as [Hd1 Hd2].
  pose proof (Z.log2_nonneg n) as Ha. pose proof (Z.log2_nonneg d) as Hb.
  set (a := Z.log2 n) in *. set (b := Z.log2 d) in *.
  rewrite <- Z.add_1_r in Hn2, Hd2.
  assert (Hd2' : d < 2 * 2 ^ b) by (rewrite Z.pow_add_r in Hd2 by lia; lia).
  assert (Hn2' : n < 2 * 2 ^ a) by (rewrite Z.pow_add_r in Hn2 by lia; lia).
  destruct (0 <=? a - b) eqn:He0.
  - apply Z.leb_le in He0.
    assert (Ea : a = b + (a - b)) by lia.
    assert (Hab : 2 ^ a = 2 ^ b * 2 ^ (a - b)) by (rewrite <- Z.pow_add_r by lia; f_equal; lia).
    assert (Hab1 : 2 ^ (a + 1) = 2 ^ b * 2 ^ (a - b + 1)) by (rewrite <- Z.pow_add_r by lia; f_equal; lia).
    assert (Hp : 0 < 2 ^ (a - b)) by (apply Z.pow_pos_nonneg; lia).
    assert (Hp1 : 2 ^ (a - b + 1) = 2 * 2 ^ (a - b)) by (rewrite Z.pow_add_r by lia; lia).
    assert (Hpb : 0 < 2 ^ b) by (apply Z.pow_pos_nonneg; lia).
    destruct (n <? d * 2 ^ (a - b)) eqn:Hlt.
    + apply Z.ltb_lt in Hlt. split.
      * intros Hge. replace (a - b - 1 + 1) with (a - b) by lia.
        split; [|assumption].
        assert (Hp2 : 2 ^ (a - b) = 2 * 2 ^ (a - b - 1))
          by (rewrite <- Z.pow_succ_r by lia; f_equal; lia).
        assert (Hq : 0 < 2 ^ (a - b - 1)) by (apply Z.pow_pos_nonneg; lia).
        nia.
      * intros Hneg. assert (a - b = 0) as E0 by lia.
        rewrite E0 in *. replace (- (0 - 1)) with 1 by lia.
        change (2 ^ 1) with 2. change (2 ^ 0) with 1 in *. lia.
    + apply Z.ltb_ge in Hlt. split; [|lia].
      intros _. split; [assumption|]. nia.
  - apply Z.leb_gt in He0.
    assert (Hba : 2 ^ b = 2 ^ a * 2 ^ (- (a - b))) by (rewrite <- Z.pow_add_r by lia; f_equal; lia).
    assert (Hp : 0 < 2 ^ (- (a - b))) by (apply Z.pow_pos_nonneg; lia).
    assert (Hpa : 0 < 2 ^ a) by (apply Z.pow_pos_nonneg; lia).
    assert (Hp1 : 2 ^ (- (a - b - 1)) = 2 * 2 ^ (- (a - b)))
      by (rewrite <- Z.pow_succ_r by lia; f_equal; lia).
    destruct (n * 2 ^ (- (a - b)) <? d) eqn:Hlt.
    + apply Z.ltb_lt in Hlt. split; [lia|].
      intros _. rewrite Hp1. nia.
    + apply Z.ltb_ge in Hlt. split; [lia|].
      intros _. split; [assumption|]. nia.
Qed.

Lemma rne_exact (k d : Z) : 0 < d -> rne (k * d) d = k.
Proof.
  intros Hd. unfold rne. rewrite Z.mod_mul by lia. rewrite Z.div_mul by lia.
  destruct (Z.compare_spec (2 * 0) d); lia || reflexivity.
Qed.

Lemma rne_bounds (n d : Z) :
  0 < d ->
  n / d <= rne n d <= n / d + 1 /\ (2 * (n mod d) < d -> rne n d = n / d).
Proof.
  intros Hd. unfold rne.
  destruct (Z.compare_spec (2 * (n mod d)) d) as [E|E|E].
  - destruct (Z.even (n / d)); split; lia.
  - split; [lia|reflexivity].
  - split; lia.
Qed.

Lemma Qeq_int_cross (q : Q) (a b : Z) :
  0 < b -> q == inject_Z a / inject_Z b -> Qnum q * b = a * Zpos (Qden q).
Proof.
  intros Hb Hq.
  assert (E : inject_Z a / inject_Z b == a # Z.to_pos b).
  { rewrite Qmake_Qdiv. rewrite Z2Pos.id by lia. reflexivity. }
  rewrite E in Hq. unfold Qeq in Hq. simpl in Hq.
  rewrite Z2Pos.id in Hq by lia. exact Hq.
Qed.

Lemma pow2_pos (k : Z) : 0 <= k -> 0 < 2 ^ k.
Proof. intros. apply Z.pow_pos_nonneg; lia. Qed.

(** An integer up to [2^p] is a float of precision [p]. *)
Lemma round_float_int (p emin : Z) (q : Q) (z : Z) :
  1 <= p -> emin <= 0 ->
  q == inject_Z z -> 0 <= z <= 2 ^ p -> round_float p emin q == inject_Z z.
Proof.
  intros Hp Hemin Hq Hz. unfold Qeq in Hq. simpl in Hq. rewrite Z.mul_1_r in Hq.
  unfold round_float. destruct (Qnum q) as [|n|n] eqn:En.
  - assert (z = 0) by (clear - Hq; nia). subst z. reflexivity.
  - set (d := Zpos (Qden q)) in *. assert (Hd : 0 < d) by (unfold d; lia).
    assert (Hn : 0 < Zpos n) by lia.
    set (N := Zpos n) in *. clearbody N d. clear En.
    assert (Hz0 : 0 < z) by (clear - Hq Hn Hd; nia).
    destruct (ilog2_spec N d Hn Hd) as [Hpos Hneg].
    unfold round_pos. set (e := ilog2 N d) in *. clearbody e.
    assert (He0 : 0 <= e).
    { destruct (Z.le_gt_cases 0 e) as [|Hlt]; [assumption|exfalso].
      specialize (Hneg Hlt). destruct Hneg as [_ Hneg].
      assert (H2 : 2 <= 2 ^ (- e)).
      { change 2 with (2 ^ 1) at 1. apply Z.pow_le_mono_r; lia. }
      assert (H3 : N * 2 <= N * 2 ^ (- e)) by (apply Z.mul_le_mono_nonneg_l; lia).
      assert (H4 : d * 1 <= d * z) by (apply Z.mul_le_mono_nonneg_l; lia).
      lia. }
    specialize (Hpos He0). destruct Hpos as [Hpos _].
    assert (Hze : 2 ^ e <= z).
    { apply (Z.mul_le_mono_pos_l _ _ d); [lia|]. rewrite (Z.mul_comm d z). lia. }
    assert (He : e <= p).
    { apply (Z.pow_le_mono_r_iff 2); lia. }
    rewrite Z.max_l by lia.
    destruct (0 <=? e - (p - 1)) eqn:Hs.
    + apply Z.leb_le in Hs.
      destruct (Z.eq_dec e (p - 1)) as [->|Hne].
      * replace (p - 1 - (p - 1)) with 0 by lia. change (2 ^ 0) with 1.
        rewrite !Z.mul_1_r. rewrite Hq, rne_exact by lia. reflexivity.
      * assert (e = p) as -> by lia. replace (p - (p - 1)) with 1 by lia.
        change (2 ^ 1) with 2.
        assert (z = 2 ^ p) as -> by lia.
        assert (E2 : 2 ^ p = 2 ^ (p - 1) * 2).
        { replace p with (Z.succ (p - 1)) at 1 by lia.
          rewrite Z.pow_succ_r by lia. ring. }
        replace N with (2 ^ (p - 1) * (d * 2)) by (rewrite Hq, E2; ring).
        rewrite rne_exact by lia. rewrite <- E2. reflexivity.
    + apply Z.leb_gt in Hs.
      pose proof (pow2_pos (- (e - (p - 1))) ltac:(lia)) as HP.
      set (P := 2 ^ (- (e - (p - 1)))) in *.
      replace (N * P) with (z * P * d) by (rewrite Hq; ring).
      rewrite rne_exact by lia.
      unfold Qeq. simpl. rewrite Z2Pos.id by lia. ring.
  - exfalso. clear - Hq Hz. nia.
Qed.

Lemma div_between (m P k : Z) : 0 < P -> k * P <= m < (k + 1) * P -> m / P = k.
Proof.
  intros HP [H1 H2]. apply Z.le_antisymm.
  - apply Z.lt_succ_r. apply Z.div_lt_upper_bound; lia.
  - apply Z.div_le_lower_bound; lia.
Qed.

(** The scaled quotient [N * P / d] stays within the integer quotient's
    window. *)
Lemma scaled_quotient_window (N d k P t r : Z) :
  0 < d -> 0 < P ->
  d * k <= N < d * (k + 1) ->
  N * P = d * t + r -> 0 <= r < d ->
  k * P <= t < (k + 1) * P.
Proof.
  intros Hd HP [Hk1 Hk2] Hdm Hr.
  assert (H1 : d * (k * P) <= N * P)
    by (rewrite Z.mul_assoc; apply Z.mul_le_mono_nonneg_r; lia).
  assert (H2 : N * P < d * ((k + 1) * P))
    by (rewrite Z.mul_assoc; apply Z.mul_lt_mono_pos_r; lia).
  split.
  - apply Z.lt_succ_r. apply (Z.mul_lt_mono_pos_l d); lia.
  - apply (Z.mul_lt_mono_pos_l d); lia.
Qed.

(** Rounding the scaled quotient to the nearest integer cannot reach the
    next multiple of [P] when the divisor [b] is below [2 * P]. *)
Lemma rne_scaled_window (N d a b k P : Z) :
  0 < d -> 0 < b -> 0 < P ->
  N * b = a * d ->
  b * k <= a < b * (k + 1) ->
  b < 2 * P ->
  k * P <= rne (N * P) d < (k + 1) * P.
Proof.
  intros Hd Hb HP Hq [Hk1 Hk2] HbP.
  assert (HkN : d * k <= N < d * (k + 1)).
  { split.
    - apply (Z.mul_le_mono_pos_r _ _ b); [lia|].
      replace (d * k * b) with (b * k * d) by ring. rewrite Hq.
      apply Z.mul_le_mono_nonneg_r; lia.
    - apply (Z.mul_lt_mono_pos_r b); [lia|].
      replace (d * (k + 1) * b) with (b * (k + 1) * d) by ring. rewrite Hq.
      apply Z.mul_lt_mono_pos_r; lia. }
  set (g := d * (k + 1) - N).
  assert (Hg : 0 < g) by (unfold g; lia).
  assert (Hgap : d <= b * g).
  { unfold g. replace (b * (d * (k + 1) - N)) with ((b * (k + 1) - a) * d)
      by (rewrite Z.mul_sub_distr_l, Z.mul_sub_distr_r, <- Hq; ring).
    rewrite <- (Z.mul_1_l d) at 1. apply Z.mul_le_mono_nonneg_r; lia. }
  destruct (rne_bounds (N * P) d Hd) as [[Hlo Hhi] Hdown].
  pose proof (Z.div_mod (N * P) d ltac:(lia)) as Hdm.
  pose proof (Z.mod_pos_bound (N * P) d Hd) as Hr.
  destruct (scaled_quotient_window N d k P _ _ Hd HP HkN Hdm Hr) as [Ht1 Ht2].
  set (t := N * P / d) in *. set (r := (N * P) mod d) in *.
  split; [lia|].
  destruct (Z.eq_dec (t + 1) ((k + 1) * P)) as [Et|]; [|lia].
  rewrite Hdown; [lia|].
  assert (Er : r = d - P * g).
  { unfold g. assert (t = (k + 1) * P - 1) as Et' by lia.
    rewrite Et' in Hdm. clear - Hdm.
    replace (P * (d * (k + 1) - N)) with (d * ((k + 1) * P) - N * P) by ring.
    rewrite Hdm. ring. }
  assert (b * g < 2 * P * g) by (apply Z.mul_lt_mono_pos_r; lia).
  lia.
Qed.

(** The unit in the last place of [N / d]: scaling by [2 ^ (k - e)] brings
    the quotient up to [2 ^ k] at least. *)
Lemma ilog2_normalises (N d k : Z) :
  0 < N -> 0 < d -> 0 <= k -> ilog2 N d <= k ->
  d * 2 ^ k <= N * 2 ^ (k - ilog2 N d).
Proof.
  intros HN Hd Hk He.
  destruct (ilog2_spec N d HN Hd) as [Hpos Hneg].
  set (e := ilog2 N d) in *.
  destruct (Z.le_gt_cases 0 e) as [He0|He0].
  - specialize (Hpos He0). destruct Hpos as [Hpos _].
    pose proof (pow2_pos (k - e) ltac:(lia)) as HP.
    assert (E : 2 ^ k = 2 ^ e * 2 ^ (k - e)).
    { rewrite <- Z.pow_add_r by lia. f_equal. lia. }
    rewrite E, Z.mul_assoc. apply Z.mul_le_mono_nonneg_r; lia.
  - specialize (Hneg He0). destruct Hneg as [Hneg _].
    pose proof (pow2_pos k Hk) as HP.
    assert (E : 2 ^ (k - e) = 2 ^ (- e) * 2 ^ k).
    { rewrite <- Z.pow_add_r by lia. f_equal. lia. }
    rewrite E, Z.mul_assoc. apply Z.mul_le_mono_nonneg_r; lia.
Qed.

(** Below [2^p] the rounded quotient of two integers stays on the same
    side of every integer: its floor is the integer quotient. *)
Lemma floor_round_float_div (p emin : Z) (q : Q) (a b : Z) :
  1 <= p -> emin <= - p ->
  q == inject_Z a / inject_Z b ->
  0 <= a < 2 ^ p -> 0 < b <= 2 ^ p ->
  Qfloor (round_float p emin q) = a / b.
Proof.
  intros Hp Hemin Hq Ha Hb. apply Qeq_int_cross in Hq; [|lia].
  pose proof (pow2_pos (p - 1) ltac:(lia)) as HK.
  assert (E2 : 2 ^ p = 2 * 2 ^ (p - 1)).
  { replace p with (Z.succ (p - 1)) at 1 by lia. apply Z.pow_succ_r. lia. }
  unfold round_float. destruct (Qnum q) as [|n|n] eqn:En.
  - assert (a = 0) by (clear - Hq; nia). subst a.
    rewrite Z.div_0_l by lia. reflexivity.
  - set (d := Zpos (Qden q)) in *. assert (Hd : 0 < d) by (unfold d; lia).
    assert (Hn : 0 < Zpos n) by lia.
    set (N := Zpos n) in *. clearbody N d. clear En.
    assert (Ha1 : 0 < a) by (clear - Hq Hn Hd Hb; nia).
    set (k := a / b).
    assert (Hk : b * k <= a < b * (k + 1)).
    { unfold k. split; [apply Z.mul_div_le; lia|].
      rewrite Z.mul_add_distr_l, Z.mul_1_r.
      pose proof (Z.mul_succ_div_gt a b ltac:(lia)). lia. }
    clearbody k.
    assert (HN24 : N < 2 ^ p * d).
    { apply (Z.le_lt_trans _ (N * b)).
      - rewrite <- (Z.mul_1_r N) at 1. apply Z.mul_le_mono_nonneg_l; lia.
      - rewrite Hq. apply Z.mul_lt_mono_pos_r; lia. }
    assert (HNd : d <= N * 2 ^ p).
    { apply (Z.le_trans _ (N * b)).
      - rewrite Hq. rewrite <- (Z.mul_1_l d) at 1.
        apply Z.mul_le_mono_nonneg_r; lia.
      - apply Z.mul_le_mono_nonneg_l; lia. }
    destruct (ilog2_spec N d Hn Hd) as [Hpos Hneg].
    pose proof (ilog2_normalises N d (p - 1) Hn Hd ltac:(lia)) as Hnorm.
    unfold round_pos. set (e := ilog2 N d) in *. clearbody e.
    assert (He : e < p).
    { destruct (Z.le_gt_cases 0 e) as [He0|]; [|lia].
      specialize (Hpos He0). destruct Hpos as [Hpos _].
      apply (Z.pow_lt_mono_r_iff 2); try lia.
      apply (Z.mul_lt_mono_pos_l d); lia. }
    assert (He' : - (p + 1) < e).
    { destruct (Z.le_gt_cases 0 e) as [|He0]; [lia|].
      specialize (Hneg He0). destruct Hneg as [_ Hneg].
      assert (H25 : 2 ^ (- e) < 2 ^ (p + 1));
        [|apply (Z.pow_lt_mono_r_iff 2) in H25; lia].
      apply (Z.mul_lt_mono_pos_l N); [lia|].
      rewrite Z.pow_add_r by lia. change (2 ^ 1) with 2. lia. }
    rewrite Z.max_l by lia.
    destruct (0 <=? e - (p - 1)) eqn:Hs.
    + apply Z.leb_le in Hs. assert (e = p - 1) as E23 by lia.
      rewrite E23 in *. specialize (Hpos ltac:(lia)). destruct Hpos as [Hpos _].
      replace (p - 1 - (p - 1)) with 0 by lia. change (2 ^ 0) with 1.
      rewrite !Z.mul_1_r. rewrite Qfloor_Z.
      assert (b = 1).
      { assert (H2 : N * b < N * 2); [|apply Z.mul_lt_mono_pos_l in H2; lia].
        rewrite Hq.
        apply (Z.lt_le_trans _ (2 ^ p * d)); [|lia].
        apply Z.mul_lt_mono_pos_r; lia. }
      subst b. replace N with (a * d) by lia. rewrite rne_exact by lia.
      lia.
    + apply Z.leb_gt in Hs.
      replace (- (e - (p - 1))) with (p - 1 - e) by lia.
      specialize (Hnorm ltac:(lia)).
      pose proof (pow2_pos (p - 1 - e) ltac:(lia)) as HP.
      set (P := 2 ^ (p - 1 - e)) in *. clearbody P.
      set (K := 2 ^ (p - 1)) in *. clearbody K.
      assert (HbP : b < 2 * P).
      { assert (H1 : K * b * d <= a * d * P).
        { replace (K * b * d) with (d * K * b) by ring.
          replace (a * d * P) with (N * P * b) by (rewrite <- Hq; ring).
          apply Z.mul_le_mono_nonneg_r; lia. }
        assert (H2 : a * d * P < 2 * K * d * P).
        { rewrite <- !Z.mul_assoc. rewrite (Z.mul_assoc 2 K).
          apply Z.mul_lt_mono_pos_r; [|lia].
          apply Z.mul_pos_pos; lia. }
        apply (Z.mul_lt_mono_pos_r (K * d)); [apply Z.mul_pos_pos; lia|].
        replace (b * (K * d)) with (K * b * d) by ring.
        replace (2 * P * (K * d)) with (2 * K * d * P) by ring.
        lia. }
      simpl Qfloor. rewrite Z2Pos.id by lia.
      apply div_between; [lia|].
      apply (rne_scaled_window N d a b k P); assumption || lia.
  - exfalso. clear - Hq Ha Hb. nia.
Qed.

Lemma Qfloor_div_int (a b : Z) : 0 < b -> Qfloor (inject_Z a / inject_Z b) = a / b.
Proof.
  intros Hb.
  assert (E : inject_Z a / inject_Z b == a # Z.to_pos b).
  { rewrite Qmake_Qdiv. rewrite Z2Pos.id by lia. reflexivity. }
  rewrite E. simpl. rewrite Z2Pos.id by lia. reflexivity.
Qed.

(** [np.remainder] of two integers held as floats is their integer
    remainder. *)
Lemma np_remainder_int (x w : Q) (a b : Z) :
  x == inject_Z a -> w == inject_Z b -> 0 < b ->
  np_remainder x w == inject_Z (a mod b).
Proof.
  intros Hx Hw Hb. unfold np_remainder.
  assert (E : Qfloor (x / w) = a / b).
  { rewrite <- Qfloor_div_int by assumption. apply Qfloor_comp.
    apply Qdiv_comp; assumption. }
  rewrite E, Z.mod_eq by lia.
  unfold Z.sub. rewrite inject_Z_plus, inject_Z_opp, inject_Z_mult.
  unfold Qminus. apply Qplus_comp; [assumption|].
  apply Qopp_comp. apply Qmult_comp; [assumption|reflexivity].
Qed.

Lemma pow2_24_le_53 : 2 ^ 24 <= 2 ^ 53.
Proof. apply Z.pow_le_mono_r; lia. Qed.

(** With an index and a width that fit a float32, [% width] is the integer
    remainder, in float32 and in float64 alike. *)
Lemma f32_mod_int_exact (n : Z) (v : Q) (a : Z) :
  v == inject_Z a -> 0 <= a < 2 ^ 24 -> 0 < n <= 2 ^ 24 ->
  f32_mod_int n v == inject_Z (a mod n).
Proof.
  intros Hv Ha Hn. pose proof pow2_24_le_53 as H53.
  pose proof (Z.mod_pos_bound a n ltac:(lia)) as Hmod.
  unfold f32_mod_int. destruct (n <? 65536).
  - apply np_remainder_int; [assumption| |lia].
    apply round_float_int; [lia|lia|reflexivity|lia].
  - apply round_float_int; [lia|lia| |lia].
    apply np_remainder_int; [assumption| |lia].
    apply round_float_int; [lia|lia|reflexivity|lia].
Qed.

(** And [np.floor(/ width)] is the integer quotient. *)
Lemma f32_floordiv_int_exact (n : Z) (v : Q) (a : Z) :
  v == inject_Z a -> 0 <= a < 2 ^ 24 -> 0 < n <= 2 ^ 24 ->
  f32_floordiv_int n v == inject_Z (a / n).
Proof.
  intros Hv Ha Hn. pose proof pow2_24_le_53 as H53.
  assert (Hdiv : 0 <= a / n <= a).
  { split; [apply Z.div_pos; lia|].
    apply Z.div_le_upper_bound; [lia|].
    rewrite <- (Z.mul_1_l a) at 1. apply Z.mul_le_mono_nonneg_r; lia. }
  unfold f32_floordiv_int, np_floor. destruct (n <? 65536).
  - rewrite (floor_round_float_div 24 (-126) _ a n); [reflexivity|lia|lia| |lia|lia].
    apply Qdiv_comp; [assumption|].
    apply round_float_int; [lia|lia|reflexivity|lia].
  - rewrite (floor_round_float_div 53 (-1022) _ a n); [|lia|lia| |lia|lia].
    + apply round_float_int; [lia|lia|reflexivity|lia].
    + apply Qdiv_comp; [assumption|].
      apply round_float_int; [lia|lia|reflexivity|lia].
Qed.

Lemma f32_mul_one (x : Q) (z : Z) :
  x == inject_Z z -> 0 <= z <= 2 ^ 24 -> f32_mul x 1 == inject_Z z.
Proof.
  intros Hx Hz. unfold f32_mul. apply round_float_int; [lia|lia| |assumption].
  rewrite Qmult_1_r. assumption.
Qed.

Lemma f32_mul_zero (x : Q) : f32_mul x 0 = 0%Q.
Proof.
  unfold f32_mul, round_f32, round_float. simpl. rewrite Z.mul_0_r. reflexivity.
Qed.

Lemma rne_le_int (n d m : Z) : 0 < d -> n <= m * d -> rne n d <= m.
Proof.
  intros Hd H. destruct (rne_bounds n d Hd) as [[Hlo Hhi] Hdown].
  assert (Hq : n / d <= m) by (apply Z.div_le_upper_bound; lia).
  destruct (Z.eq_dec (n / d) m) as [E|E]; [|lia].
  rewrite Hdown; [lia|].
  pose proof (Z.div_mod n d ltac:(lia)) as Hdm.
  pose proof (Z.mod_pos_bound n d Hd) as Hr.
  rewrite E in Hdm. lia.
Qed.

Lemma rne_ge_int (n d m : Z) : 0 < d -> m * d <= n -> m <= rne n d.
Proof.
  intros Hd H. destruct (rne_bounds n d Hd) as [[Hlo Hhi] Hdown].
  assert (Hq : m <= n / d) by (apply Z.div_le_lower_bound; lia).
  lia.
Qed.

(** The unit in the last place of a number below [2 ^ (p - j)] divides
    [2 ^ (- j)]. *)
Lemma ulp_below (p emin j N d : Z) :
  1 <= p -> emin <= 0 -> 0 <= j <= p - 1 ->
  0 < N -> 0 < d -> N * 2 ^ j < 2 ^ p * d ->
  Z.max (ilog2 N d) emin - (p - 1) <= - j.
Proof.
  intros Hp Hemin Hj HN Hd Hlt.
  destruct (ilog2_spec N d HN Hd) as [Hpos _].
  set (e := ilog2 N d) in *. clearbody e.
  destruct (Z.le_gt_cases 0 e) as [He0|He0]; [|lia].
  specialize (Hpos He0). destruct Hpos as [Hpos _].
  pose proof (pow2_pos j ltac:(lia)) as HJ.
  assert (H1 : d * 2 ^ e * 2 ^ j <= N * 2 ^ j)
    by (apply Z.mul_le_mono_nonneg_r; lia).
  assert (H2 : 2 ^ (e + j) < 2 ^ p).
  { rewrite Z.pow_add_r by lia.
    apply (Z.mul_lt_mono_pos_l d); [lia|]. lia. }
  apply (Z.pow_lt_mono_r_iff 2) in H2; lia.
Qed.

(** Rounding does not cross a number that has a place in the format:
    [m / 2 ^ j] with [j < p]. *)
Lemma round_pos_dyadic (p emin j N d : Z) :
  1 <= p -> emin <= 0 -> 0 <= j <= p - 1 ->
  0 < N -> 0 < d -> N * 2 ^ j < 2 ^ p * d ->
  forall m,
    (N * 2 ^ j <= m * d -> (round_pos p emin N d <= m # Z.to_pos (2 ^ j))%Q) /\
    (m * d <= N * 2 ^ j -> (m # Z.to_pos (2 ^ j) <= round_pos p emin N d)%Q).
Proof.
  intros Hp Hemin Hj HN Hd Hlt m.
  pose proof (ulp_below p emin j N d Hp Hemin Hj HN Hd Hlt) as Hs.
  pose proof (pow2_pos j ltac:(lia)) as HJ.
  unfold round_pos. set (s := Z.max (ilog2 N d) emin - (p - 1)) in *. clearbody s.
  destruct (0 <=? s) eqn:E.
  - apply Z.leb_le in E. assert (s = 0) as -> by lia. assert (j = 0) as -> by lia.
    change (2 ^ 0) with 1 in *. rewrite !Z.mul_1_r in *.
    unfold Qle. simpl. rewrite !Z.mul_1_r. split; intros H.
    + apply rne_le_int; assumption.
    + apply rne_ge_int; assumption.
  - apply Z.leb_gt in E.
    pose proof (pow2_pos (- s - j) ltac:(lia)) as HT.
    assert (EP : 2 ^ (- s) = 2 ^ j * 2 ^ (- s - j))
      by (rewrite <- Z.pow_add_r by lia; f_equal; lia).
    set (J := 2 ^ j) in *. set (T := 2 ^ (- s - j)) in *. clearbody J T.
    unfold Qle. simpl. rewrite !Z2Pos.id by lia. rewrite EP. clear EP.
    split; intros H.
    + assert (Hr : rne (N * (J * T)) d <= m * T).
      { apply rne_le_int; [assumption|].
        replace (N * (J * T)) with (N * J * T) by ring.
        replace (m * T * d) with (m * d * T) by ring.
        apply Z.mul_le_mono_nonneg_r; lia. }
      replace (m * (J * T)) with (m * T * J) by ring.
      apply Z.mul_le_mono_nonneg_r; lia.
    + assert (Hr : m * T <= rne (N * (J * T)) d).
      { apply rne_ge_int; [assumption|].
        replace (N * (J * T)) with (N * J * T) by ring.
        replace (m * T * d) with (m * d * T) by ring.
        apply Z.mul_le_mono_nonneg_r; lia. }
      replace (m * (J * T)) with (m * T * J) by ring.
      apply Z.mul_le_mono_nonneg_r; lia.
Qed.

Lemma round_float_dyadic (p emin j m M : Z) (q : Q) :
  1 <= p -> emin <= 0 -> 0 <= j <= p - 1 ->
  0 <= m -> M < 2 ^ p ->
  (m # Z.to_pos (2 ^ j) <= q)%Q -> (q <= M # Z.to_pos (2 ^ j))%Q ->
  (m # Z.to_pos (2 ^ j) <= round_float p emin q)%Q /\
  (round_float p emin q <= M # Z.to_pos (2 ^ j))%Q.
Proof.
  intros Hp Hemin Hj Hm HM Hlo Hhi.
  pose proof (pow2_pos j ltac:(lia)) as HJ.
  unfold Qle in Hlo, Hhi. simpl in Hlo, Hhi. rewrite Z2Pos.id in Hlo, Hhi by lia.
  unfold round_float. destruct (Qnum q) as [|n|n] eqn:En.
  - unfold Qle. simpl. split; [|]; nia.
  - set (d := Zpos (Qden q)) in *. assert (Hd : 0 < d) by (unfold d; lia).
    set (N := Zpos n) in *. assert (HN : 0 < N) by (unfold N; lia).
    clearbody N d.
    assert (Hlt : N * 2 ^ j < 2 ^ p * d).
    { apply (Z.le_lt_trans _ (M * d)); [assumption|].
      apply Z.mul_lt_mono_pos_r; assumption. }
    split.
    + apply (round_pos_dyadic p emin j N d Hp Hemin Hj HN Hd Hlt m). assumption.
    + apply (round_pos_dyadic p emin j N d Hp Hemin Hj HN Hd Hlt M). assumption.
  - exfalso. assert (0 <= m * Zpos (Qden q)) by (apply Z.mul_nonneg_nonneg; lia).
    assert (Zneg n * 2 ^ j < 0) by (apply Z.mul_neg_pos; lia). lia.
Qed.

(** ** Rows of a buffer *)

Lemma length_rows {A} (n len : nat) (l : list A) : length (rows n len l) = n.
Proof. revert l. induction n; intros; simpl; auto. Qed.

Lemma rows_lookup {A} (n len p : nat) (l : list A) :
  (p < n)%nat -> rows n len l !! p = Some (take len (drop (p * len) l)).
Proof.
  revert p l. induction n as [|n IH]; intros p l Hp; [lia|].
  destruct p as [|p]; simpl.
  - reflexivity.
  - rewrite IH by lia. rewrite drop_drop. reflexivity.
Qed.

Lemma rows_length_each {A} (n len p : nat) (l : list A) (row : list A) :
  length l = (n * len)%nat -> rows n len l !! p = Some row -> length row = len.
Proof.
  intros Hl Hrow.
  assert (Hp : (p < n)%nat).
  { apply lookup_lt_Some in Hrow. rewrite length_rows in Hrow. exact Hrow. }
  rewrite rows_lookup in Hrow by assumption. injection Hrow as <-.
  rewrite length_take, length_drop. nia.
Qed.

Lemma mapM_result_Forall2 {A B} (f : A -> result B) (l : list A) :
  (forall x, x ∈ l -> exists y, f x = Ok y) ->
  exists ys, mapM_result f l = Ok ys /\ Forall2 (fun x y => f x = Ok y) l ys.
Proof.
  induction l as [|x l IH]; intros Hok; simpl.
  - exists []. split; [reflexivity|constructor].
  - destruct (Hok x) as [y Hy]; [constructor|].
    destruct IH as (ys & Hys & HF).
    { intros z Hz. apply Hok. constructor. assumption. }
    exists (y :: ys). rewrite Hy, Hys. simpl. split; [reflexivity|].
    constructor; assumption.
Qed.

Lemma lookup_tile {A} (l : list A) (p c : nat) :
  (c < 2)%nat -> flat_map (fun v => [v; v]) l !! (p * 2 + c)%nat = l !! p.
Proof.
  intros Hc. revert p. induction l as [|x l IH]; intros p; simpl.
  - rewrite !lookup_nil. reflexivity.
  - destruct p as [|p].
    + destruct c as [|[|c]]; [reflexivity|reflexivity|lia].
    + replace (S p * 2 + c)%nat with (S (S (p * 2 + c))) by lia. simpl. apply IH.
Qed.

(** ** The decoder, cell by cell *)

Lemma reshape_infer_ok {A} (a : ndarray A) (d0 d1 len : nat) :
  length (buf a) = (d0 * d1 * len)%nat -> (0 < d0 * d1)%nat ->
  reshape_infer a d0 d1 = Ok (NDArray [d0; d1; len] (buf a)).
Proof.
  intros Hl Hpos. unfold reshape_infer. rewrite Hl.
  rewrite (Nat.mul_comm (d0 * d1) len), Nat.Div0.mod_mul, Nat.div_mul by lia.
  destruct (d0 * d1 =? 0)%nat eqn:E; [apply Nat.eqb_eq in E; lia|].
  reflexivity.
Qed.

Lemma index_lt (n k N K : nat) : (n < N)%nat -> (k < K)%nat -> (n * K + k < N * K)%nat.
Proof. intros. nia. Qed.

Lemma get_max_preds_spec (a : ndarray f32) (N K H W : nat) :
  wf a -> shape a = [N; K; H; W] ->
  (0 < N)%nat -> (0 < K)%nat -> (0 < H)%nat -> (0 < W)%nat ->
  exists preds maxvals,
    get_max_preds a = Ok (preds, maxvals) /\
    shape preds = [N; K; 2%nat] /\ shape maxvals = [N; K; 1%nat] /\
    forall n k, (n < N)%nat -> (k < K)%nat ->
      exists i m,
        argmax_row (heatmap_of a n k) = Ok i /\
        amax_row (heatmap_of a n k) = Ok m /\
        item3 maxvals n k 0 = Some m /\
        item3 preds n k 0 = Some (decoded 0 W i m) /\
        item3 preds n k 1 = Some (decoded 1 W i m).
Proof.
  intros Hwf Hsh HN HK HH HW.
  unfold wf in Hwf. rewrite Hsh in Hwf. simpl in Hwf.
  assert (Hlen : length (buf a) = (N * K * (H * W))%nat) by lia.
  assert (HL : (0 < H * W)%nat) by nia.
  assert (HNK : (0 < N * K)%nat) by nia.
  set (L := (H * W)%nat) in *.
  unfold get_max_preds, ndim. rewrite Hsh.
  cbn [length Nat.eqb negb nth].
  rewrite (reshape_infer_ok a N K L Hlen HNK). cbn [bind].
  (* every row is not empty *)
  assert (Hrows : forall row, row ∈ rows (N * K) L (buf a) -> row <> []).
  { intros row Hrow. apply list_elem_of_lookup in Hrow as [p Hp].
    apply (rows_length_each (N * K) L) in Hp; [|assumption].
    intros ->. simpl in Hp. lia. }
  destruct (mapM_result_Forall2 argmax_row (rows (N * K) L (buf a)))
    as (idx & Hidx & Fidx).
  { intros row Hrow. apply argmax_row_nonempty, Hrows, Hrow. }
  destruct (mapM_result_Forall2 amax_row (rows (N * K) L (buf a)))
    as (maxs & Hmaxs & Fmaxs).
  { intros row Hrow. apply amax_row_nonempty, Hrows, Hrow. }
  unfold argmax_axis2, amax_axis2, rows_axis2. cbn [shape buf].
  rewrite Hidx. cbn [bind]. rewrite Hmaxs. cbn [bind].
  assert (Hli : length idx = (N * K)%nat)
    by (rewrite <- (Forall2_length _ _ _ Fidx); apply length_rows).
  assert (Hlm : length maxs = (N * K)%nat)
    by (rewrite <- (Forall2_length _ _ _ Fmaxs); apply length_rows).
  unfold reshape. cbn [shape buf size_of foldr take].
  rewrite Hli, Hlm.
  replace (N * K =? N * (K * (1 * 1)))%nat with true
    by (symmetry; apply Nat.eqb_eq; lia).
  cbn [bind].
  eexists _, _. split; [reflexivity|].
  split; [reflexivity|]. split; [reflexivity|].
  intros n k Hn Hk.
  pose proof (index_lt n k N K Hn Hk) as Hp.
  set (p := (n * K + k)%nat) in *.
  assert (Hrow : rows (N * K) L (buf a) !! p = Some (heatmap_of a n k)).
  { rewrite rows_lookup by assumption. unfold heatmap_of. rewrite Hsh. reflexivity. }
  destruct (Forall2_lookup_l _ _ _ _ _ Fidx Hrow) as (i & Hi & Hargmax).
  destruct (Forall2_lookup_l _ _ _ _ _ Fmaxs Hrow) as (m & Hm & Hamax).
  exists i, m. split; [assumption|]. split; [assumption|].
  assert (Hn' : (n <? N)%nat = true) by (apply Nat.ltb_lt; assumption).
  assert (Hk' : (k <? K)%nat = true) by (apply Nat.ltb_lt; assumption).
  unfold item3, astype, tile2, update_channel. cbn [shape buf take app].
  rewrite Hn', Hk'. cbn [andb Nat.ltb Nat.leb].
  fold p.
  assert (E0 : ((p * 2 + 0) mod 2 = 0)%nat)
    by (rewrite Nat.add_0_r; apply Nat.Div0.mod_mul).
  assert (E1 : ((p * 2 + 1) mod 2 = 1)%nat)
    by (rewrite Nat.add_comm, Nat.Div0.mod_add; reflexivity).
  split; [|split].
  - rewrite Nat.mul_1_r, Nat.add_0_r. assumption.
  - rewrite lookup_zip_with.
    rewrite !list_lookup_imap, !list_lookup_fmap.
    rewrite (lookup_tile _ p 0), (lookup_tile _ p 0) by lia.
    rewrite list_lookup_fmap, Hi, Hm. cbv beta. rewrite E0. reflexivity.
  - rewrite lookup_zip_with.
    rewrite !list_lookup_imap, !list_lookup_fmap.
    rewrite (lookup_tile _ p 1), (lookup_tile _ p 1) by lia.
    rewrite list_lookup_fmap, Hi, Hm. cbv beta. rewrite E1. reflexivity.
Qed.

Lemma heatmap_of_length {A} (a : ndarray A) (N K H W n k : nat) :
  wf a -> shape a = [N; K; H; W] -> (n < N)%nat -> (k < K)%nat ->
  length (heatmap_of a n k) = (H * W)%nat.
Proof.
  intros Hwf Hsh Hn Hk. unfold wf in Hwf. rewrite Hsh in Hwf. simpl in Hwf.
  unfold heatmap_of. rewrite Hsh. rewrite length_take, length_drop.
  pose proof (index_lt n k N K Hn Hk) as Hp.
  replace (N * (K * (H * (W * 1))))%nat with (N * K * (H * W))%nat in Hwf by lia.
  rewrite Hwf.
  assert (((n * K + k + 1) * (H * W) <= N * K * (H * W))%nat)
    by (apply Nat.mul_le_mono_r; lia).
  lia.
Qed.

(** Cell [(y, x)] of a joint's map is entry [y * W + x] of its flattening. *)
Lemma heatmap_of_cell {A} (a : ndarray A) (N K H W n k y x : nat) :
  shape a = [N; K; H; W] -> (y < H)%nat -> (x < W)%nat ->
  heatmap_of a n k !! (y * W + x)%nat =
  buf a !! (((n * K + k) * H + y) * W + x)%nat.
Proof.
  intros Hsh Hy Hx. unfold heatmap_of. rewrite Hsh.
  assert ((y * W + x < H * W)%nat).
  { assert ((y + 1) * W <= H * W)%nat by (apply Nat.mul_le_mono_r; lia). lia. }
  rewrite lookup_take_lt by assumption. rewrite lookup_drop. f_equal. lia.
Qed.

(** While every flat index fits a float32, the unmasked coordinates are the
    remainder and the quotient of the flat index by the width. *)
Lemma decoded_exact (H W i : nat) (m : f32) :
  Z.of_nat (H * W) <= 2 ^ 24 -> (i < H * W)%nat ->
  f32_gt m f32_zero = true ->
  decoded 0 W i m == inject_Z (Z.of_nat (i mod W)) /\
  decoded 1 W i m == inject_Z (Z.of_nat (i / W)).
Proof.
  intros Hbound Hi Hm.
  assert (HW : (0 < W)%nat) by (destruct W; [rewrite Nat.mul_0_r in Hi|]; lia).
  assert (HH : (0 < H)%nat) by (destruct H; [simpl in Hi|]; lia).
  assert (HWle : (1 * W <= H * W)%nat) by (apply Nat.mul_le_mono_r; lia).
  assert (Hv : f32_of_int (Z.of_nat i) == inject_Z (Z.of_nat i))
    by (apply round_float_int; [lia|lia|reflexivity|lia]).
  unfold decoded. rewrite Hm. cbn [Nat.eqb bool_to_f32]. split.
  - apply f32_mul_one.
    + rewrite Nat2Z.inj_mod. apply f32_mod_int_exact; [assumption|lia|lia].
    + pose proof (Nat.mod_upper_bound i W ltac:(lia)). lia.
  - apply f32_mul_one.
    + rewrite Nat2Z.inj_div. apply f32_floordiv_int_exact; [assumption|lia|lia].
    + pose proof (Nat.Div0.div_le_upper_bound i W i) as Hdiv.
      assert (i <= W * i)%nat by (rewrite <- (Nat.mul_1_l i) at 1; apply Nat.mul_le_mono_r; lia).
      specialize (Hdiv ltac:(assumption)). lia.
Qed.

(** A masked coordinate is zero. *)
Lemma decoded_masked (c W i : nat) (m : f32) :
  f32_gt m f32_zero = false -> decoded c W i m = 0%Q.
Proof.
  intros Hm. unfold decoded. rewrite Hm. apply f32_mul_zero.
Qed.

Lemma get_max_preds_Ok_dims (a : ndarray f32) (N K H W : nat) (r : ndarray Q * ndarray f32) :
  shape a = [N; K; H; W] -> get_max_preds a = Ok r -> (0 < N)%nat /\ (0 < K)%nat.
Proof.
  intros Hsh. unfold get_max_preds, ndim. rewrite Hsh.
  cbn [length Nat.eqb negb nth]. unfold reshape_infer.
  destruct (N * K =? 0)%nat eqn:E.
  - cbn [orb bind]. discriminate.
  - intros _. apply Nat.eqb_neq in E. nia.
Qed.

Lemma Qeq_int_bounds (x : Q) (z lo hi : Z) :
  x == inject_Z z -> lo <= z < hi ->
  (inject_Z lo <= x /\ x < inject_Z hi)%Q.
Proof.
  intros E [H1 H2]. split.
  - apply Qle_trans with (inject_Z z).
    + rewrite <- Zle_Qle. assumption.
    + apply Qle_lteq. right. symmetry. assumption.
  - apply Qle_lt_trans with (inject_Z z).
    + apply Qle_lteq. right. assumption.
    + rewrite <- Zlt_Qlt. assumption.
Qed.

(** ** The decoder: what it returns *)

(** C1, amended.  When every flat index of a map fits a float32
    ([H * W <= 2^24]) and joint [k] of sample [n] has a single strict maximum
    [v > 0] at flat index [i], [get_max_preds] returns [v] as the confidence
    of that joint and the coordinates [x = i mod W], [y = i / W]. *)
Theorem get_max_preds_strict_maximum
    (a : ndarray f32) (N K H W n k i : nat) (v : f32) :
  wf a -> shape a = [N; K; H; W] ->
  (n < N)%nat -> (k < K)%nat ->
  Z.of_nat (H * W) <= 2 ^ 24 ->
  heatmap_of a n k !! i = Some v ->
  (forall j y, j <> i -> heatmap_of a n k !! j = Some y -> f32_lt y v = true) ->
  f32_gt v f32_zero = true ->
  exists preds maxvals x y,
    get_max_preds a = Ok (preds, maxvals) /\
    item3 maxvals n k 0 = Some v /\
    item3 preds n k 0 = Some x /\ item3 preds n k 1 = Some y /\
    x == inject_Z (Z.of_nat (i mod W)) /\
    y == inject_Z (Z.of_nat (i / W)).
Proof.
  intros Hwf Hsh Hn Hk Hbound Hv Hstrict Hpos.
  assert (Hi : (i < H * W)%nat).
  { apply lookup_lt_Some in Hv.
    rewrite (heatmap_of_length a N K H W) in Hv; assumption. }
  assert (HW : (0 < W)%nat) by (destruct W; [rewrite Nat.mul_0_r in Hi|]; lia).
  assert (HH : (0 < H)%nat) by (destruct H; [simpl in Hi|]; lia).
  destruct (get_max_preds_spec a N K H W Hwf Hsh) as
    (preds & maxvals & Hrun & _ & _ & Hcell); try lia.
  destruct (Hcell n k Hn Hk) as (i' & m & Hargmax & Hamax & Hm & Hx & Hy).
  assert (Hnan : isnan v = false) by (apply f32_lt_notnan in Hpos; tauto).
  assert (i' = i) as ->.
  { apply argmax_row_first_max in Hargmax.
    eapply first_max_strict; eauto. }
  assert (m = v) as ->.
  { rewrite (amax_row_strict _ i v Hv Hnan Hstrict) in Hamax. congruence. }
  destruct (decoded_exact H W i v Hbound Hi Hpos) as [Ex Ey].
  exists preds, maxvals, (decoded 0 W i v), (decoded 1 W i v). auto 10.
Qed.

(** C4.  A joint whose scores are all [<= 0] gets the coordinates [(0, 0)],
    and its confidence is still the maximum of its map; on a map that is zero
    everywhere the confidence is zero. *)
Theorem get_max_preds_nonpositive_masked
    (a : ndarray f32) (N K H W n k : nat) :
  wf a -> shape a = [N; K; H; W] ->
  (n < N)%nat -> (k < K)%nat -> (0 < H)%nat -> (0 < W)%nat ->
  (forall y, y ∈ heatmap_of a n k -> f32_le y f32_zero = true) ->
  exists preds maxvals m,
    get_max_preds a = Ok (preds, maxvals) /\
    item3 maxvals n k 0 = Some m /\
    m ∈ heatmap_of a n k /\
    (forall y, y ∈ heatmap_of a n k -> f32_le y m = true) /\
    item3 preds n k 0 = Some 0%Q /\ item3 preds n k 1 = Some 0%Q /\
    ((forall y, y ∈ heatmap_of a n k -> y = f32_zero) -> m = f32_zero).
Proof.
  intros Hwf Hsh Hn Hk HH HW Hle.
  destruct (get_max_preds_spec a N K H W Hwf Hsh) as
    (preds & maxvals & Hrun & _ & _ & Hcell); try lia.
  destruct (Hcell n k Hn Hk) as (i & m & Hargmax & Hamax & Hm & Hx & Hy).
  assert (Hne : heatmap_of a n k <> []).
  { intros E. rewrite E in Hamax. discriminate. }
  destruct (amax_row_spec _ Hne) as (m' & Hm' & Hin & Hmax).
  { intros y Hy'. apply Hle in Hy'. apply f32_le_notnan in Hy'. tauto. }
  assert (m' = m) as -> by congruence.
  assert (Hmask : f32_gt m f32_zero = false).
  { unfold f32_gt. destruct (f32_lt f32_zero m) eqn:E; [|reflexivity].
    apply f32_lt_not_le in E. rewrite (Hle m Hin) in E. discriminate. }
  rewrite decoded_masked in Hx, Hy by assumption.
  exists preds, maxvals, m. auto 10.
Qed.

(** C5, amended.  On maps of at least one row and one column whose flat
    indices all fit a float32 ([H * W <= 2^24]), the decoder returns as soon
    as there is a joint, and every coordinate pair it returns lies inside the
    map: [0 <= x < W] and [0 <= y < H]. *)
Theorem get_max_preds_in_range (a : ndarray f32) (N K H W : nat) :
  wf a -> shape a = [N; K; H; W] ->
  (1 <= H)%nat -> (1 <= W)%nat ->
  Z.of_nat (H * W) <= 2 ^ 24 ->
  ((0 < N)%nat -> (0 < K)%nat -> exists r, get_max_preds a = Ok r) /\
  forall preds maxvals,
    get_max_preds a = Ok (preds, maxvals) ->
    forall n k, (n < N)%nat -> (k < K)%nat ->
    exists x y,
      item3 preds n k 0 = Some x /\ item3 preds n k 1 = Some y /\
      (0 <= x /\ x < inject_Z (Z.of_nat W))%Q /\
      (0 <= y /\ y < inject_Z (Z.of_nat H))%Q.
Proof.
  intros Hwf Hsh HH HW Hbound. split.
  - intros HN HK.
    destruct (get_max_preds_spec a N K H W Hwf Hsh) as
      (preds & maxvals & Hrun & _); try lia. eauto.
  - intros preds maxvals Hrun n k Hn Hk.
    destruct (get_max_preds_spec a N K H W Hwf Hsh) as
      (preds' & maxvals' & Hrun' & _ & _ & Hcell); try lia.
    rewrite Hrun in Hrun'. injection Hrun' as <- <-.
    destruct (Hcell n k Hn Hk) as (i & m & Hargmax & Hamax & Hm & Hx & Hy).
    exists (decoded 0 W i m), (decoded 1 W i m).
    split; [assumption|]. split; [assumption|].
    apply argmax_row_first_max, first_max_lt_length in Hargmax.
    rewrite (heatmap_of_length a N K H W) in Hargmax by assumption.
    destruct (f32_gt m f32_zero) eqn:Hmask.
    + destruct (decoded_exact H W i m Hbound Hargmax Hmask) as [Ex Ey].
      pose proof (Nat.mod_upper_bound i W ltac:(lia)) as Hmod.
      assert (Hdiv : (i / W < H)%nat)
        by (apply Nat.Div0.div_lt_upper_bound; lia).
      split.
      * apply (Qeq_int_bounds _ (Z.of_nat (i mod W)) 0); [assumption|lia].
      * apply (Qeq_int_bounds _ (Z.of_nat (i / W)) 0); [assumption|lia].
    + rewrite !decoded_masked by assumption.
      split.
      * apply (Qeq_int_bounds _ 0 0); [reflexivity|lia].
      * apply (Qeq_int_bounds _ 0 0); [reflexivity|lia].
Qed.


(** ** The decoder: failures, NaN and locality *)

Lemma length_tile {A} (l : list A) :
  length (flat_map (fun v => [v; v]) l) = (2 * length l)%nat.
Proof. induction l as [|x l IH]; simpl; lia. Qed.

Lemma reshape_Ok {A} (a b : ndarray A) (sh : list nat) :
  reshape a sh = Ok b -> b = NDArray sh (buf a) /\ length (buf a) = size_of sh.
Proof.
  unfold reshape. destruct (length (buf a) =? size_of sh)%nat eqn:E; [|discriminate].
  intros [= <-]. apply Nat.eqb_eq in E. auto.
Qed.

(** What the decoder returns is shaped after the batch. *)
Lemma get_max_preds_shapes (a : ndarray f32) (N K H W : nat)
    (preds : ndarray Q) (maxvals : ndarray f32) :
  shape a = [N; K; H; W] ->
  get_max_preds a = Ok (preds, maxvals) ->
  shape preds = [N; K; 2%nat] /\ wf preds /\
  shape maxvals = [N; K; 1%nat] /\ wf maxvals.
Proof.
  intros Hsh. unfold get_max_preds, ndim. rewrite Hsh.
  cbn [length Nat.eqb negb nth].
  destruct (reshape_infer a N K) as [hr|e]; cbn [bind]; [|discriminate].
  destruct (argmax_axis2 hr) as [idx|e]; cbn [bind]; [|discriminate].
  destruct (amax_axis2 hr) as [mv|e]; cbn [bind]; [|discriminate].
  destruct (reshape mv [N; K; 1%nat]) as [mv'|e] eqn:Emv; cbn [bind]; [|discriminate].
  destruct (reshape idx [N; K; 1%nat]) as [idx'|e] eqn:Eidx; cbn [bind]; [|discriminate].
  apply reshape_Ok in Emv as [-> Hmv]. apply reshape_Ok in Eidx as [-> Hidx].
  intros [= <- <-]. cbn [size_of foldr] in Hmv, Hidx.
  unfold wf, update_channel, astype, tile2.
  cbn [shape buf take app size_of foldr].
  rewrite length_zip_with, !length_imap, !length_fmap, !length_tile, length_fmap.
  repeat split; lia.
Qed.

(** With an empty axis the decoder raises: in the reshape when there is no
    sample or no joint, in the argmax when the maps are empty. *)
Lemma get_max_preds_zero_dim (a : ndarray f32) (N K H W : nat) :
  wf a -> shape a = [N; K; H; W] ->
  (N = 0 \/ K = 0 \/ H = 0 \/ W = 0)%nat ->
  exists msg, get_max_preds a = Raise (ValueError msg).
Proof.
  intros Hwf Hsh Hzero.
  unfold get_max_preds, ndim. rewrite Hsh. cbn [length Nat.eqb negb nth].
  destruct (Nat.eq_dec (N * K)%nat 0%nat) as [E|E].
  - unfold reshape_infer. apply Nat.eqb_eq in E. rewrite E. cbn [orb bind]. eauto.
  - unfold wf in Hwf. rewrite Hsh in Hwf. cbn [size_of foldr] in Hwf.
    assert (Hlen : length (buf a) = (N * K * 0)%nat) by nia.
    assert (HNK : (0 < N * K)%nat) by lia.
    rewrite (reshape_infer_ok a N K 0 Hlen HNK). cbn [bind].
    unfold argmax_axis2, rows_axis2. cbn [shape buf].
    destruct (N * K)%nat as [|p]; [lia|].
    cbn [rows]. rewrite take_0. cbn [mapM_result argmax_row bind]. eauto.
Qed.

(** X1.  On a well-formed array [get_max_preds] returns exactly when the
    array has four axes and none of them is empty.  With another number of
    axes the assertion fails; with no sample or no joint the reshape raises
    a [ValueError], and with an empty map the argmax does.  When it returns,
    the coordinates have shape [(N, K, 2)] and the confidences [(N, K, 1)]. *)
Theorem get_max_preds_returns_iff (a : ndarray f32) :
  wf a ->
  (ndim a <> 4%nat ->
   get_max_preds a = Raise (AssertionError "batch_images should be 4-ndim")) /\
  (forall N K H W, shape a = [N; K; H; W] ->
     ((N = 0 \/ K = 0)%nat ->
      exists msg, get_max_preds a = Raise (ValueError msg)) /\
     ((0 < N)%nat -> (0 < K)%nat -> (H = 0 \/ W = 0)%nat ->
      exists msg, get_max_preds a = Raise (ValueError msg)) /\
     ((0 < N)%nat -> (0 < K)%nat -> (0 < H)%nat -> (0 < W)%nat ->
      exists preds maxvals,
        get_max_preds a = Ok (preds, maxvals) /\
        shape preds = [N; K; 2%nat] /\ wf preds /\
        shape maxvals = [N; K; 1%nat] /\ wf maxvals)).
Proof.
  intros Hwf. split.
  - intros Hndim. unfold get_max_preds.
    destruct (ndim a =? 4)%nat eqn:E; [apply Nat.eqb_eq in E; contradiction|].
    reflexivity.
  - intros N K H W Hsh. split; [|split].
    + intros HNK. apply (get_max_preds_zero_dim a N K H W Hwf Hsh). tauto.
    + intros HN HK HHW. apply (get_max_preds_zero_dim a N K H W Hwf Hsh). tauto.
    + intros HN HK HH HW.
      destruct (get_max_preds_spec a N K H W Hwf Hsh HN HK HH HW)
        as (preds & maxvals & Hrun & _).
      exists preds, maxvals. split; [exact Hrun|].
      eapply get_max_preds_shapes; eassumption.
Qed.

(** Once the running maximum of [np.amax] is a NaN, or meets one, it stays
    a NaN. *)
Lemma foldl_maximum_nan (ip : list f32) (x : f32) :
  isnan x = true \/ (exists y, y ∈ ip /\ isnan y = true) ->
  foldl maximum x ip = NaN.
Proof.
  revert x. induction ip as [|z ip IH]; intros x Hnan; simpl.
  - destruct Hnan as [Hx|(y & Hy & _)].
    + destruct x; try discriminate. reflexivity.
    + inversion Hy.
  - apply IH. destruct Hnan as [Hx|(y & Hy & Hyn)].
    + left. unfold maximum. rewrite Hx, orb_true_r. exact Hx.
    + apply elem_of_cons in Hy as [->|Hy]; [|right; eauto].
      left. unfold maximum, f32_ge.
      destruct z; try discriminate. simpl.
      destruct x; reflexivity.
Qed.

(** X2.  A NaN anywhere in the map of a joint makes the confidence of that
    joint a NaN, and since [NaN > 0] is false its coordinates are masked to
    [(0, 0)]. *)
Theorem get_max_preds_nan
    (a : ndarray f32) (N K H W n k j : nat) :
  wf a -> shape a = [N; K; H; W] ->
  (n < N)%nat -> (k < K)%nat ->
  heatmap_of a n k !! j = Some NaN ->
  exists preds maxvals,
    get_max_preds a = Ok (preds, maxvals) /\
    item3 maxvals n k 0 = Some NaN /\
    item3 preds n k 0 = Some 0%Q /\ item3 preds n k 1 = Some 0%Q.
Proof.
  intros Hwf Hsh Hn Hk Hj.
  assert (Hi : (j < H * W)%nat).
  { apply lookup_lt_Some in Hj.
    rewrite (heatmap_of_length a N K H W) in Hj; assumption. }
  assert (HW : (0 < W)%nat) by (destruct W; [rewrite Nat.mul_0_r in Hi|]; lia).
  assert (HH : (0 < H)%nat) by (destruct H; [simpl in Hi|]; lia).
  destruct (get_max_preds_spec a N K H W Hwf Hsh) as
    (preds & maxvals & Hrun & _ & _ & Hcell); try lia.
  destruct (Hcell n k Hn Hk) as (i & m & _ & Hamax & Hm & Hx & Hy).
  assert (m = NaN) as ->.
  { destruct (heatmap_of a n k) as [|x ip] eqn:E; [discriminate|].
    simpl in Hamax. injection Hamax as <-.
    apply foldl_maximum_nan.
    destruct j as [|j]; simpl in Hj.
    - injection Hj as ->. left. reflexivity.
    - right. exists NaN. split; [|reflexivity].
      apply list_elem_of_lookup. eauto. }
  rewrite decoded_masked in Hx, Hy by reflexivity.
  exists preds, maxvals. auto.
Qed.

(** [np.argmax] and [np.amax] agree: the score at the argmax is the
    maximum, NaN included. *)
Lemma argmax_loop_amax (ip pre : list f32) (mp : f32) (max_ind : nat) :
  isnan mp = false ->
  pre !! max_ind = Some mp ->
  (pre ++ ip) !! argmax_loop mp max_ind (length pre) ip = Some (foldl maximum mp ip).
Proof.
  revert pre mp max_ind.
  induction ip as [|x ip IH]; intros pre mp max_ind Hmp Hat; simpl.
  - rewrite app_nil_r. exact Hat.
  - assert (Hlen : length (pre ++ [x]) = S (length pre))
      by (rewrite length_app; simpl; lia).
    assert (Hassoc : pre ++ x :: ip = (pre ++ [x]) ++ ip)
      by (rewrite <- app_assoc; reflexivity).
    assert (Hin : (max_ind < length pre)%nat) by (apply lookup_lt_Some in Hat; lia).
    unfold maximum at 2. unfold f32_ge. rewrite Hmp, orb_false_r.
    destruct (f32_le x mp) eqn:Hx; simpl.
    + rewrite Hassoc, <- Hlen. apply IH; [assumption|].
      rewrite lookup_app_l; assumption.
    + destruct (isnan x) eqn:Hnan.
      * rewrite lookup_app_r by lia. rewrite Nat.sub_diag. simpl.
        destruct x; try discriminate.
        f_equal. symmetry. apply foldl_maximum_nan. left. reflexivity.
      * rewrite Hassoc, <- Hlen. apply IH; [assumption|].
        rewrite lookup_app_r by lia. rewrite Nat.sub_diag. reflexivity.
Qed.

Lemma argmax_amax_agree (row : list f32) (i : nat) (m : f32) :
  argmax_row row = Ok i -> amax_row row = Ok m -> row !! i = Some m.
Proof.
  destruct row as [|x ip]; simpl; [discriminate|].
  intros [= <-] [= <-]. destruct (isnan x) eqn:Hnan.
  - destruct x; try discriminate.
    simpl. f_equal. symmetry. apply foldl_maximum_nan. left. reflexivity.
  - apply (argmax_loop_amax ip [x] x 0%nat); [assumption|reflexivity].
Qed.

Lemma int_of_Q_int (q : Q) (z : Z) : q == inject_Z z -> int_of_Q q = z.
Proof.
  intros E. unfold Qeq in E. simpl in E. rewrite Z.mul_1_r in E.
  unfold int_of_Q. rewrite E. apply Z.quot_mul. lia.
Qed.

(** X3.  The coordinates point at the confidence: while every flat index
    fits a float32, a joint with a positive confidence [m] is decoded to a
    column [x] and a row [y] inside the map, and the score
    [batch_heatmaps[n][k][y][x]] is [m] itself. *)
Theorem get_max_preds_points_at_maximum
    (a : ndarray f32) (N K H W n k : nat) :
  wf a -> shape a = [N; K; H; W] ->
  (n < N)%nat -> (k < K)%nat -> (0 < H)%nat -> (0 < W)%nat ->
  Z.of_nat (H * W) <= 2 ^ 24 ->
  exists preds maxvals px py m,
    get_max_preds a = Ok (preds, maxvals) /\
    item3 preds n k 0 = Some px /\ item3 preds n k 1 = Some py /\
    item3 maxvals n k 0 = Some m /\
    (f32_gt m f32_zero = true ->
     0 <= int_of_Q px < Z.of_nat W /\ 0 <= int_of_Q py < Z.of_nat H /\
     item4 NaN a n k (Z.to_nat (int_of_Q py)) (Z.to_nat (int_of_Q px)) = m).
Proof.
  intros Hwf Hsh Hn Hk HH HW Hbound.
  destruct (get_max_preds_spec a N K H W Hwf Hsh) as
    (preds & maxvals & Hrun & _ & _ & Hcell); try lia.
  destruct (Hcell n k Hn Hk) as (i & m & Hargmax & Hamax & Hm & Hx & Hy).
  exists preds, maxvals, (decoded 0 W i m), (decoded 1 W i m), m.
  split; [exact Hrun|]. split; [exact Hx|]. split; [exact Hy|].
  split; [exact Hm|]. intros Hpos.
  pose proof (argmax_amax_agree _ _ _ Hargmax Hamax) as Hcell_i.
  assert (Hi : (i < H * W)%nat).
  { apply lookup_lt_Some in Hcell_i.
    rewrite (heatmap_of_length a N K H W) in Hcell_i; assumption. }
  destruct (decoded_exact H W i m Hbound Hi Hpos) as [Ex Ey].
  apply int_of_Q_int in Ex, Ey. rewrite Ex, Ey, !Nat2Z.id.
  pose proof (Nat.mod_upper_bound i W ltac:(lia)) as Hmod.
  assert (Hdiv : (i / W < H)%nat) by (apply Nat.Div0.div_lt_upper_bound; lia).
  split; [lia|]. split; [lia|].
  unfold item4. rewrite Hsh.
  rewrite <- (heatmap_of_cell a N K H W n k (i / W) (i mod W) Hsh Hdiv Hmod).
  replace (i / W * W + i mod W)%nat with i
    by (rewrite (Nat.div_mod_eq i W) at 1; lia).
  rewrite Hcell_i. reflexivity.
Qed.

(** X4.  Each joint is decoded from its own map alone: two joints, in the
    same batch or not, whose maps hold the same scores get the same
    coordinates and the same confidence. *)
Theorem get_max_preds_local
    (a a' : ndarray f32) (N K N' K' H W n k n' k' : nat) :
  wf a -> shape a = [N; K; H; W] ->
  wf a' -> shape a' = [N'; K'; H; W] ->
  (n < N)%nat -> (k < K)%nat -> (n' < N')%nat -> (k' < K')%nat ->
  (0 < H)%nat -> (0 < W)%nat ->
  heatmap_of a n k = heatmap_of a' n' k' ->
  exists preds maxvals preds' maxvals',
    get_max_preds a = Ok (preds, maxvals) /\
    get_max_preds a' = Ok (preds', maxvals') /\
    item3 preds n k 0 = item3 preds' n' k' 0 /\
    item3 preds n k 1 = item3 preds' n' k' 1 /\
    item3 maxvals n k 0 = item3 maxvals' n' k' 0.
Proof.
  intros Hwf Hsh Hwf' Hsh' Hn Hk Hn' Hk' HH HW Hmap.
  destruct (get_max_preds_spec a N K H W Hwf Hsh) as
    (preds & maxvals & Hrun & _ & _ & Hcell); try lia.
  destruct (get_max_preds_spec a' N' K' H W Hwf' Hsh') as
    (preds' & maxvals' & Hrun' & _ & _ & Hcell'); try lia.
  destruct (Hcell n k Hn Hk) as (i & m & Hargmax & Hamax & Hm & Hx & Hy).
  destruct (Hcell' n' k' Hn' Hk') as (i' & m' & Hargmax' & Hamax' & Hm' & Hx' & Hy').
  rewrite Hmap in Hargmax, Hamax.
  assert (i' = i) as -> by congruence.
  assert (m' = m) as -> by congruence.
  exists preds, maxvals, preds', maxvals'.
  rewrite Hx, Hy, Hm, Hx', Hy', Hm'. auto.
Qed.

(** ** The decoder on the sample inputs *)

Ltac case_positions j Hj :=
  repeat (destruct j as [|j];
          [ try congruence; vm_compute in Hj; injection Hj as <-; reflexivity | ]);
  vm_compute in Hj; discriminate.

Lemma get_max_preds_strict_maximum_witness :
  exists preds maxvals x y,
    get_max_preds example_heatmaps = Ok (preds, maxvals) /\
    item3 maxvals 0 0 0 = Some (Fin (3 # 4)) /\
    item3 preds 0 0 0 = Some x /\ item3 preds 0 0 1 = Some y /\
    x == inject_Z (Z.of_nat (4 mod 3)) /\
    y == inject_Z (Z.of_nat (4 / 3)).
Proof.
  apply (get_max_preds_strict_maximum example_heatmaps 1 2 2 3 0 0 4 (Fin (3 # 4))).
  - reflexivity.
  - reflexivity.
  - lia.
  - lia.
  - vm_compute. discriminate.
  - reflexivity.
  - intros j y Hne Hj. case_positions j Hj.
  - reflexivity.
Defined.

Lemma get_max_preds_nonpositive_masked_witness :
  exists preds maxvals m,
    get_max_preds example_heatmaps = Ok (preds, maxvals) /\
    item3 maxvals 0 1 0 = Some m /\
    m ∈ heatmap_of example_heatmaps 0 1 /\
    (forall y, y ∈ heatmap_of example_heatmaps 0 1 -> f32_le y m = true) /\
    item3 preds 0 1 0 = Some 0%Q /\ item3 preds 0 1 1 = Some 0%Q /\
    ((forall y, y ∈ heatmap_of example_heatmaps 0 1 -> y = f32_zero) ->
     m = f32_zero).
Proof.
  apply (get_max_preds_nonpositive_masked example_heatmaps 1 2 2 3 0 1).
  - reflexivity.
  - reflexivity.
  - lia.
  - lia.
  - lia.
  - lia.
  - intros y Hy. apply list_elem_of_lookup in Hy as [j Hj]. case_positions j Hj.
Defined.

Lemma get_max_preds_in_range_witness :
  ((0 < 1)%nat -> (0 < 2)%nat -> exists r, get_max_preds example_heatmaps = Ok r) /\
  forall preds maxvals,
    get_max_preds example_heatmaps = Ok (preds, maxvals) ->
    forall n k, (n < 1)%nat -> (k < 2)%nat ->
    exists x y,
      item3 preds n k 0 = Some x /\ item3 preds n k 1 = Some y /\
      (0 <= x /\ x < inject_Z (Z.of_nat 3))%Q /\
      (0 <= y /\ y < inject_Z (Z.of_nat 2))%Q.
Proof.
  apply (get_max_preds_in_range example_heatmaps 1 2 2 3).
  - reflexivity.
  - reflexivity.
  - lia.
  - lia.
  - vm_compute. discriminate.
Defined.


(** The decoder on a spike: the argmax is the last row, whatever the
    height. *)
Lemma spike_heatmaps_wf (i : nat) : wf (spike_heatmaps i).
Proof.
  unfold wf, spike_heatmaps. cbn [buf shape size_of foldr].
  rewrite length_app, length_replicate. cbn [length]. lia.
Qed.

Lemma spike_heatmaps_map (i : nat) :
  heatmap_of (spike_heatmaps i) 0 0 = replicate i f32_zero ++ [Fin 1].
Proof.
  unfold heatmap_of, spike_heatmaps. cbn [shape buf].
  replace ((0 * 1 + 0) * (S i * 1))%nat with 0%nat by lia.
  rewrite drop_0. apply take_ge.
  rewrite length_app, length_replicate. cbn [length]. lia.
Qed.

Lemma spike_heatmaps_peak (i : nat) :
  heatmap_of (spike_heatmaps i) 0 0 !! i = Some (Fin 1).
Proof.
  rewrite spike_heatmaps_map. rewrite lookup_app_r by (rewrite length_replicate; lia).
  rewrite length_replicate, Nat.sub_diag. reflexivity.
Qed.

Lemma spike_heatmaps_strict (i j : nat) (y : f32) :
  j <> i -> heatmap_of (spike_heatmaps i) 0 0 !! j = Some y ->
  f32_lt y (Fin 1) = true.
Proof.
  intros Hne. rewrite spike_heatmaps_map. intros Hj.
  apply lookup_app_Some in Hj as [Hj|[Hge Hj]].
  - apply lookup_replicate in Hj as [-> _]. reflexivity.
  - rewrite length_replicate in Hge, Hj.
    apply list_lookup_singleton_Some in Hj as [Hj _]. lia.
Qed.

Lemma get_max_preds_spike (i : nat) :
  exists preds maxvals,
    get_max_preds (spike_heatmaps i) = Ok (preds, maxvals) /\
    item3 preds 0 0 0 = Some (decoded 0 1 i (Fin 1)) /\
    item3 preds 0 0 1 = Some (decoded 1 1 i (Fin 1)).
Proof.
  destruct (get_max_preds_spec (spike_heatmaps i) 1 1 (S i) 1)
    as (preds & maxvals & Hrun & _ & _ & Hcell);
    [apply spike_heatmaps_wf|reflexivity|lia..|].
  destruct (Hcell 0%nat 0%nat) as (i' & m & Hargmax & Hamax & _ & Hx & Hy); [lia..|].
  assert (i' = i) as ->.
  { apply argmax_row_first_max in Hargmax.
    eapply first_max_strict; [exact Hargmax|apply spike_heatmaps_peak|reflexivity|].
    intros j y. apply spike_heatmaps_strict. }
  assert (m = Fin 1) as ->.
  { rewrite (amax_row_strict _ i (Fin 1)) in Hamax.
    - congruence.
    - apply spike_heatmaps_peak.
    - reflexivity.
    - intros j y. apply spike_heatmaps_strict. }
  eauto.
Qed.

(** C1 as stated fails once a flat index no longer fits a float32: on a
    map of [2^24 + 2] rows and one column whose single strict maximum is in
    the last row, flat index [16777217], the returned [y] is [16777216]. *)
Lemma get_max_preds_strict_maximum_large_map :
  let i := Z.to_nat 16777217 in
  let a := spike_heatmaps i in
  wf a /\ shape a = [1; 1; S i; 1]%nat /\
  heatmap_of a 0 0 !! i = Some (Fin 1) /\
  (forall j y, j <> i -> heatmap_of a 0 0 !! j = Some y -> f32_lt y (Fin 1) = true) /\
  f32_gt (Fin 1) f32_zero = true /\
  exists preds maxvals y,
    get_max_preds a = Ok (preds, maxvals) /\
    item3 preds 0 0 1 = Some y /\
    y == 16777216 /\
    ~ y == inject_Z (Z.of_nat (i / 1)).
Proof.
  intros i a.
  split; [apply spike_heatmaps_wf|]. split; [reflexivity|].
  split; [apply spike_heatmaps_peak|]. split; [apply spike_heatmaps_strict|].
  split; [reflexivity|].
  destruct (get_max_preds_spike i) as (preds & maxvals & Hrun & _ & Hy).
  exists preds, maxvals, (decoded 1 1 i (Fin 1)).
  split; [exact Hrun|]. split; [exact Hy|].
  assert (E : decoded 1 1 i (Fin 1) == 16777216).
  { unfold decoded, i. rewrite Z2Nat.id by lia. vm_compute. reflexivity. }
  split; [exact E|].
  intros E2. rewrite Nat.div_1_r in E2. unfold i in E2 at 2.
  rewrite Z2Nat.id in E2 by lia.
  pose proof (Qeq_trans _ _ _ (Qeq_sym _ _ E) E2) as C.
  vm_compute in C. discriminate.
Qed.

(** C5 as stated fails in the same way: on a map of [2^24 + 4] rows and one
    column whose maximum is in the last row, flat index [16777219], the
    returned [y] is [16777220], the height itself. *)
Lemma get_max_preds_in_range_large_map :
  let i := Z.to_nat 16777219 in
  let a := spike_heatmaps i in
  wf a /\ shape a = [1; 1; S i; 1]%nat /\ (1 <= S i)%nat /\ (1 <= 1)%nat /\
  exists preds maxvals y,
    get_max_preds a = Ok (preds, maxvals) /\
    item3 preds 0 0 1 = Some y /\
    y == 16777220 /\
    ~ (y < inject_Z (Z.of_nat (S i)))%Q.
Proof.
  intros i a.
  split; [apply spike_heatmaps_wf|]. split; [reflexivity|].
  split; [lia|]. split; [lia|].
  destruct (get_max_preds_spike i) as (preds & maxvals & Hrun & _ & Hy).
  exists preds, maxvals, (decoded 1 1 i (Fin 1)).
  split; [exact Hrun|]. split; [exact Hy|].
  assert (E : decoded 1 1 i (Fin 1) == 16777220).
  { unfold decoded, i. rewrite Z2Nat.id by lia. vm_compute. reflexivity. }
  split; [exact E|].
  intros C. rewrite Nat2Z.inj_succ in C. unfold i in C at 2.
  rewrite Z2Nat.id in C by lia.
  apply (Qlt_irrefl 16777220).
  eapply Qle_lt_trans; [|exact C].
  apply Qle_lteq. right. symmetry. exact E.
Qed.

(** ** The min-max normalisation *)

Lemma round_float_nonneg (p emin : Z) (q : Q) :
  (0 <= q)%Q -> (0 <= round_float p emin q)%Q.
Proof.
  intros Hq. unfold Qle in Hq. simpl in Hq. rewrite Z.mul_1_r in Hq.
  unfold round_float. destruct (Qnum q) as [|n|n] eqn:En; [apply Qle_refl| |lia].
  unfold round_pos.
  set (s := Z.max (ilog2 (Zpos n) (Zpos (Qden q))) emin - (p - 1)).
  destruct (0 <=? s) eqn:Hs.
  - apply Z.leb_le in Hs. pose proof (pow2_pos s Hs) as HP.
    assert (Hd : 0 < Zpos (Qden q) * 2 ^ s) by lia.
    destruct (rne_bounds (Zpos n) _ Hd) as [[Hlo _] _].
    pose proof (Z.div_pos (Zpos n) _ ltac:(lia) Hd).
    rewrite <- (Zle_Qle 0). apply Z.mul_nonneg_nonneg; lia.
  - assert (Hd : 0 < Zpos (Qden q)) by lia.
    destruct (rne_bounds (Zpos n * 2 ^ (- s)) _ Hd) as [[Hlo _] _].
    apply Z.leb_gt in Hs. pose proof (pow2_pos (- s) ltac:(lia)) as HP.
    pose proof (Z.div_pos (Zpos n * 2 ^ (- s)) _ ltac:(lia) Hd).
    unfold Qle. simpl. lia.
Qed.

(** Rounding keeps a number above a power of two in the normal range. *)
Lemma round_float_lower (p emin t : Z) (q : Q) :
  1 <= p -> 0 <= t -> emin <= - t ->
  (1 # Z.to_pos (2 ^ t) <= q)%Q ->
  (1 # Z.to_pos (2 ^ t) <= round_float p emin q)%Q.
Proof.
  intros Hp Ht Hemin Hq.
  pose proof (pow2_pos t Ht) as HT.
  unfold Qle in Hq. simpl in Hq. rewrite Z2Pos.id in Hq by lia.
  unfold round_float. destruct (Qnum q) as [|n|n] eqn:En; [lia| |lia].
  set (d := Zpos (Qden q)) in *. assert (Hd : 0 < d) by (unfold d; lia).
  set (N := Zpos n) in *. assert (HN : 0 < N) by (unfold N; lia).
  clearbody N d. clear En.
  destruct (ilog2_spec N d HN Hd) as [Hpos Hneg].
  pose proof (ilog2_normalises N d (p - 1) HN Hd ltac:(lia)) as Hnorm.
  unfold round_pos. set (e := ilog2 N d) in *. clearbody e.
  assert (He : - t <= e).
  { destruct (Z.le_gt_cases 0 e) as [|He0]; [lia|].
    specialize (Hneg He0). destruct Hneg as [_ Hneg].
    assert (H2 : 2 ^ (- e) < 2 ^ (t + 1));
      [|apply (Z.pow_lt_mono_r_iff 2) in H2; lia].
    rewrite Z.pow_add_r by lia. change (2 ^ 1) with 2.
    apply (Z.mul_lt_mono_pos_l N); [lia|]. lia. }
  rewrite Z.max_l by lia.
  destruct (0 <=? e - (p - 1)) eqn:Hs.
  - apply Z.leb_le in Hs. specialize (Hpos ltac:(lia)). destruct Hpos as [Hpos _].
    pose proof (pow2_pos (e - (p - 1)) Hs) as HP.
    set (S := 2 ^ (e - (p - 1))) in *.
    assert (HdS : 0 < d * S) by lia.
    destruct (rne_bounds N (d * S) HdS) as [[Hlo _] _].
    assert (H1 : 1 <= N / (d * S)).
    { apply Z.div_le_lower_bound; [lia|]. rewrite Z.mul_1_r.
      apply (Z.le_trans _ (d * 2 ^ e)); [|lia].
      apply Z.mul_le_mono_nonneg_l; [lia|].
      unfold S. apply Z.pow_le_mono_r; lia. }
    unfold Qle. simpl. rewrite Z2Pos.id by lia. rewrite Z.mul_1_r.
    assert (1 * 1 <= rne N (d * S) * S) by (apply Z.mul_le_mono_nonneg; lia).
    assert (1 * 1 <= rne N (d * S) * S * 2 ^ t) by (apply Z.mul_le_mono_nonneg; lia).
    lia.
  - apply Z.leb_gt in Hs. specialize (Hnorm ltac:(lia)).
    replace (- (e - (p - 1))) with (p - 1 - e) by lia.
    pose proof (pow2_pos (p - 1 - e) ltac:(lia)) as HP.
    pose proof (pow2_pos (p - 1) ltac:(lia)) as HP1.
    destruct (rne_bounds (N * 2 ^ (p - 1 - e)) d Hd) as [[Hlo _] _].
    assert (H1 : 2 ^ (p - 1) <= N * 2 ^ (p - 1 - e) / d).
    { apply Z.div_le_lower_bound; lia. }
    assert (H2 : 2 ^ (p - 1 - e) <= 2 ^ (p - 1) * 2 ^ t).
    { rewrite <- Z.pow_add_r by lia. apply Z.pow_le_mono_r; lia. }
    assert (H3 : 2 ^ (p - 1) * 2 ^ t <= rne (N * 2 ^ (p - 1 - e)) d * 2 ^ t)
      by (apply Z.mul_le_mono_nonneg_r; lia).
    unfold Qle. simpl. rewrite !Z2Pos.id by lia. lia.
Qed.

Lemma round_float_opp (p emin : Z) (q : Q) :
  round_float p emin (- q) = Qopp (round_float p emin q).
Proof.
  destruct q as [n d]. unfold round_float. cbn [Qopp Qnum Qden].
  destruct n as [|n|n]; [reflexivity|reflexivity|].
  change (- Z.neg n) with (Z.pos n). cbv iota.
  destruct (round_pos p emin (Z.pos n) (Z.pos d)) as [[|a|a] b]; reflexivity.
Qed.

Lemma round_float_of_zero (p emin : Z) (q : Q) :
  q == 0 -> round_float p emin q = 0%Q.
Proof.
  intros E. unfold Qeq in E. simpl in E. rewrite Z.mul_1_r in E.
  unfold round_float. rewrite E. reflexivity.
Qed.

Lemma Qle_bool_false (x y : Q) : (y < x)%Q -> Qle_bool x y = false.
Proof.
  intros H. destruct (Qle_bool x y) eqn:E; [|reflexivity].
  apply Qle_bool_iff in E. exfalso. exact (Qlt_not_le _ _ H E).
Qed.

(** Rounding does not cross a number of the format above the integers:
    [m * 2 ^ s] with [m < 2 ^ p]. *)
Lemma round_pos_upper (p emin m s N d : Z) :
  1 <= p -> emin <= 0 -> 0 <= s -> 0 <= m < 2 ^ p -> 0 < N -> 0 < d ->
  N <= m * 2 ^ s * d ->
  (round_pos p emin N d <= inject_Z (m * 2 ^ s))%Q.
Proof.
  intros Hp Hemin Hs Hm HN Hd Hle.
  pose proof (pow2_pos s Hs) as HS.
  unfold round_pos. set (u := Z.max (ilog2 N d) emin - (p - 1)).
  destruct (0 <=? u) eqn:E.
  - apply Z.leb_le in E. rewrite <- Zle_Qle.
    assert (Hus : u <= s).
    { destruct (Z.le_gt_cases u s) as [|Hgt]; [assumption|exfalso].
      destruct (ilog2_spec N d HN Hd) as [Hpos _].
      set (e := ilog2 N d) in *.
      assert (He : p + s <= e) by (unfold u in Hgt; lia).
      specialize (Hpos ltac:(lia)). destruct Hpos as [Hpos _].
      assert (H1 : 2 ^ (p + s) <= 2 ^ e) by (apply Z.pow_le_mono_r; lia).
      rewrite Z.pow_add_r in H1 by lia.
      assert (H2 : m * 2 ^ s < 2 ^ p * 2 ^ s) by (apply Z.mul_lt_mono_pos_r; lia).
      assert (H3 : m * 2 ^ s * d < 2 ^ p * 2 ^ s * d) by (apply Z.mul_lt_mono_pos_r; lia).
      assert (H4 : d * (2 ^ p * 2 ^ s) <= d * 2 ^ e) by (apply Z.mul_le_mono_nonneg_l; lia).
      lia. }
    pose proof (pow2_pos u E) as HU.
    pose proof (pow2_pos (s - u) ltac:(lia)) as HSU.
    assert (EP : 2 ^ s = 2 ^ (s - u) * 2 ^ u)
      by (rewrite <- Z.pow_add_r by lia; f_equal; lia).
    assert (Hr : rne N (d * 2 ^ u) <= m * 2 ^ (s - u)).
    { apply rne_le_int; [lia|]. rewrite EP in Hle.
      replace (m * 2 ^ (s - u) * (d * 2 ^ u)) with (m * (2 ^ (s - u) * 2 ^ u) * d) by ring.
      exact Hle. }
    rewrite EP. replace (m * (2 ^ (s - u) * 2 ^ u)) with (m * 2 ^ (s - u) * 2 ^ u) by ring.
    apply Z.mul_le_mono_nonneg_r; lia.
  - apply Z.leb_gt in E. pose proof (pow2_pos (- u) ltac:(lia)) as HU.
    unfold Qle. cbn [Qnum Qden inject_Z]. rewrite Z2Pos.id by lia. rewrite Z.mul_1_r.
    apply rne_le_int; [assumption|].
    replace (m * 2 ^ s * 2 ^ (- u) * d) with (m * 2 ^ s * d * 2 ^ (- u)) by ring.
    apply Z.mul_le_mono_nonneg_r; lia.
Qed.

Lemma round_float_upper (p emin m s : Z) (q : Q) :
  1 <= p -> emin <= 0 -> 0 <= s -> 0 <= m < 2 ^ p ->
  (q <= inject_Z (m * 2 ^ s))%Q ->
  (round_float p emin q <= inject_Z (m * 2 ^ s))%Q.
Proof.
  intros Hp Hemin Hs Hm Hq.
  pose proof (pow2_pos s Hs) as HS.
  assert (H0 : 0 <= m * 2 ^ s) by (apply Z.mul_nonneg_nonneg; lia).
  unfold round_float. destruct (Qnum q) as [|n|n] eqn:En.
  - rewrite <- (Zle_Qle 0). exact H0.
  - apply round_pos_upper; try assumption; try lia.
    unfold Qle in Hq. cbn [Qnum Qden inject_Z] in Hq. rewrite En in Hq. lia.
  - apply (Qle_trans _ 0); [|rewrite <- (Zle_Qle 0); exact H0].
    pose proof (round_float_nonneg p emin (Zpos n # Qden q)) as Hnn.
    unfold round_float in Hnn. cbn [Qnum Qden] in Hnn.
    apply (Qopp_le_compat 0). apply Hnn. unfold Qle. simpl. lia.
Qed.

Lemma round_to_float (t : dtype) (q : Q) :
  round_to t q =
    round_float (match t with float32 => 24 | float64 => 53 end)
                (match t with float32 => -126 | float64 => -1022 end) q.
Proof. destruct t; reflexivity. Qed.

Lemma round_to_nonneg (t : dtype) (q : Q) : (0 <= q)%Q -> (0 <= round_to t q)%Q.
Proof. rewrite round_to_float. apply round_float_nonneg. Qed.

Lemma round_to_lower (t : dtype) (q : Q) :
  (1 # 131072 <= q)%Q -> (1 # 131072 <= round_to t q)%Q.
Proof.
  rewrite round_to_float. intros H.
  destruct t; apply (round_float_lower _ _ 17); try lia; exact H.
Qed.

Lemma round_to_of_zero (t : dtype) (q : Q) : q == 0 -> round_to t q = 0%Q.
Proof. rewrite round_to_float. apply round_float_of_zero. Qed.

(** A rounding that stays in range gives a finite value. *)
Lemma float_round_in_range (t : dtype) (q : Q) :
  (0 <= round_to t q)%Q -> (round_to t q < huge t)%Q ->
  float_round t q = Fin (round_to t q).
Proof.
  intros Hlo Hhi. unfold float_round. cbv zeta.
  rewrite (Qle_bool_false _ _ Hhi).
  rewrite Qle_bool_false; [reflexivity|].
  apply (Qlt_le_trans _ 0); [|exact Hlo].
  destruct t; reflexivity.
Qed.

Lemma float_round_range (t : dtype) (q : Q) (k : Z) :
  0 <= k < match t with float32 => 128 | float64 => 1024 end ->
  (0 <= q)%Q -> (q <= inject_Z (2 ^ k))%Q ->
  float_round t q = Fin (round_to t q) /\
  (0 <= round_to t q)%Q /\ (round_to t q <= inject_Z (2 ^ k))%Q.
Proof.
  intros Hk Hlo Hhi.
  pose proof (round_to_nonneg t q Hlo) as Hnn.
  assert (Hup : (round_to t q <= inject_Z (2 ^ k))%Q).
  { rewrite round_to_float. rewrite <- (Z.mul_1_l (2 ^ k)).
    apply round_float_upper; try lia.
    - destruct t; lia.
    - destruct t; lia.
    - destruct t; split; try lia; reflexivity.
    - rewrite Z.mul_1_l. exact Hhi. }
  split; [|split; assumption].
  apply float_round_in_range; [exact Hnn|].
  apply (Qle_lt_trans _ _ _ Hup).
  destruct t; cbn [huge]; rewrite <- Zlt_Qlt; apply Z.pow_lt_mono_r; lia.
Qed.

(** A rounding of a number that is not negative is not [-inf], and is not
    below what [round_to] gives. *)
Lemma float_round_nonneg (t : dtype) (q : Q) :
  (0 <= q)%Q ->
  float_round t q = PosInf \/ float_round t q = Fin (round_to t q).
Proof.
  intros Hq. unfold float_round. cbv zeta.
  destruct (Qle_bool (huge t) (round_to t q)); [left; reflexivity|].
  right. rewrite Qle_bool_false; [reflexivity|].
  apply (Qlt_le_trans _ 0); [|apply round_to_nonneg, Hq].
  destruct t; reflexivity.
Qed.

Lemma finite_float32_notnan (v : f32) : finite_float32 v -> isnan v = false.
Proof. destruct v; simpl; intros H; try contradiction; reflexivity. Qed.

Lemma foldl_minimum_spec (ip : list f32) (x : f32) :
  (forall y, y ∈ x :: ip -> isnan y = false) ->
  foldl minimum x ip ∈ x :: ip /\
  forall y, y ∈ x :: ip -> f32_le (foldl minimum x ip) y = true.
Proof.
  revert x. induction ip as [|z ip IH]; intros x Hnan; simpl.
  - split; [apply list_elem_of_singleton; reflexivity|].
    intros y Hy. apply list_elem_of_singleton in Hy as ->.
    apply f32_le_refl, Hnan. apply list_elem_of_singleton; reflexivity.
  - assert (Hx : isnan x = false) by (apply Hnan; constructor).
    assert (Hz : isnan z = false) by (apply Hnan; do 2 constructor).
    assert (Hm : isnan (minimum x z) = false)
      by (unfold minimum; destruct (f32_le x z || isnan x); assumption).
    destruct (IH (minimum x z)) as [Hin Hle].
    { intros y Hy. apply elem_of_cons in Hy as [->|Hy]; [assumption|].
      apply Hnan. do 2 constructor. assumption. }
    assert (Hxz : f32_le (minimum x z) x = true /\ f32_le (minimum x z) z = true).
    { unfold minimum. rewrite Hx, orb_false_r.
      destruct (f32_le x z) eqn:E.
      - split; [apply f32_le_refl|]; assumption.
      - split; [|apply f32_le_refl; assumption].
        apply f32_lt_le, f32_le_false; assumption. }
    split.
    + apply elem_of_cons in Hin as [Heq|Hin].
      * rewrite Heq. unfold minimum.
        destruct (f32_le x z || isnan x); [constructor|do 2 constructor].
      * do 2 constructor. assumption.
    + intros y Hy. apply elem_of_cons in Hy as [->|Hy].
      * eapply f32_le_trans; [|apply Hxz]. apply Hle. constructor.
      * apply elem_of_cons in Hy as [->|Hy].
        -- eapply f32_le_trans; [|apply Hxz]. apply Hle. constructor.
        -- apply Hle. constructor. assumption.
Qed.

Lemma foldl_minimum_nan (ip : list f32) (x : f32) :
  isnan x = true \/ (exists y, y ∈ ip /\ isnan y = true) ->
  foldl minimum x ip = NaN.
Proof.
  revert x. induction ip as [|z ip IH]; intros x Hnan; simpl.
  - destruct Hnan as [Hx|(y & Hy & _)].
    + destruct x; try discriminate. reflexivity.
    + inversion Hy.
  - apply IH. destruct Hnan as [Hx|(y & Hy & Hyn)].
    + left. unfold minimum. rewrite Hx, orb_true_r. exact Hx.
    + apply elem_of_cons in Hy as [->|Hy]; [|right; eauto].
      left. unfold minimum.
      destruct z; try discriminate. simpl.
      destruct x; reflexivity.
Qed.

(** Without a NaN among the pixels, [min <= max]; with one, both are
    NaN. *)
Lemma extremes_ordered (x : f32) (l : list f32) :
  let min := foldl minimum x l in
  let max := foldl maximum x l in
  (isnan min = false -> f32_le min max = true) /\
  (isnan min = true -> min = NaN /\ max = NaN).
Proof.
  intros min max.
  destruct (decide (Forall (fun y => isnan y = false) (x :: l))) as [Hall|Hex].
  - rewrite Forall_forall in Hall.
    destruct (foldl_minimum_spec l x) as [_ Hmin]; [intros y Hy; apply Hall, Hy|].
    destruct (foldl_maximum_spec l x) as [_ Hmax]; [intros y Hy; apply Hall, Hy|].
    assert (Hle : f32_le min max = true).
    { eapply f32_le_trans; [apply Hmin|apply Hmax]; constructor. }
    split; [intros _; exact Hle|].
    intros Hn. apply f32_le_notnan in Hle. fold min in Hn. destruct Hle; congruence.
  - assert (Hnan : isnan x = true \/ exists y, y ∈ l /\ isnan y = true).
    { apply not_Forall_Exists in Hex; [|apply _].
      apply Exists_exists in Hex as (y & Hy & Hyn).
      apply not_false_is_true in Hyn.
      apply elem_of_cons in Hy as [->|Hy]; [left; exact Hyn|right; eauto]. }
    assert (Emin : min = NaN) by (apply foldl_minimum_nan, Hnan).
    assert (Emax : max = NaN) by (apply foldl_maximum_nan, Hnan).
    split; [rewrite Emin; discriminate|auto].
Qed.

(** The extremes of a batch of finite pixels. *)
Lemma extremes_finite (x : f32) (l : list f32) :
  Forall finite_float32 (x :: l) ->
  exists qmin qmax,
    foldl minimum x l = Fin qmin /\ foldl maximum x l = Fin qmax /\
    (qmin <= qmax)%Q /\
    finite_float32 (Fin qmin) /\ finite_float32 (Fin qmax) /\
    forall v, v ∈ x :: l -> f32_le (Fin qmin) v = true.
Proof.
  intros Hfin. rewrite Forall_forall in Hfin.
  assert (Hnan : forall y, y ∈ x :: l -> isnan y = false)
    by (intros y Hy; apply finite_float32_notnan, Hfin, Hy).
  destruct (foldl_minimum_spec l x Hnan) as [Hmin_in Hmin].
  destruct (foldl_maximum_spec l x Hnan) as [Hmax_in Hmax].
  pose proof (Hfin _ Hmin_in) as Fmin. pose proof (Hfin _ Hmax_in) as Fmax.
  assert (Hle : f32_le (foldl minimum x l) (foldl maximum x l) = true).
  { eapply f32_le_trans; [apply Hmin|apply Hmax]; constructor. }
  destruct (foldl minimum x l) as [| |qmin|]; try contradiction.
  destruct (foldl maximum x l) as [| |qmax|]; try contradiction.
  exists qmin, qmax. repeat split; try assumption; try apply Fmin; try apply Fmax.
  apply Qle_bool_iff. exact Hle.
Qed.

Lemma epsilon_bounds :
  (1 # 131072 <= round_f64 (1 # 100000))%Q /\ (round_f64 (1 # 100000) <= 1)%Q.
Proof. split; vm_compute; discriminate. Qed.

(** On finite pixels the float64 denominator is finite, and at least
    [2^-17]. *)
Lemma normalize_denominator_finite (qmin qmax : Q) :
  finite_float32 (Fin qmin) -> finite_float32 (Fin qmax) -> (qmin <= qmax)%Q ->
  exists d,
    normalize_denominator (Fin qmin) (Fin qmax) = Fin d /\
    (1 # 131072 <= d)%Q /\ (d <= inject_Z (2 ^ 130))%Q.
Proof.
  intros [Hmin1 Hmin2] [Hmax1 Hmax2] Hle.
  destruct epsilon_bounds as [Hc1 Hc2].
  unfold normalize_denominator, float_sub, float_neg, float_add.
  destruct (float_round_range float64 (qmax + - qmin) 129) as (E1 & Hlo1 & Hhi1).
  - lia.
  - apply (Qplus_le_r _ _ qmin). ring_simplify. exact Hle.
  - cbn [huge] in *. apply Qlt_le_weak.
    apply (Qlt_le_trans _ (inject_Z (2 ^ 128) + inject_Z (2 ^ 128))).
    + apply Qplus_lt_le_compat; [exact Hmax2|].
      apply Qlt_le_weak. apply (Qplus_lt_r _ _ (qmin - inject_Z (2 ^ 128))).
      ring_simplify. ring_simplify in Hmin1. exact Hmin1.
    + rewrite <- inject_Z_plus, <- Zle_Qle. reflexivity.
  - rewrite E1.
    set (r1 := round_to float64 (qmax + - qmin)) in *.
    destruct (float_round_range float64 (r1 + round_f64 (1 # 100000)) 130)
      as (E2 & Hlo2 & Hhi2).
    + lia.
    + apply (Qle_trans _ (0 + 0)); [apply Qle_refl|].
      apply Qplus_le_compat; [exact Hlo1|].
      eapply Qle_trans; [|exact Hc1]. discriminate.
    + apply (Qle_trans _ (inject_Z (2 ^ 129) + 1)).
      * apply Qplus_le_compat; assumption.
      * vm_compute. discriminate.
    + rewrite E2. eexists. split; [reflexivity|]. split; [|exact Hhi2].
      apply round_to_lower.
      apply (Qle_trans _ (0 + round_f64 (1 # 100000))).
      * rewrite Qplus_0_l. exact Hc1.
      * apply Qplus_le_compat; [exact Hlo1|apply Qle_refl].
Qed.

Lemma float32_bound :
  (round_f64 (inject_Z (34 * 10 ^ 37)) <= inject_Z ((2 ^ 24 - 1) * 2 ^ 104))%Q /\
  (inject_Z ((2 ^ 24 - 1) * 2 ^ 104) < huge float32)%Q.
Proof. split; [vm_compute; discriminate|reflexivity]. Qed.

(** Whatever dtype the division is given, a denominator of at least [2^-17]
    is cast to a divisor that is strictly positive, or to [+inf]. *)
Lemma divisor_lower (t : dtype) (d : Q) :
  (1 # 131072 <= d)%Q ->
  float_cast t (Fin d) = PosInf \/
  exists d', float_cast t (Fin d) = Fin d' /\ (1 # 131072 <= d')%Q.
Proof.
  intros Hd. cbn [float_cast].
  destruct (float_round_nonneg t d) as [E|E].
  - eapply Qle_trans; [|exact Hd]. discriminate.
  - left. exact E.
  - right. exists (round_to t d). split; [exact E|]. apply round_to_lower, Hd.
Qed.

(** The divisor of a finite denominator is finite. *)
Lemma divisor_positive (t : dtype) (d : Q) :
  (1 # 131072 <= d)%Q -> (d <= inject_Z (2 ^ 130))%Q ->
  positive (float_cast (result_type t (Fin d)) (Fin d)).
Proof.
  intros Hlo Hhi.
  assert (H0 : (0 <= d)%Q) by (eapply Qle_trans; [|exact Hlo]; discriminate).
  assert (Hpos : forall r, (1 # 131072 <= r)%Q -> (0 < r)%Q).
  { intros r Hr. eapply Qlt_le_trans; [|exact Hr]. reflexivity. }
  assert (H64 : positive (float_cast float64 (Fin d))).
  { cbn [float_cast].
    destruct (float_round_range float64 d 130) as (E & _ & _); [lia|assumption..|].
    rewrite E. cbn [positive]. apply Hpos, round_to_lower, Hlo. }
  destruct t; [|exact H64].
  unfold result_type. destruct (fits_float32 (Fin d)) eqn:Efit; [|exact H64].
  cbn [float_cast]. unfold fits_float32 in Efit.
  apply andb_prop in Efit as [_ Efit]. apply negb_true_iff in Efit.
  assert (Hlt : (d < round_f64 (inject_Z (34 * 10 ^ 37)))%Q).
  { apply Qnot_le_lt. intros H. apply Qle_bool_iff in H. congruence. }
  destruct float32_bound as [Hb1 Hb2].
  rewrite float_round_in_range.
  - cbn [positive]. apply Hpos, round_to_lower, Hlo.
  - apply round_to_nonneg, H0.
  - eapply Qle_lt_trans; [|exact Hb2].
    rewrite round_to_float. apply round_float_upper; [lia..|].
    eapply Qle_trans; [apply Qlt_le_weak, Hlt|exact Hb1].
Qed.

(** Whatever the pixels, the denominator is NaN, [+inf], or a finite number
    of at least [2^-17]: it is never zero. *)
Lemma normalize_denominator_cases (min max : f32) :
  (isnan min = false -> f32_le min max = true) ->
  match normalize_denominator min max with
  | NaN | PosInf => True
  | NegInf => False
  | Fin d => (1 # 131072 <= d)%Q
  end.
Proof.
  intros Hle. destruct epsilon_bounds as [Hc1 Hc2].
  unfold normalize_denominator, float_sub.
  destruct min as [| |qmin|], max as [| |qmax|]; cbn [float_neg float_add];
    try exact I; try (specialize (Hle eq_refl); discriminate).
  specialize (Hle eq_refl). apply Qle_bool_iff in Hle.
  assert (H0 : (0 <= qmax + - qmin)%Q).
  { apply (Qplus_le_r _ _ qmin). ring_simplify. exact Hle. }
  destruct (float_round_nonneg float64 _ H0) as [E|E]; rewrite E; [exact I|].
  cbn [float_add].
  assert (H1 : (1 # 131072 <= round_to float64 (qmax + - qmin) + round_f64 (1 # 100000))%Q).
  { apply (Qle_trans _ (0 + round_f64 (1 # 100000))).
    - rewrite Qplus_0_l. exact Hc1.
    - apply Qplus_le_compat; [apply round_to_nonneg, H0|apply Qle_refl]. }
  destruct (float_round_nonneg float64 (round_to float64 (qmax + - qmin)
                                        + round_f64 (1 # 100000))) as [E2|E2].
  - eapply Qle_trans; [|exact H1]. discriminate.
  - rewrite E2. exact I.
  - rewrite E2. apply round_to_lower, H1.
Qed.

Lemma float_round_zero (t : dtype) (q : Q) : q == 0 -> float_round t q = Fin 0.
Proof.
  intros E. unfold float_round. cbv zeta. rewrite (round_to_of_zero t q E).
  destruct t; reflexivity.
Qed.

Lemma Qeq_bool_positive (d : Q) : (0 < d)%Q -> Qeq_bool d 0 = false.
Proof.
  intros Hd. destruct (Qeq_bool d 0) eqn:E; [|reflexivity].
  apply Qeq_bool_iff in E. rewrite E in Hd. exfalso. exact (Qlt_irrefl 0 Hd).
Qed.

(** One pixel through the two array operations. *)
Lemma normalize_pixel (t1 t2 : dtype) (q qmin d : Q) :
  (qmin <= q)%Q -> (0 < d)%Q ->
  let v' := float_div t2 (float_add t1 (Fin q) (float_neg (Fin qmin))) (Fin d) in
  f32_le (Fin 0) v' = true /\ ((q <= qmin)%Q -> v' = Fin 0).
Proof.
  intros Hq Hd v'. subst v'. cbn [float_neg float_add].
  assert (H0 : (0 <= q + - qmin)%Q).
  { apply (Qplus_le_r _ _ qmin). ring_simplify. exact Hq. }
  assert (Hd0 : Qle_bool 0 d = true) by (apply Qle_bool_iff, Qlt_le_weak, Hd).
  split.
  - destruct (float_round_nonneg t1 _ H0) as [E|E]; rewrite E.
    + cbn [float_div is_negative]. rewrite Hd0. reflexivity.
    + cbn [float_div]. rewrite (Qeq_bool_positive d Hd).
      destruct (float_round_nonneg t2 (round_to t1 (q + - qmin) / d)) as [E2|E2].
      * apply Qle_shift_div_l; [exact Hd|]. rewrite Qmult_0_l.
        apply round_to_nonneg, H0.
      * rewrite E2. reflexivity.
      * rewrite E2. cbn [f32_le]. apply Qle_bool_iff, round_to_nonneg.
        apply Qle_shift_div_l; [exact Hd|]. rewrite Qmult_0_l.
        apply round_to_nonneg, H0.
  - intros Hle.
    assert (E0 : q + - qmin == 0).
    { apply Qle_antisym; [|exact H0].
      apply (Qplus_le_r _ _ qmin). ring_simplify. exact Hle. }
    rewrite (float_round_zero t1 _ E0). cbn [float_div].
    rewrite (Qeq_bool_positive d Hd). apply float_round_zero.
    unfold Qdiv. apply Qmult_0_l.
Qed.

(** What the normalisation does to a batch of finite pixels. *)
Lemma normalize_batch_finite (batch_image : ndarray f32) :
  buf batch_image <> [] -> Forall finite_float32 (buf batch_image) ->
  exists qmin qmax d d',
    let t1 := result_type float32 (Fin (- qmin)) in
    let t2 := result_type t1 (Fin d) in
    np_min (buf batch_image) = Ok (Fin qmin) /\
    np_max (buf batch_image) = Ok (Fin qmax) /\
    (qmin <= qmax)%Q /\
    (forall v, v ∈ buf batch_image -> f32_le (Fin qmin) v = true) /\
    normalize_denominator (Fin qmin) (Fin qmax) = Fin d /\ (0 < d)%Q /\
    float_cast t2 (Fin d) = Fin d' /\ (0 < d')%Q /\
    normalize_batch batch_image =
      Ok (t2, astype (fun v => float_div t2 v (Fin d'))
                (astype (fun v => float_add t1 v (float_neg (Fin qmin))) batch_image)).
Proof.
  intros Hne Hfin. destruct (buf batch_image) as [|x l] eqn:Ebuf; [congruence|].
  destruct (extremes_finite x l Hfin)
    as (qmin & qmax & Emin & Emax & Hle & Fmin & Fmax & Hall).
  destruct (normalize_denominator_finite qmin qmax Fmin Fmax Hle) as (d & Ed & Hlo & Hhi).
  pose proof (divisor_positive (result_type float32 (Fin (- qmin))) d Hlo Hhi) as Hdiv.
  destruct (float_cast _ (Fin d)) as [| |d'|] eqn:Ecast; try contradiction.
  exists qmin, qmax, d, d'. cbv zeta.
  split; [cbn [np_min]; rewrite Emin; reflexivity|].
  split; [cbn [np_max]; rewrite Emax; reflexivity|].
  split; [exact Hle|]. split; [exact Hall|]. split; [exact Ed|].
  split; [eapply Qlt_le_trans; [|exact Hlo]; reflexivity|].
  split; [exact Ecast|]. split; [exact Hdiv|].
  unfold normalize_batch. rewrite Ebuf. cbn [np_min np_max bind].
  rewrite Emin, Emax, Ed. cbn [float_neg]. rewrite Ecast. reflexivity.
Qed.

(** C10, amended.  Normalising an empty image batch raises before any
    division.  On a batch of finite pixels that is not empty the denominator
    [max - min + 1e-5], computed in float64, is finite and strictly
    positive - also when [max = min] - and so is the value [np.divide]
    divides by, the denominator cast to the dtype of the division.  On any
    batch that is not empty, finite or not, that divisor is not zero. *)
Theorem normalize_denominator_positive (batch_image : ndarray f32) :
  (buf batch_image = [] -> exists e, normalize_batch batch_image = Raise e) /\
  (buf batch_image <> [] -> Forall finite_float32 (buf batch_image) ->
   exists min max t bi,
     np_min (buf batch_image) = Ok min /\
     np_max (buf batch_image) = Ok max /\
     f32_le min max = true /\
     positive (normalize_denominator min max) /\
     normalize_batch batch_image = Ok (t, bi) /\
     positive (float_cast t (normalize_denominator min max)) /\
     buf bi =
       map (fun v => float_div t
                       (float_add (result_type float32 (float_neg min)) v (float_neg min))
                       (float_cast t (normalize_denominator min max)))
           (buf batch_image)) /\
  (forall v, finite_float32 v -> positive (normalize_denominator v v)) /\
  (buf batch_image <> [] ->
   exists min max t bi,
     np_min (buf batch_image) = Ok min /\
     np_max (buf batch_image) = Ok max /\
     normalize_batch batch_image = Ok (t, bi) /\
     is_zero (float_cast t (normalize_denominator min max)) = false).
Proof.
  split; [|split; [|split]].
  - intros E. unfold normalize_batch. rewrite E. simpl. eauto.
  - intros Hne Hfin.
    destruct (normalize_batch_finite batch_image Hne Hfin)
      as (qmin & qmax & d & d' & Emin & Emax & Hle & _ & Ed & Hd & Ecast & Hd' & Erun).
    eexists _, _, _, _. split; [exact Emin|]. split; [exact Emax|].
    split; [apply Qle_bool_iff, Hle|]. rewrite Ed.
    split; [exact Hd|]. split; [exact Erun|]. rewrite Ecast.
    split; [exact Hd'|].
    unfold astype. cbn [buf]. rewrite <- list_fmap_compose. reflexivity.
  - intros [| |q|] Hv; try contradiction.
    destruct (normalize_denominator_finite q q Hv Hv (Qle_refl q)) as (d & Ed & Hlo & _).
    rewrite Ed. eapply Qlt_le_trans; [|exact Hlo]. reflexivity.
  - intros Hne. destruct (buf batch_image) as [|x l] eqn:Ebuf; [congruence|].
    destruct (extremes_ordered x l) as [Hord _].
    pose proof (normalize_denominator_cases _ _ Hord) as Hd.
    eexists _, _, _, _. split; [reflexivity|]. split; [reflexivity|].
    split; [unfold normalize_batch; rewrite Ebuf; reflexivity|].
    destruct (normalize_denominator (foldl minimum x l) (foldl maximum x l))
      as [| |d|]; try reflexivity.
    match goal with |- is_zero (float_cast ?t (Fin d)) = false =>
      destruct (divisor_lower t d Hd) as [E|(d' & E & Hd')]; rewrite E
    end; [reflexivity|].
    cbn [is_zero]. apply Qeq_bool_positive.
    eapply Qlt_le_trans; [|exact Hd']. reflexivity.
Qed.

(** C10 as stated fails on pixels that are not finite: on a batch that is
    constant at [+inf], where [max = min], and on a batch with a NaN in it,
    the denominator [max - min + 1e-5] is NaN, which is not strictly
    positive, and every normalised pixel is NaN. *)
Lemma normalize_denominator_nan :
  buf inf_image <> [] /\
  np_min (buf inf_image) = Ok PosInf /\ np_max (buf inf_image) = Ok PosInf /\
  normalize_denominator PosInf PosInf = NaN /\
  normalize_batch inf_image = Ok (float32, NDArray [1; 3; 1; 1]%nat [NaN; NaN; NaN]) /\
  np_min (buf nan_image) = Ok NaN /\ np_max (buf nan_image) = Ok NaN /\
  normalize_denominator NaN NaN = NaN /\
  normalize_batch nan_image = Ok (float32, NDArray [1; 3; 1; 1]%nat [NaN; NaN; NaN]) /\
  ~ (forall batch_image : ndarray f32,
       buf batch_image <> [] ->
       exists min max,
         np_min (buf batch_image) = Ok min /\ np_max (buf batch_image) = Ok max /\
         positive (normalize_denominator min max)).
Proof.
  repeat (split; [first [discriminate | reflexivity]|]).
  intros H. destruct (H inf_image) as (min & max & Emin & Emax & Hpos); [discriminate|].
  injection Emin as <-. injection Emax as <-. exact Hpos.
Qed.

(** ** The grid image *)

Lemma fold_result_inv {A S} (P : S -> Prop) (f : A -> S -> result S)
    (l : list A) (s s' : S) :
  (forall a s s', a ∈ l -> f a s = Ok s' -> P s -> P s') ->
  P s -> fold_result f l s = Ok s' -> P s'.
Proof.
  revert s. induction l as [|a l IH]; intros s Hstep Hs; simpl.
  - intros [= <-]. exact Hs.
  - destruct (f a s) as [s1|e] eqn:E; simpl; [|discriminate].
    apply IH.
    + intros a' t t' Ha'. apply Hstep. constructor. exact Ha'.
    + eapply Hstep; [constructor|exact E|exact Hs].
Qed.

Lemma fold_result_ok {A S} (P : S -> Prop) (f : A -> S -> result S)
    (l : list A) (s : S) :
  (forall a s, a ∈ l -> P s -> exists s', f a s = Ok s' /\ P s') ->
  P s -> exists s', fold_result f l s = Ok s' /\ P s'.
Proof.
  revert s. induction l as [|a l IH]; intros s Hstep Hs; simpl.
  - eauto.
  - destruct (Hstep a s) as (s1 & E & Hs1); [constructor|exact Hs|].
    rewrite E. simpl. apply IH; [|exact Hs1].
    intros a' t Ha'. apply Hstep. constructor. exact Ha'.
Qed.

(** Writing a block leaves the shape and the size of the grid alone. *)
Lemma write_block_same_grid (grid : ndarray Z) (cols chans r0 c0 h w : nat) (blk : image) :
  same_grid grid (write_block grid cols chans r0 c0 h w blk).
Proof. unfold same_grid, write_block. cbn [shape buf]. rewrite length_imap. auto. Qed.

Lemma set_block_same_grid (grid : ndarray Z) (r0 c0 h w : nat) (blk : picture)
    (grid' : ndarray Z) :
  set_block grid r0 c0 h w blk = Ok grid' -> same_grid grid grid'.
Proof.
  unfold set_block.
  destruct (shape grid) as [|rows [|cols [|chans [|? ?]]]]; try discriminate.
  destruct (bool_decide _); [|discriminate].
  intros [= <-]. apply write_block_same_grid.
Qed.

Lemma broadcast_rev_same (l : list nat) : broadcast_rev l l = Some l.
Proof.
  induction l as [|x l IH]; [reflexivity|].
  simpl. rewrite Nat.eqb_refl, IH. reflexivity.
Qed.

Lemma broadcast_shapes_same (sh : list nat) : broadcast_shapes sh sh = Some sh.
Proof.
  unfold broadcast_shapes. rewrite broadcast_rev_same. simpl.
  rewrite rev_involutive. reflexivity.
Qed.

(** A block of the size of the slices, written inside the grid. *)
Lemma set_block_fits (grid : ndarray Z) (R C r0 c0 h w : nat) (blk : picture) :
  shape grid = [R; C; 3%nat] ->
  (r0 + h <= R)%nat -> (c0 + w <= C)%nat ->
  pshape blk = [h; w; 3%nat] ->
  set_block grid r0 c0 h w blk
  = Ok (write_block grid C 3 r0 c0 h w (broadcast_pixel blk)).
Proof.
  intros Hsh Hr Hc Hblk. unfold set_block. rewrite Hsh, Hblk.
  replace (Nat.min (r0 + h) R - Nat.min r0 R)%nat with h by lia.
  replace (Nat.min (c0 + w) C - Nat.min c0 C)%nat with w by lia.
  rewrite broadcast_shapes_same. rewrite bool_decide_eq_true_2 by reflexivity.
  reflexivity.
Qed.

(** Inside its shape a picture of three channels is read as it is. *)
Lemma broadcast_pixel_inside (blk : picture) (h w y x c : nat) :
  pshape blk = [h; w; 3%nat] -> (y < h)%nat -> (x < w)%nat ->
  broadcast_pixel blk y x c = pixels blk y x c.
Proof.
  intros Hblk Hy Hx. unfold broadcast_pixel. rewrite Hblk. cbn [Nat.eqb].
  destruct (Nat.eqb_spec h 1) as [->|_]; destruct (Nat.eqb_spec w 1) as [->|_];
    repeat match goal with
           | H : (?v < 1)%nat |- _ => assert (v = 0%nat) as -> by lia; clear H
           end; reflexivity.
Qed.

Lemma np_zeros_wf (sh : list nat) : wf (np_zeros sh).
Proof. unfold wf, np_zeros. simpl. apply length_replicate. Qed.

Lemma same_grid_refl (g : ndarray Z) : same_grid g g.
Proof. split; reflexivity. Qed.

Lemma same_grid_trans (g1 g2 g3 : ndarray Z) :
  same_grid g1 g2 -> same_grid g2 g3 -> same_grid g1 g3.
Proof. intros [E1 E2] [F1 F2]. split; congruence. Qed.

Lemma normalize_batch_shape (batch_image bi : ndarray f32) (t : dtype) :
  normalize_batch batch_image = Ok (t, bi) -> shape bi = shape batch_image.
Proof.
  unfold normalize_batch.
  destruct (np_min (buf batch_image)); simpl; [|discriminate].
  destruct (np_max (buf batch_image)); simpl; [|discriminate].
  intros [= _ <-]. reflexivity.
Qed.

Lemma normalize_batch_nonempty (batch_image : ndarray f32) :
  buf batch_image <> [] -> exists t bi, normalize_batch batch_image = Ok (t, bi).
Proof.
  intros Hne. unfold normalize_batch.
  destruct (buf batch_image); [congruence|]. simpl. eauto.
Qed.

(** The batch that is drawn has the shape of the batch that was given. *)
Lemma prepare_batch_shape (batch_image bi : ndarray f32) (normalize : bool) (t : dtype) :
  prepare_batch batch_image normalize = Ok (t, bi) -> shape bi = shape batch_image.
Proof.
  unfold prepare_batch. destruct normalize.
  - apply normalize_batch_shape.
  - intros [= _ <-]. reflexivity.
Qed.

Lemma prepare_batch_ready (batch_image : ndarray f32) (normalize : bool) :
  normalize = false \/ buf batch_image <> [] ->
  exists t bi,
    prepare_batch batch_image normalize = Ok (t, bi) /\ shape bi = shape batch_image.
Proof.
  intros H. unfold prepare_batch.
  destruct normalize; [|eexists _, _; split; reflexivity].
  destruct H as [H|Hne]; [discriminate|].
  destruct (normalize_batch_nonempty batch_image Hne) as (t & bi & E).
  exists t, bi. split; [exact E|]. eapply normalize_batch_shape, E.
Qed.

Section grid.

Context {cv : OpenCV}.

Lemma draw_joint_same_grid (batch_heatmaps : ndarray f32) (preds : ndarray Q)
    (h w i j : nat) (st st' : picture * ndarray Z) :
  draw_joint batch_heatmaps preds h w i j st = Ok st' ->
  same_grid st.2 st'.2.
Proof.
  destruct st as [img g]. unfold draw_joint.
  destruct (item3 preds i j 0) as [x|]; simpl; [|discriminate].
  destruct (item3 preds i j 1) as [y|]; simpl; [|discriminate].
  destruct (circle img _) as [img1|]; simpl; [|discriminate].
  destruct (blend _ img1) as [masked|]; simpl; [|discriminate].
  destruct (circle masked _) as [masked1|]; simpl; [|discriminate].
  destruct (set_block g _ _ _ _ masked1) as [g1|] eqn:E; simpl; [|discriminate].
  intros [= <-]. simpl. eapply set_block_same_grid, E.
Qed.

Lemma draw_sample_same_grid (t : dtype) (batch_image : ndarray f32)
    (batch_heatmaps : ndarray f32)
    (preds : ndarray Q) (k h w i : nat) (g g' : ndarray Z) :
  draw_sample t batch_image batch_heatmaps preds k h w i g = Ok g' ->
  same_grid g g'.
Proof.
  unfold draw_sample.
  destruct (negb (i <? nth 0 (shape batch_image) 0)%nat); [discriminate|].
  destruct (negb (ndim batch_image =? 4)%nat); [discriminate|].
  destruct (resize _ _) as [img0|]; cbn [bind]; [|discriminate].
  match goal with
  | |- context [fold_result ?f ?l ?s] =>
      destruct (fold_result f l s) as [[img g1]|e] eqn:E
  end; cbn [bind]; [|discriminate].
  intros Hset. apply set_block_same_grid in Hset.
  apply (fold_result_inv (fun st => same_grid g st.2)) in E.
  - eapply same_grid_trans; [exact E|exact Hset].
  - intros j st st' _ Hj Hst. apply draw_joint_same_grid in Hj.
    eapply same_grid_trans; eassumption.
  - apply same_grid_refl.
Qed.

(** Either [save_batch_heatmaps] raises without having written anything, or
    it writes one image, the grid. *)
Lemma save_batch_heatmaps_cases (batch_image : ndarray f32) (batch_heatmaps : ndarray f32)
    (file_name : string) (normalize : bool) (w : world) :
  (exists e, save_batch_heatmaps batch_image batch_heatmaps file_name normalize w
             = (Raise e, w)) \/
  (exists b k h wd grid,
     shape batch_heatmaps = [b; k; h; wd] /\
     save_batch_heatmaps batch_image batch_heatmaps file_name normalize w
       = (Ok tt, World (trace w ++ [ImWrite file_name grid]) (dirs w)) /\
     shape grid = [b * h; (k + 1) * wd; 3]%nat /\ wf grid).
Proof.
  unfold save_batch_heatmaps, bindM, lift.
  destruct (prepare_batch batch_image normalize) as [[t bi]|e]; [|left; eauto].
  destruct (shape batch_heatmaps) as [|b [|k [|h [|wd [|? ?]]]]] eqn:Hsh;
    try (left; eexists; reflexivity).
  destruct (get_max_preds batch_heatmaps) as [[preds maxvals]|e]; [|left; eauto].
  match goal with
  | |- context [fold_result ?f ?l ?s] =>
      destruct (fold_result f l s) as [grid|e] eqn:E
  end; [|left; eauto].
  right. exists b, k, h, wd, grid. split; [reflexivity|]. split; [reflexivity|].
  apply (fold_result_inv (fun g => same_grid (np_zeros [b * h; (k + 1) * wd; 3]%nat) g)) in E.
  - destruct E as [E1 E2]. split; [exact E1|].
    unfold wf. rewrite E1, E2. apply np_zeros_wf.
  - intros i g g' _ Hi Hg. apply draw_sample_same_grid in Hi.
    eapply same_grid_trans; eassumption.
  - apply same_grid_refl.
Qed.

Lemma circle_three (img : picture) (center : Z * Z) (h w : nat) :
  pshape img = [h; w; 3%nat] ->
  circle img center = Ok (Picture [h; w; 3%nat] (cv2_circle (pixels img) center)).
Proof. intros E. unfold circle. rewrite E. reflexivity. Qed.

Lemma blend_three (colored_heatmap resized_image : picture) (h w : nat) :
  pshape colored_heatmap = [h; w; 3%nat] -> pshape resized_image = [h; w; 3%nat] ->
  blend colored_heatmap resized_image
  = Ok (Picture [h; w; 3%nat] (blend_pixels colored_heatmap resized_image)).
Proof.
  intros E1 E2. unfold blend. rewrite E1, E2, broadcast_shapes_same. reflexivity.
Qed.

(** [cv2.resize] of a three-channel image that is not empty. *)
Lemma resize_three (img : image) (hi wi h w : nat) :
  (0 < hi)%nat -> (0 < wi)%nat -> (0 < h)%nat -> (0 < w)%nat ->
  resize (Picture [hi; wi; 3%nat] img) (w, h)
  = Ok (Picture [h; w; 3%nat] (cv2_resize img (w, h))).
Proof.
  intros Hhi Hwi Hh Hw. unfold resize. cbn [pshape size_of foldr nth].
  assert (E0 : (hi * (wi * (3 * 1)) =? 0)%nat = false).
  { apply Nat.eqb_neq. pose proof (Nat.mul_pos_pos hi (wi * (3 * 1))). lia. }
  assert (E1 : (w =? 0)%nat = false) by (apply Nat.eqb_neq; lia).
  assert (E2 : (h =? 0)%nat = false) by (apply Nat.eqb_neq; lia).
  rewrite E0, E1, E2. reflexivity.
Qed.

(** A joint of a three-channel sample is drawn when its tile lies inside
    the grid. *)
Lemma draw_joint_returns (batch_heatmaps : ndarray f32) (preds : ndarray Q)
    (h w i j R C : nat) (img : picture) (g : ndarray Z) :
  pshape img = [h; w; 3%nat] -> shape g = [R; C; 3%nat] ->
  (h * i + h <= R)%nat -> (w * (j + 1) + w <= C)%nat ->
  (exists x y, item3 preds i j 0 = Some x /\ item3 preds i j 1 = Some y) ->
  exists img' g',
    draw_joint batch_heatmaps preds h w i j (img, g) = Ok (img', g') /\
    pshape img' = [h; w; 3%nat] /\ shape g' = [R; C; 3%nat].
Proof.
  intros Himg Hg Hr Hc (x & y & Hx & Hy).
  unfold draw_joint. rewrite Hx, Hy. cbn [option_to_result bind].
  rewrite (circle_three img _ h w Himg). cbn [bind].
  rewrite (blend_three _ _ h w) by reflexivity. cbn [bind].
  rewrite (circle_three _ _ h w) by reflexivity. cbn [bind].
  rewrite (set_block_fits g R C) by (assumption || reflexivity). cbn [bind].
  eexists _, _. split; [reflexivity|]. split; [reflexivity|].
  rewrite <- Hg. apply write_block_same_grid.
Qed.

(** A three-channel sample that is not empty is drawn when its row of
    tiles lies inside the grid. *)
Lemma draw_sample_returns (t : dtype) (bi : ndarray f32) (hm : ndarray f32)
    (preds : ndarray Q) (k h wd i R n hi wi : nat) (g : ndarray Z) :
  shape bi = [n; 3%nat; hi; wi] -> (i < n)%nat ->
  (0 < hi)%nat -> (0 < wi)%nat -> (0 < h)%nat -> (0 < wd)%nat ->
  shape g = [R; (k + 1) * wd; 3]%nat -> (h * i + h <= R)%nat ->
  (forall j, (j < k)%nat ->
     exists x y, item3 preds i j 0 = Some x /\ item3 preds i j 1 = Some y) ->
  exists g', draw_sample t bi hm preds k h wd i g = Ok g' /\ shape g' = shape g.
Proof.
  intros Hbi Hi Hhi Hwi Hh Hwd Hg Hrow Hpreds.
  assert (Ei : (i <? n)%nat = true) by (apply Nat.ltb_lt; exact Hi).
  unfold draw_sample, ndim. rewrite Hbi. cbn [nth length Nat.eqb negb]. rewrite Ei.
  cbn [negb]. rewrite resize_three by assumption. cbn [bind].
  set (img0 := Picture _ _).
  destruct (fold_result_ok
              (fun st : picture * ndarray Z =>
                 pshape st.1 = [h; wd; 3%nat] /\ shape st.2 = [R; (k + 1) * wd; 3]%nat)
              (draw_joint hm preds h wd i) (seq 0 k) (img0, g))
    as ([img g1] & E & Himg & Hg1).
  - intros j [img g1] Hj [Himg Hg1]. apply elem_of_seq in Hj. cbn [fst snd] in *.
    destruct (draw_joint_returns hm preds h wd i j R ((k + 1) * wd) img g1)
      as (img' & g' & Erun & Himg' & Hg'); try assumption.
    + assert (wd * (j + 2) <= wd * (k + 1))%nat by (apply Nat.mul_le_mono_l; lia). lia.
    + apply Hpreds. lia.
    + exists (img', g'). auto.
  - split; [reflexivity|exact Hg].
  - rewrite E. cbn [bind fst snd] in *.
    rewrite (set_block_fits g1 R ((k + 1) * wd)); try assumption.
    + eexists. split; [reflexivity|].
      rewrite Hg, <- Hg1. apply write_block_same_grid.
    + assert (1 * wd <= (k + 1) * wd)%nat by (apply Nat.mul_le_mono_r; lia). lia.
Qed.

(** On heatmaps with at least one cell per axis and a three-channel image
    that is not empty for every sample, [save_batch_heatmaps] returns. *)
Lemma save_batch_heatmaps_returns (batch_image : ndarray f32) (batch_heatmaps : ndarray f32)
    (file_name : string) (normalize : bool) (w : world) (b k h wd n hi wi : nat) :
  wf batch_heatmaps -> shape batch_heatmaps = [b; k; h; wd] ->
  (0 < b)%nat -> (0 < k)%nat -> (0 < h)%nat -> (0 < wd)%nat ->
  wf batch_image -> shape batch_image = [n; 3%nat; hi; wi] ->
  (b <= n)%nat -> (0 < hi)%nat -> (0 < wi)%nat ->
  exists w', save_batch_heatmaps batch_image batch_heatmaps file_name normalize w
             = (Ok tt, w').
Proof.
  intros Hwf Hsh Hb Hk Hh Hwd Hwfi Hshi Hn Hhi Hwi.
  destruct (get_max_preds_spec batch_heatmaps b k h wd Hwf Hsh Hb Hk Hh Hwd)
    as (preds & maxvals & Hrun & _ & _ & Hcell).
  assert (Hne : buf batch_image <> []).
  { unfold wf in Hwfi. rewrite Hshi in Hwfi. cbn [size_of foldr] in Hwfi.
    intros E. rewrite E in Hwfi. cbn [length] in Hwfi.
    assert (0 < n * (3 * (hi * (wi * 1))))%nat; [|lia].
    repeat apply Nat.mul_pos_pos; lia. }
  destruct (prepare_batch_ready batch_image normalize (or_intror Hne))
    as (t & bi & Ebi & Hshape).
  unfold save_batch_heatmaps, bindM, lift. rewrite Ebi, Hsh, Hrun.
  match goal with
  | |- context [fold_result ?f ?l ?s] =>
      destruct (fold_result_ok
                  (fun g => shape g = [b * h; (k + 1) * wd; 3]%nat) f l s)
        as (grid & E & _)
  end; [|reflexivity|rewrite E; unfold emit; eauto].
  intros i g Hi Hg. apply elem_of_seq in Hi.
  destruct (draw_sample_returns t bi batch_heatmaps preds k h wd i (b * h) n hi wi g)
    as (g' & Eg & Hg'); try assumption; try lia.
  - congruence.
  - assert (h * (i + 1) <= h * b)%nat by (apply Nat.mul_le_mono_l; lia). lia.
  - intros j Hj.
    destruct (Hcell i j ltac:(lia) Hj) as (a & m & _ & _ & _ & Hx & Hy). eauto.
  - exists g'. split; [exact Eg|congruence].
Qed.

(** C8.  Whenever [save_batch_heatmaps] returns on heatmaps of shape
    [[batch_size; num_joints; heatmap_height; heatmap_width]], the one image
    it has written is a grid of shape
    [(batch_size * heatmap_height, (num_joints + 1) * heatmap_width, 3)];
    and it does return when the heatmaps have at least one cell along every
    axis and the image batch holds a three-channel image that is not empty
    for every sample. *)
Theorem save_batch_heatmaps_grid_shape
    (batch_image : ndarray f32) (batch_heatmaps : ndarray f32)
    (file_name : string) (normalize : bool) (w : world)
    (batch_size num_joints heatmap_height heatmap_width : nat) :
  shape batch_heatmaps = [batch_size; num_joints; heatmap_height; heatmap_width] ->
  (forall w',
     save_batch_heatmaps batch_image batch_heatmaps file_name normalize w = (Ok tt, w') ->
     exists grid_image,
       trace w' = trace w ++ [ImWrite file_name grid_image] /\
       shape grid_image =
         [batch_size * heatmap_height; (num_joints + 1) * heatmap_width; 3]%nat /\
       wf grid_image) /\
  (forall n height width,
     wf batch_heatmaps ->
     (0 < batch_size)%nat -> (0 < num_joints)%nat ->
     (0 < heatmap_height)%nat -> (0 < heatmap_width)%nat ->
     wf batch_image -> shape batch_image = [n; 3%nat; height; width] ->
     (batch_size <= n)%nat -> (0 < height)%nat -> (0 < width)%nat ->
     exists w',
       save_batch_heatmaps batch_image batch_heatmaps file_name normalize w = (Ok tt, w')).
Proof.
  intros Hsh. split.
  - intros w' Hrun.
    destruct (save_batch_heatmaps_cases batch_image batch_heatmaps file_name normalize w)
      as [[e E]|(b & k & h & wd & grid & Hsh' & E & Hgrid & Hwf)].
    + rewrite E in Hrun. discriminate.
    + rewrite E in Hrun. injection Hrun as <-.
      rewrite Hsh in Hsh'. injection Hsh' as -> -> -> ->.
      exists grid. auto.
  - intros. eapply save_batch_heatmaps_returns; eauto.
Qed.

End grid.

(** ** The min-max normalisation: the range *)

(** X5.  On a batch of finite float32 pixels that is not empty the
    normalisation yields no NaN and no negative pixel, and maps every
    darkest pixel to exactly zero; a constant image, where [max = min],
    becomes all zeros. *)
Theorem normalize_batch_range (batch_image : ndarray f32) :
  buf batch_image <> [] -> Forall finite_float32 (buf batch_image) ->
  exists t bi min,
    normalize_batch batch_image = Ok (t, bi) /\
    np_min (buf batch_image) = Ok min /\
    shape bi = shape batch_image /\
    Forall2 (fun v v' => f32_le (Fin 0) v' = true /\ (f32_le v min = true -> v' = Fin 0))
            (buf batch_image) (buf bi) /\
    ((forall v, v ∈ buf batch_image -> f32_le v min = true) ->
     Forall (fun v' => v' = Fin 0) (buf bi)).
Proof.
  intros Hne Hfin.
  destruct (normalize_batch_finite batch_image Hne Hfin)
    as (qmin & qmax & d & d' & Emin & _ & _ & Hall & _ & _ & _ & Hd' & Erun).
  cbv zeta in Erun.
  set (t1 := result_type float32 (Fin (- qmin))) in *.
  set (t2 := result_type t1 (Fin d)) in *.
  assert (Hpix : forall v, v ∈ buf batch_image ->
            let v' := float_div t2 (float_add t1 v (float_neg (Fin qmin))) (Fin d') in
            f32_le (Fin 0) v' = true /\ (f32_le v (Fin qmin) = true -> v' = Fin 0)).
  { intros v Hv. pose proof (Hall v Hv) as Hlo.
    rewrite Forall_forall in Hfin. pose proof (Hfin v Hv) as Fv.
    destruct v as [| |q|]; try contradiction.
    cbn [f32_le] in Hlo. apply Qle_bool_iff in Hlo.
    destruct (normalize_pixel t1 t2 q qmin d' Hlo Hd') as [H1 H2].
    split; [exact H1|]. intros Hle. apply H2. apply Qle_bool_iff. exact Hle. }
  eexists _, _, _. split; [exact Erun|]. split; [exact Emin|].
  split; [reflexivity|].
  unfold astype. cbn [buf]. split.
  - apply Forall2_fmap_r, Forall2_fmap_r, Forall_Forall2_diag.
    apply Forall_forall. intros v Hv. apply Hpix, Hv.
  - intros Hconst. rewrite <- list_fmap_compose. apply Forall_fmap.
    apply Forall_forall. intros v Hv. simpl. apply Hpix; auto.
Qed.

(** ** [save_batch_heatmaps]: failures *)

Lemma fold_result_raise {A S} (P : S -> Prop) (f : A -> S -> result S) (l1 l2 : list A)
    (a : A) (e : exn) (s : S) :
  (forall x s, x ∈ l1 -> P s -> exists s', f x s = Ok s' /\ P s') ->
  (forall s, f a s = Raise e) ->
  P s ->
  fold_result f (l1 ++ a :: l2) s = Raise e.
Proof.
  revert s. induction l1 as [|x l1 IH]; intros s Hok Hraise Hs; simpl.
  - rewrite Hraise. reflexivity.
  - destruct (Hok x s) as (s' & E & Hs'); [constructor|exact Hs|]. rewrite E. simpl.
    apply IH; [|exact Hraise|exact Hs']. intros y t Hy. apply Hok. constructor. exact Hy.
Qed.

Section failures.

Context {cv : OpenCV}.

Lemma draw_sample_out_of_range (t : dtype) (bi : ndarray f32) (hm : ndarray f32)
    (preds : ndarray Q) (k h wd i : nat) (g : ndarray Z) :
  (nth 0 (shape bi) 0 <= i)%nat ->
  draw_sample t bi hm preds k h wd i g = Raise (IndexError "index out of bounds").
Proof.
  intros Hi. unfold draw_sample.
  assert (Ei : (i <? nth 0 (shape bi) 0)%nat = false) by (apply Nat.ltb_ge; lia).
  rewrite Ei. reflexivity.
Qed.

(** X6.  How [save_batch_heatmaps] fails, always before anything is
    written.  With [normalize] on, an empty image batch raises a
    [ValueError] at [min()].  Otherwise heatmaps that do not have four axes
    raise a [ValueError] at the unpacking of the shape, heatmaps with an
    empty axis raise a [ValueError] in the decoder, and a batch of
    three-channel images with fewer images than there are samples raises an
    [IndexError]. *)
Theorem save_batch_heatmaps_failures
    (batch_image : ndarray f32) (batch_heatmaps : ndarray f32)
    (file_name : string) (normalize : bool) (w : world) :
  (normalize = true -> buf batch_image = [] ->
   exists msg,
     save_batch_heatmaps batch_image batch_heatmaps file_name normalize w
     = (Raise (ValueError msg), w)) /\
  (normalize = false \/ buf batch_image <> [] ->
   (ndim batch_heatmaps <> 4%nat ->
    exists msg,
      save_batch_heatmaps batch_image batch_heatmaps file_name normalize w
      = (Raise (ValueError msg), w)) /\
   (forall b k h wd,
      wf batch_heatmaps -> shape batch_heatmaps = [b; k; h; wd] ->
      ((b = 0 \/ k = 0 \/ h = 0 \/ wd = 0)%nat ->
       exists msg,
         save_batch_heatmaps batch_image batch_heatmaps file_name normalize w
         = (Raise (ValueError msg), w)) /\
      (forall n hi wi,
         (0 < b)%nat -> (0 < k)%nat -> (0 < h)%nat -> (0 < wd)%nat ->
         shape batch_image = [n; 3%nat; hi; wi] -> (0 < hi)%nat -> (0 < wi)%nat ->
         (n < b)%nat ->
         exists msg,
           save_batch_heatmaps batch_image batch_heatmaps file_name normalize w
           = (Raise (IndexError msg), w)))).
Proof.
  split.
  - intros -> Hempty.
    unfold save_batch_heatmaps, bindM, lift, prepare_batch, normalize_batch.
    rewrite Hempty. simpl. eauto.
  - intros Hready.
    destruct (prepare_batch_ready batch_image normalize Hready) as (t & bi & Ebi & Hshape).
    unfold save_batch_heatmaps, bindM, lift. rewrite Ebi.
    split.
    + intros Hndim. unfold ndim in Hndim.
      destruct (shape batch_heatmaps) as [|b [|k [|h [|wd [|? ?]]]]];
        try (eexists; reflexivity).
      simpl in Hndim. lia.
    + intros b k h wd Hwf Hsh. rewrite Hsh. split.
      * intros Hzero.
        destruct (get_max_preds_zero_dim batch_heatmaps b k h wd Hwf Hsh Hzero)
          as [msg E].
        rewrite E. eauto.
      * intros n hi wi Hb Hk Hh Hwd Himg Hhi Hwi Hn.
        destruct (get_max_preds_spec batch_heatmaps b k h wd Hwf Hsh Hb Hk Hh Hwd)
          as (preds & maxvals & Hrun & _ & _ & Hcell).
        rewrite Hrun.
        assert (Hseq : seq 0 b = seq 0 n ++ n :: seq (S n) (b - S n)).
        { replace b with (n + S (b - S n))%nat at 1 by lia.
          rewrite seq_app. reflexivity. }
        rewrite Hseq.
        rewrite (fold_result_raise
                   (fun g => shape g = [b * h; (k + 1) * wd; 3]%nat)
                   _ _ _ _ (IndexError "index out of bounds")).
        -- eauto.
        -- intros i g Hi Hg. apply elem_of_seq in Hi. simpl in Hi.
           destruct (draw_sample_returns t bi batch_heatmaps preds k h wd i
                       (b * h) n hi wi g) as (g' & Eg & Hg'); try assumption; try lia.
           ++ congruence.
           ++ assert (h * (i + 1) <= h * b)%nat by (apply Nat.mul_le_mono_l; lia). lia.
           ++ intros j Hj.
              destruct (Hcell i j ltac:(lia) Hj) as (a & m & _ & _ & _ & Hx & Hy).
              eauto.
           ++ exists g'. split; [exact Eg|congruence].
        -- intros g. apply draw_sample_out_of_range.
           rewrite Hshape, Himg. simpl. lia.
        -- reflexivity.
Qed.

(** X7.  The images have to have three channels.  On heatmaps with at
    least one cell along every axis and a batch of images that are not
    empty, images of two or of four channels make the sum
    [colored_heatmap * 0.7 + resized_image * 0.3] of the first joint fail:
    [save_batch_heatmaps] raises a [ValueError] and writes nothing. *)
Theorem save_batch_heatmaps_channels
    (batch_image : ndarray f32) (batch_heatmaps : ndarray f32)
    (file_name : string) (normalize : bool) (w : world)
    (b k h wd n c hi wi : nat) :
  wf batch_heatmaps -> shape batch_heatmaps = [b; k; h; wd] ->
  (0 < b)%nat -> (0 < k)%nat -> (0 < h)%nat -> (0 < wd)%nat ->
  wf batch_image -> shape batch_image = [n; c; hi; wi] ->
  (0 < n)%nat -> (0 < hi)%nat -> (0 < wi)%nat ->
  c = 2%nat \/ c = 4%nat ->
  save_batch_heatmaps batch_image batch_heatmaps file_name normalize w
  = (Raise (ValueError "operands could not be broadcast together"), w).
Proof.
  intros Hwf Hsh Hb Hk Hh Hwd Hwfi Hshi Hn Hhi Hwi Hc.
  destruct (get_max_preds_spec batch_heatmaps b k h wd Hwf Hsh Hb Hk Hh Hwd)
    as (preds & maxvals & Hrun & _ & _ & Hcell).
  assert (Hne : buf batch_image <> []).
  { unfold wf in Hwfi. rewrite Hshi in Hwfi. cbn [size_of foldr] in Hwfi.
    intros E. rewrite E in Hwfi. cbn [length] in Hwfi.
    assert (0 < n * (c * (hi * (wi * 1))))%nat; [|lia].
    repeat apply Nat.mul_pos_pos; lia. }
  destruct (prepare_batch_ready batch_image normalize (or_intror Hne))
    as (t & bi & Ebi & Hshape).
  rewrite Hshi in Hshape.
  unfold save_batch_heatmaps, bindM, lift. rewrite Ebi, Hsh, Hrun.
  destruct b as [|b]; [lia|]. destruct k as [|k]; [lia|].
  destruct (Hcell 0%nat 0%nat ltac:(lia) ltac:(lia)) as (a & m & _ & _ & _ & Hx & Hy).
  assert (Ei : (0 <? n)%nat = true) by (apply Nat.ltb_lt; exact Hn).
  assert (E0 : (hi * (wi * (c * 1)) =? 0)%nat = false).
  { apply Nat.eqb_neq. assert (0 < hi * (wi * (c * 1)))%nat; [|lia].
    repeat apply Nat.mul_pos_pos; lia. }
  assert (E1 : (wd =? 0)%nat = false) by (apply Nat.eqb_neq; lia).
  assert (E2 : (h =? 0)%nat = false) by (apply Nat.eqb_neq; lia).
  cbn [seq fold_result]. unfold draw_sample, ndim. rewrite Hshape.
  cbn [nth length Nat.eqb negb]. rewrite Ei. cbn [negb].
  unfold resize. cbn [pshape size_of foldr nth]. rewrite E0, E1, E2.
  destruct Hc as [-> | ->];
    cbn [orb Nat.ltb Nat.leb Nat.eqb bind fold_result seq];
    unfold draw_joint; rewrite Hx, Hy; reflexivity.
Qed.

End failures.

(** ** [save_batch_heatmaps]: the tiles *)

Lemma fold_result_app {A S} (f : A -> S -> result S) (l1 l2 : list A) (s : S) :
  fold_result f (l1 ++ l2) s = (s' <- fold_result f l1 s ;; fold_result f l2 s').
Proof.
  revert s. induction l1 as [|a l1 IH]; intros s; simpl; [reflexivity|].
  destruct (f a s); simpl; auto.
Qed.

(** Where cell [(r, c, ch)] of a grid with three channels sits in the
    buffer. *)
Lemma flat_index_decompose (C r c ch : nat) :
  (c < C)%nat -> (ch < 3)%nat ->
  let p := ((r * C + c) * 3 + ch)%nat in
  (p / (C * 3) = r /\ (p / 3) mod C = c /\ p mod 3 = ch)%nat.
Proof.
  intros Hc Hch p. subst p. split; [|split].
  - replace ((r * C + c) * 3 + ch)%nat with (r * (C * 3) + (c * 3 + ch))%nat by lia.
    rewrite Nat.div_add_l by lia. rewrite Nat.div_small by lia. lia.
  - rewrite Nat.div_add_l by lia. rewrite Nat.div_small by lia.
    rewrite Nat.add_0_r, Nat.add_comm, Nat.Div0.mod_add. apply Nat.mod_small. exact Hc.
  - rewrite Nat.add_comm, Nat.Div0.mod_add. apply Nat.mod_small. exact Hch.
Qed.

(** Reading a cell after a block has been written. *)
Lemma write_block_item3 (grid : ndarray Z) (R C r0 c0 h w : nat) (blk : image)
    (r c ch : nat) :
  shape grid = [R; C; 3%nat] -> wf grid ->
  (r < R)%nat -> (c < C)%nat -> (ch < 3)%nat ->
  item3 (write_block grid C 3 r0 c0 h w blk) r c ch =
    if ((r0 <=? r) && (r <? r0 + h) && (c0 <=? c) && (c <? c0 + w))%nat
    then Some (to_uint8 (blk (r - r0) (c - c0) ch)%nat)
    else item3 grid r c ch.
Proof.
  intros Hsh Hwf Hr Hc Hch.
  unfold wf in Hwf. rewrite Hsh in Hwf. cbn [size_of foldr] in Hwf.
  pose proof (index_lt r c R C Hr Hc) as H1.
  pose proof (index_lt (r * C + c) ch (R * C) 3 H1 Hch) as H2.
  destruct (lookup_lt_is_Some_2 (buf grid) ((r * C + c) * 3 + ch)%nat) as [old Hold];
    [lia|].
  destruct (flat_index_decompose C r c ch Hc Hch) as (E1 & E2 & E3).
  assert (Er : (r <? R)%nat = true) by (apply Nat.ltb_lt; exact Hr).
  assert (Ec : (c <? C)%nat = true) by (apply Nat.ltb_lt; exact Hc).
  assert (Ech : (ch <? 3)%nat = true) by (apply Nat.ltb_lt; exact Hch).
  unfold item3, write_block. rewrite Hsh. cbn [shape buf].
  rewrite Er, Ec, Ech. cbn [andb].
  rewrite list_lookup_imap, Hold. cbn [fmap option_fmap option_map].
  rewrite E1, E2, E3.
  destruct (_ && _); reflexivity.
Qed.

Lemma write_block_wf (grid : ndarray Z) (cols chans r0 c0 h w : nat) (blk : image)
    (sh : list nat) :
  shape grid = sh -> wf grid ->
  shape (write_block grid cols chans r0 c0 h w blk) = sh /\
  wf (write_block grid cols chans r0 c0 h w blk).
Proof.
  intros Hsh Hwf.
  destruct (write_block_same_grid grid cols chans r0 c0 h w blk) as [E1 E2].
  split; [congruence|]. unfold wf in *. rewrite E1, E2. exact Hwf.
Qed.

(** What an assignment that went through has written. *)
Lemma set_block_Ok (grid grid' : ndarray Z) (R C chans r0 c0 h w : nat) (blk : picture) :
  shape grid = [R; C; chans] ->
  set_block grid r0 c0 h w blk = Ok grid' ->
  grid' = write_block grid C chans r0 c0 h w (broadcast_pixel blk).
Proof.
  intros Hsh. unfold set_block. rewrite Hsh.
  destruct (bool_decide _); [|discriminate]. intros [= <-]. reflexivity.
Qed.

Section tiles.

Context {cv : OpenCV}.

(** Inside the tile the blend is the weighted sum of the two pixels. *)
Lemma blend_pixels_inside (colored_heatmap resized_image : image) (h w y x c : nat) :
  (y < h)%nat -> (x < w)%nat ->
  blend_pixels (Picture [h; w; 3%nat] colored_heatmap)
               (Picture [h; w; 3%nat] resized_image) y x c
  = round_f64 (round_f64 (colored_heatmap y x c * round_f64 (7 # 10))
               + round_f64 (resized_image y x c * round_f64 (3 # 10))).
Proof.
  intros Hy Hx. unfold blend_pixels.
  rewrite !(broadcast_pixel_inside _ h w) by (assumption || reflexivity).
  reflexivity.
Qed.

Lemma resize_three_Ok (img : image) (hi wi h w : nat) (resized_image : picture) :
  resize (Picture [hi; wi; 3%nat] img) (w, h) = Ok resized_image ->
  resized_image = Picture [h; w; 3%nat] (cv2_resize img (w, h)).
Proof.
  unfold resize. cbn [pshape nth Nat.eqb].
  destruct (_ || _); [discriminate|]. intros [= <-]. reflexivity.
Qed.

Variables (t : dtype) (batch_image : ndarray f32) (batch_heatmaps : ndarray f32).
Variables (preds : ndarray Q).
Variables (k h wd R C : nat).

(** The joints of sample [i], from the image [img0]. *)
Lemma draw_joints_tiles (i m : nat) (img0 : image) (img : picture) (g0 g : ndarray Z) :
  fold_result (draw_joint batch_heatmaps preds h wd i) (seq 0 m)
              (Picture [h; wd; 3%nat] img0, g0)
  = Ok (img, g) ->
  shape g0 = [R; C; 3%nat] -> wf g0 ->
  let marked n := foldl (fun im j => cv2_circle im (joint_point preds i j)) img0 (seq 0 n) in
  img = Picture [h; wd; 3%nat] (marked m) /\
  shape g = [R; C; 3%nat] /\ wf g /\
  (forall r c ch, (r < R)%nat -> (c < C)%nat -> (ch < 3)%nat ->
     (forall j, (j < m)%nat ->
        ~ (h * i <= r < h * i + h /\ wd * (j + 1) <= c < wd * (j + 1) + wd)%nat) ->
     item3 g r c ch = item3 g0 r c ch) /\
  (forall j r c ch, (j < m)%nat -> (r < h)%nat -> (c < wd)%nat -> (ch < 3)%nat ->
     (h * i + r < R)%nat -> (wd * (j + 1) + c < C)%nat ->
     item3 g (h * i + r) (wd * (j + 1) + c) ch =
       Some (to_uint8
               (cv2_circle
                  (blend_pixels
                     (Picture [h; wd; 3%nat]
                        (cv2_applyColorMap
                           (fun y x => score_to_uint8 (item4 NaN batch_heatmaps i j y x))))
                     (Picture [h; wd; 3%nat] (marked (S j))))
                  (joint_point preds i j) r c ch))).
Proof.
  intros Hrun Hsh Hwf marked. revert img g Hrun.
  induction m as [|m IH]; intros img g Hrun.
  - simpl in Hrun. injection Hrun as <- <-.
    split; [reflexivity|]. split; [exact Hsh|]. split; [exact Hwf|].
    split; [reflexivity|]. intros; lia.
  - rewrite seq_S, fold_result_app in Hrun. cbn [Nat.add] in Hrun.
    destruct (fold_result _ (seq 0 m) _) as [[img1 g1]|e] eqn:E1;
      cbn [bind] in Hrun; [|discriminate].
    destruct (IH img1 g1 eq_refl) as (Himg & Hsh1 & Hwf1 & Hframe & Htiles).
    cbn [fold_result] in Hrun. unfold draw_joint in Hrun.
    destruct (item3 preds i m 0) as [x|] eqn:Ex; cbn [option_to_result bind] in Hrun;
      [|discriminate].
    destruct (item3 preds i m 1) as [y|] eqn:Ey; cbn [option_to_result bind] in Hrun;
      [|discriminate].
    assert (Hpt : (int_of_Q x, int_of_Q y) = joint_point preds i m)
      by (unfold joint_point; rewrite Ex, Ey; reflexivity).
    rewrite Hpt, Himg in Hrun.
    rewrite (circle_three _ _ h wd) in Hrun by reflexivity. cbn [bind pixels] in Hrun.
    rewrite (blend_three _ _ h wd) in Hrun by reflexivity. cbn [bind] in Hrun.
    rewrite (circle_three _ _ h wd) in Hrun by reflexivity. cbn [bind pixels] in Hrun.
    assert (Hmarked : marked (S m) = cv2_circle (marked m) (joint_point preds i m)).
    { unfold marked. rewrite seq_S, foldl_app. reflexivity. }
    rewrite <- Hmarked in Hrun.
    match type of Hrun with
    | context [set_block g1 ?r0 ?c0 h wd ?blk] =>
        destruct (set_block g1 r0 c0 h wd blk) as [g2|] eqn:E2;
        cbn [bind] in Hrun; [|discriminate];
        apply (set_block_Ok g1 g2 R C 3) in E2; [|exact Hsh1]
    end.
    cbn [bind] in Hrun. injection Hrun as <- <-. subst g2.
    match goal with
    | |- context [write_block g1 C 3 ?r0 ?c0 h wd ?blk] =>
        destruct (write_block_wf g1 C 3 r0 c0 h wd blk _ Hsh1 Hwf1) as [Hsh2 Hwf2]
    end.
    split; [reflexivity|]. split; [exact Hsh2|]. split; [exact Hwf2|].
    split.
    + intros r c ch Hr Hc Hch Hout.
      rewrite (write_block_item3 g1 R C) by assumption.
      destruct (_ && _) eqn:Hin.
      * exfalso. apply (Hout m ltac:(lia)).
        repeat (apply andb_prop in Hin as [Hin ?]).
        repeat match goal with
               | H : (_ <=? _)%nat = true |- _ => apply Nat.leb_le in H
               | H : (_ <? _)%nat = true |- _ => apply Nat.ltb_lt in H
               end.
        lia.
      * apply Hframe; try assumption. intros j Hj. apply Hout. lia.
    + intros j r c ch Hj Hr Hc Hch HrR HcC.
      rewrite (write_block_item3 g1 R C) by assumption.
      destruct (decide (j = m)) as [->|Hjm].
      * assert (Hin : ((h * i <=? h * i + r) && (h * i + r <? h * i + h) &&
                       (wd * (m + 1) <=? wd * (m + 1) + c) &&
                       (wd * (m + 1) + c <? wd * (m + 1) + wd))%nat = true).
        { repeat (apply andb_true_intro; split);
            (apply Nat.leb_le || apply Nat.ltb_lt); lia. }
        rewrite Hin.
        replace (h * i + r - h * i)%nat with r by lia.
        replace (wd * (m + 1) + c - wd * (m + 1))%nat with c by lia.
        rewrite (broadcast_pixel_inside _ h wd) by (assumption || reflexivity).
        reflexivity.
      * assert (Hlt : (j < m)%nat) by lia.
        assert (Hcol : (wd * (j + 1) + c < wd * (m + 1))%nat).
        { assert (wd * (j + 2) <= wd * (m + 1))%nat by (apply Nat.mul_le_mono_l; lia).
          lia. }
        assert (Hin : ((h * i <=? h * i + r) && (h * i + r <? h * i + h) &&
                       (wd * (m + 1) <=? wd * (j + 1) + c) &&
                       (wd * (j + 1) + c <? wd * (m + 1) + wd))%nat = false).
        { apply andb_false_iff. left. apply andb_false_iff. right.
          apply Nat.leb_gt. exact Hcol. }
        rewrite Hin. apply Htiles; assumption.
Qed.

(** One sample of three channels: its row of tiles is written, the other
    rows are left as they were. *)
Lemma draw_sample_tiles (i n hi wi : nat) (g0 g : ndarray Z) :
  shape batch_image = [n; 3%nat; hi; wi] ->
  draw_sample t batch_image batch_heatmaps preds k h wd i g0 = Ok g ->
  shape g0 = [R; C; 3%nat] -> wf g0 ->
  (h * i + h <= R)%nat -> C = ((k + 1) * wd)%nat ->
  shape g = [R; C; 3%nat] /\ wf g /\
  (forall r c ch, (r < R)%nat -> (c < C)%nat -> (ch < 3)%nat ->
     ~ (h * i <= r < h * i + h)%nat ->
     item3 g r c ch = item3 g0 r c ch) /\
  (forall r c ch, (r < h)%nat -> (c < wd)%nat -> (ch < 3)%nat ->
     item3 g (h * i + r) c ch =
       Some (to_uint8 (marked_image t batch_image preds h wd i k r c ch)) /\
     forall j, (j < k)%nat ->
       item3 g (h * i + r) (wd * (j + 1) + c) ch =
         Some (to_uint8 (joint_tile t batch_image batch_heatmaps preds h wd i j r c ch))).
Proof.
  intros Hbi Hrun Hsh Hwf Hrows HC. unfold draw_sample in Hrun.
  destruct (negb (i <? nth 0 (shape batch_image) 0)%nat); [discriminate|].
  destruct (negb (ndim batch_image =? 4)%nat); [discriminate|].
  rewrite Hbi in Hrun. cbn [nth] in Hrun.
  destruct (resize _ _) as [img0|] eqn:E0; cbn [bind] in Hrun; [|discriminate].
  apply resize_three_Ok in E0. subst img0.
  destruct (fold_result _ (seq 0 k) _) as [[img g1]|e] eqn:E1;
    cbn [bind] in Hrun; [|discriminate].
  destruct (draw_joints_tiles i k _ _ _ _ E1 Hsh Hwf)
    as (Himg & Hsh1 & Hwf1 & Hframe & Htiles).
  apply (set_block_Ok g1 g R C 3) in Hrun; [|exact Hsh1]. subst g.
  match goal with
  | |- context [write_block g1 C 3 ?r0 ?c0 h wd ?blk] =>
      destruct (write_block_wf g1 C 3 r0 c0 h wd blk _ Hsh1 Hwf1) as [Hsh2 Hwf2]
  end.
  split; [exact Hsh2|]. split; [exact Hwf2|]. split.
  - intros r c ch Hr Hc Hch Hout.
    rewrite (write_block_item3 g1 R C) by assumption.
    destruct (_ && _) eqn:Hin.
    + exfalso. apply Hout.
      repeat (apply andb_prop in Hin as [Hin ?]).
      repeat match goal with
             | H : (_ <=? _)%nat = true |- _ => apply Nat.leb_le in H
             | H : (_ <? _)%nat = true |- _ => apply Nat.ltb_lt in H
             end.
      lia.
    + apply Hframe; try assumption. intros j Hj [Hc1 _]. apply Hout. exact Hc1.
  - intros r c ch Hr Hc Hch.
    assert (HrR : (h * i + r < R)%nat) by lia.
    assert (Hwd : (1 * wd <= (k + 1) * wd)%nat) by (apply Nat.mul_le_mono_r; lia).
    split.
    + rewrite (write_block_item3 g1 R C) by (assumption || lia).
      assert (Hin : ((h * i <=? h * i + r) && (h * i + r <? h * i + h) &&
                     (0 <=? c) && (c <? 0 + wd))%nat = true).
      { repeat (apply andb_true_intro; split);
          (apply Nat.leb_le || apply Nat.ltb_lt); lia. }
      rewrite Hin, Himg.
      replace (h * i + r - h * i)%nat with r by lia. rewrite Nat.sub_0_r.
      rewrite (broadcast_pixel_inside _ h wd) by (assumption || reflexivity).
      reflexivity.
    + intros j Hj.
      assert (HcC : (wd * (j + 1) + c < C)%nat).
      { assert (wd * (j + 2) <= wd * (k + 1))%nat by (apply Nat.mul_le_mono_l; lia).
        lia. }
      rewrite (write_block_item3 g1 R C) by assumption.
      assert (Hin : ((h * i <=? h * i + r) && (h * i + r <? h * i + h) &&
                     (0 <=? wd * (j + 1) + c) && (wd * (j + 1) + c <? 0 + wd))%nat = false).
      { apply andb_false_iff. right. apply Nat.ltb_ge.
        assert (wd * 1 <= wd * (j + 1))%nat by (apply Nat.mul_le_mono_l; lia). lia. }
      rewrite Hin. apply Htiles; assumption.
Qed.

(** The samples [0 .. b - 1]. *)
Lemma draw_samples_tiles (b n hi wi : nat) (g0 g : ndarray Z) :
  shape batch_image = [n; 3%nat; hi; wi] ->
  fold_result (draw_sample t batch_image batch_heatmaps preds k h wd) (seq 0 b) g0 = Ok g ->
  shape g0 = [R; C; 3%nat] -> wf g0 ->
  (h * b <= R)%nat -> C = ((k + 1) * wd)%nat ->
  shape g = [R; C; 3%nat] /\ wf g /\
  forall i r c ch, (i < b)%nat -> (r < h)%nat -> (c < wd)%nat -> (ch < 3)%nat ->
    item3 g (h * i + r) c ch =
      Some (to_uint8 (marked_image t batch_image preds h wd i k r c ch)) /\
    forall j, (j < k)%nat ->
      item3 g (h * i + r) (wd * (j + 1) + c) ch =
        Some (to_uint8 (joint_tile t batch_image batch_heatmaps preds h wd i j r c ch)).
Proof.
  intros Hbi Hrun Hsh Hwf Hrows HC. revert g Hrun Hrows.
  induction b as [|b IH]; intros g Hrun Hrows.
  - simpl in Hrun. injection Hrun as <-. split; [exact Hsh|]. split; [exact Hwf|].
    intros; lia.
  - rewrite seq_S, fold_result_app in Hrun. cbn [Nat.add] in Hrun.
    destruct (fold_result _ (seq 0 b) g0) as [g1|e] eqn:E1;
      cbn [bind] in Hrun; [|discriminate].
    assert (Hb : (h * b + h <= R)%nat) by lia.
    destruct (IH g1 eq_refl ltac:(lia)) as (Hsh1 & Hwf1 & Hcells).
    cbn [fold_result] in Hrun.
    destruct (draw_sample _ _ _ _ _ _ _ b g1) as [g2|e] eqn:E2;
      cbn [bind] in Hrun; [|discriminate].
    injection Hrun as <-.
    destruct (draw_sample_tiles b n hi wi g1 g2 Hbi E2 Hsh1 Hwf1 Hb HC)
      as (Hsh2 & Hwf2 & Hframe & Hnew).
    split; [exact Hsh2|]. split; [exact Hwf2|].
    intros i r c ch Hi Hr Hc Hch.
    destruct (decide (i = b)) as [->|Hib]; [apply Hnew; assumption|].
    assert (Hlt : (i < b)%nat) by lia.
    assert (Hrow : (h * i + r < h * b)%nat).
    { assert (h * (i + 1) <= h * b)%nat by (apply Nat.mul_le_mono_l; lia). lia. }
    assert (Hwd : (1 * wd <= (k + 1) * wd)%nat) by (apply Nat.mul_le_mono_r; lia).
    destruct (Hcells i r c ch Hlt Hr Hc Hch) as [Hleft Hjoint].
    split.
    + rewrite Hframe; [exact Hleft|lia|lia|exact Hch|lia].
    + intros j Hj.
      assert (HcC : (wd * (j + 1) + c < C)%nat).
      { assert (wd * (j + 2) <= wd * (k + 1))%nat by (apply Nat.mul_le_mono_l; lia).
        lia. }
      rewrite Hframe; [apply Hjoint; exact Hj|lia|exact HcC|exact Hch|lia].
Qed.

End tiles.

(** X8.  What the grid shows for a batch of three-channel images.  Row [i]
    of tiles starts with the resized image of sample [i] and continues with
    one tile per joint.  Because [cv2.circle] draws on the resized image in
    place, the tile of joint [j] is blended from the image carrying the
    markers of the joints [0 .. j], and the leading tile, written last,
    carries the markers of all the joints of the sample. *)
Theorem save_batch_heatmaps_tiles {cv : OpenCV}
    (batch_image : ndarray f32) (batch_heatmaps : ndarray f32)
    (file_name : string) (normalize : bool) (w w' : world)
    (batch_size num_joints heatmap_height heatmap_width n height width : nat) :
  shape batch_heatmaps = [batch_size; num_joints; heatmap_height; heatmap_width] ->
  shape batch_image = [n; 3%nat; height; width] ->
  save_batch_heatmaps batch_image batch_heatmaps file_name normalize w = (Ok tt, w') ->
  exists grid_image t images preds maxvals,
    trace w' = trace w ++ [ImWrite file_name grid_image] /\
    prepare_batch batch_image normalize = Ok (t, images) /\
    get_max_preds batch_heatmaps = Ok (preds, maxvals) /\
    forall i r c ch,
      (i < batch_size)%nat -> (r < heatmap_height)%nat ->
      (c < heatmap_width)%nat -> (ch < 3)%nat ->
      item3 grid_image (heatmap_height * i + r) c ch =
        Some (to_uint8 (marked_image t images preds heatmap_height heatmap_width
                                     i num_joints r c ch)) /\
      forall j, (j < num_joints)%nat ->
        item3 grid_image (heatmap_height * i + r) (heatmap_width * (j + 1) + c) ch =
          Some (to_uint8 (joint_tile t images batch_heatmaps preds
                                     heatmap_height heatmap_width i j r c ch)) /\
        forall colored_heatmap resized_image,
          blend_pixels (Picture [heatmap_height; heatmap_width; 3%nat] colored_heatmap)
                       (Picture [heatmap_height; heatmap_width; 3%nat] resized_image) r c ch
          = round_f64 (round_f64 (colored_heatmap r c ch * round_f64 (7 # 10))
                       + round_f64 (resized_image r c ch * round_f64 (3 # 10))).
Proof.
  intros Hsh Hbi. unfold save_batch_heatmaps, bindM, lift.
  destruct (prepare_batch batch_image normalize) as [[t bi]|e] eqn:Ebi; [|discriminate].
  rewrite Hsh.
  destruct (get_max_preds batch_heatmaps) as [[preds maxvals]|e]; [|discriminate].
  match goal with
  | |- context [fold_result ?f ?l ?s] =>
      destruct (fold_result f l s) as [grid|e] eqn:E
  end; [|discriminate].
  intros [= <-]. exists grid, t, bi, preds, maxvals.
  split; [reflexivity|]. split; [reflexivity|]. split; [reflexivity|].
  assert (Hshape : shape bi = [n; 3%nat; height; width])
    by (rewrite (prepare_batch_shape _ _ _ _ Ebi); exact Hbi).
  destruct (draw_samples_tiles t bi batch_heatmaps preds num_joints heatmap_height
              heatmap_width (batch_size * heatmap_height)
              ((num_joints + 1) * heatmap_width) batch_size n height width _ grid
              Hshape E) as (_ & _ & Hcells).
  - reflexivity.
  - apply np_zeros_wf.
  - lia.
  - reflexivity.
  - intros i r c ch Hi Hr Hc Hch.
    destruct (Hcells i r c ch Hi Hr Hc Hch) as [Hleft Hjoint].
    split; [exact Hleft|]. intros j Hj. split; [apply Hjoint, Hj|].
    intros colored_heatmap resized_image.
    apply blend_pixels_inside; assumption.
Qed.

(** X9.  The markers are drawn inside the tiles: while every flat index
    fits a float32, the point [(int(preds[i][j][0]), int(preds[i][j][1]))]
    that [save_batch_heatmaps] hands to [cv2.circle] is a column below the
    width and a row below the height of the heatmap, for every joint of
    every sample. *)
Theorem joint_point_inside
    (a : ndarray f32) (N K H W : nat) (preds : ndarray Q) (maxvals : ndarray f32) :
  wf a -> shape a = [N; K; H; W] ->
  (0 < H)%nat -> (0 < W)%nat ->
  Z.of_nat (H * W) <= 2 ^ 24 ->
  get_max_preds a = Ok (preds, maxvals) ->
  forall i j, (i < N)%nat -> (j < K)%nat ->
    0 <= (joint_point preds i j).1 < Z.of_nat W /\
    0 <= (joint_point preds i j).2 < Z.of_nat H.
Proof.
  intros Hwf Hsh HH HW Hbound Hrun i j Hi Hj.
  destruct (get_max_preds_spec a N K H W Hwf Hsh) as
    (preds' & maxvals' & Hrun' & _ & _ & Hcell); try lia.
  rewrite Hrun in Hrun'. injection Hrun' as <- <-.
  destruct (Hcell i j Hi Hj) as (p & m & Hargmax & Hamax & Hm & Hx & Hy).
  unfold joint_point. rewrite Hx, Hy. cbn [from_option id fst snd].
  apply argmax_row_first_max, first_max_lt_length in Hargmax.
  rewrite (heatmap_of_length a N K H W) in Hargmax by assumption.
  destruct (f32_gt m f32_zero) eqn:Hmask.
  - destruct (decoded_exact H W p m Hbound Hargmax Hmask) as [Ex Ey].
    apply int_of_Q_int in Ex, Ey. rewrite Ex, Ey.
    pose proof (Nat.mod_upper_bound p W ltac:(lia)) as Hmod.
    assert (Hdiv : (p / W < H)%nat) by (apply Nat.Div0.div_lt_upper_bound; lia).
    lia.
  - rewrite !decoded_masked by assumption.
    change (int_of_Q 0) with 0. lia.
Qed.

(** ** What every run of [train] respects *)

Lemma images_written_app (t1 t2 : list event) :
  images_written (t1 ++ t2) = images_written t1 ++ images_written t2.
Proof. unfold images_written. apply omap_app. Qed.

Section respects.

Context {cv : OpenCV}.

(** A preorder on worlds that every harmless event respects. *)
Variable R : world -> world -> Prop.
Hypothesis R_refl : forall w, R w w.
Hypothesis R_trans : forall w1 w2 w3, R w1 w2 -> R w2 w3 -> R w1 w3.
Hypothesis R_event :
  forall w e d, no_other_image e -> R w (World (trace w ++ [e]) d).

Lemma respects_ret {A} (a : A) : respects R (ret a).
Proof. intros w r w' [= <- <-]. apply R_refl. Qed.

Lemma respects_raise {A} (e : exn) : respects R (@raise A e).
Proof. intros w r w' [= <- <-]. apply R_refl. Qed.

Lemma respects_lift {A} (x : result A) : respects R (lift x).
Proof. intros w r w' [= <- <-]. apply R_refl. Qed.

Lemma respects_isdir (path : string) : respects R (isdir path).
Proof. intros w r w' [= <- <-]. apply R_refl. Qed.

Lemma respects_emit (e : event) : no_other_image e -> respects R (emit e).
Proof. intros He w r w' [= <- <-]. apply R_event, He. Qed.

Lemma respects_makedirs (path : string) : respects R (makedirs path).
Proof. intros w r w' [= <- <-]. apply R_event. intros f img [=]. Qed.

Lemma respects_bind {A B} (m : M A) (k : A -> M B) :
  respects R m -> (forall a, respects R (k a)) -> respects R (bindM m k).
Proof.
  intros Hm Hk w r w' Hrun. unfold bindM in Hrun.
  destruct (m w) as [[a|e] w1] eqn:E.
  - eapply R_trans; [eapply Hm, E|eapply Hk, Hrun].
  - injection Hrun as <- <-. eapply Hm, E.
Qed.

Lemma respects_for_each {A} (l : list A) (body : A -> M unit) :
  (forall x, respects R (body x)) -> respects R (for_each l body).
Proof.
  intros Hbody. induction l as [|x l IH]; simpl.
  - apply respects_ret.
  - apply respects_bind; auto.
Qed.

Lemma respects_if {A} (b : bool) (m1 m2 : M A) :
  respects R m1 -> respects R m2 -> respects R (if b then m1 else m2).
Proof. destruct b; auto. Qed.

#[local] Hint Resolve respects_ret respects_raise respects_lift respects_isdir
  respects_makedirs respects_for_each respects_if : core.
#[local] Hint Extern 1 (respects _ (emit _)) =>
  apply respects_emit; intros ? ? [=] : core.

Ltac respects_step :=
  repeat first [ solve [auto] | apply respects_bind; [|intros ?] ].

Lemma respects_save (batch_image : ndarray f32) (batch_heatmaps : ndarray f32)
    (normalize : bool) :
  respects R
    (save_batch_heatmaps batch_image batch_heatmaps visualization_file normalize).
Proof.
  intros w r w' Hrun.
  destruct (save_batch_heatmaps_cases batch_image batch_heatmaps
              visualization_file normalize w)
    as [[e E]|(b & k & h & wd & grid & _ & E & _)];
    rewrite E in Hrun; injection Hrun as <- <-; [apply R_refl|].
  apply R_event. intros f img [= <- _]. reflexivity.
Qed.

Lemma respects_train_batch (pass_id batch_id : nat) (data : fetched) :
  respects R (train_batch pass_id batch_id data).
Proof.
  unfold train_batch. respects_step.
  apply respects_if; [apply respects_save|apply respects_ret].
Qed.

Lemma respects_train_epoch (args : Args.t) (pass_id : nat) (batches : list fetched) :
  respects R (train_epoch args pass_id batches).
Proof.
  unfold train_epoch. respects_step.
  apply respects_for_each. intros x. apply respects_train_batch.
Qed.

Lemma respects_optimizer_setting (args : Args.t) (params : Params.t) :
  respects R (optimizer_setting args params).
Proof.
  unfold optimizer_setting.
  destruct (Strategy.name (Params.learning_strategy params) =? "piecewise_decay")%string;
    respects_step.
Qed.

Lemma respects_select_dataset (args : Args.t) :
  respects R (select_dataset args).
Proof.
  unfold select_dataset.
  destruct (Args.dataset args =? "coco")%string; [respects_step|].
  destruct (Args.dataset args =? "mpii")%string; respects_step.
Qed.

(** What [train] does once the model is built. *)
Lemma respects_train_from_optimizer (cfg : dataset_config) (params : Params.t)
    (k : optimizer * Params.t -> M unit) :
  (forall op, respects R (k op)) ->
  respects R (bindM (optimizer_setting (config_args cfg) params) k).
Proof.
  intros Hk. apply respects_bind; [apply respects_optimizer_setting|exact Hk].
Qed.

Lemma respects_train_loop (args : Args.t) (n : Z) (batches : nat -> list fetched) :
  respects R
    (for_each (range n) (fun pass_id => train_epoch args pass_id (batches pass_id))).
Proof. apply respects_for_each. intros pass_id. apply respects_train_epoch. Qed.

Lemma respects_train (args : Args.t) (batches : nat -> list fetched) :
  respects R (train args batches).
Proof.
  unfold train.
  apply respects_bind; [apply respects_select_dataset|intros cfg].
  do 6 (apply respects_bind; [respects_step|intros ?]).
  apply respects_train_from_optimizer. intros [o p].
  respects_step.
  - cbn [Args.pretrained_model set_pretrained_model String.eqb Ascii.eqb Bool.eqb].
    respects_step.
  - match goal with |- context [Args.checkpoint ?a] => destruct (Args.checkpoint a) end;
      respects_step.
  - apply respects_train_loop.
Qed.

Lemma bindM_Ok {A B} (m : M A) (k : A -> M B) (w w1 : world) (a : A) :
  m w = (Ok a, w1) -> bindM m k w = k a w1.
Proof. intros E. unfold bindM. rewrite E. reflexivity. Qed.

Lemma bindM_emit {B} (e : event) (k : unit -> M B) (w : world) :
  bindM (emit e) k w = k tt (World (trace w ++ [e]) (dirs w)).
Proof. reflexivity. Qed.

(** Once the dataset is settled, [train] declares the three inputs and
    builds the network before anything else. *)
Lemma train_declares_inputs (args : Args.t) (batches : nat -> list fetched)
    (cfg : dataset_config) (w w1 : world) (r : result unit) (w' : world) :
  select_dataset args w = (Ok cfg, w1) ->
  train args batches w = (r, w') ->
  exists w6,
    trace w6 =
      trace w1 ++
      [PrintArguments (config_args cfg);
       LayersData "image"
         [3; nth 1 (IMAGE_SIZE cfg) 0; nth 0 (IMAGE_SIZE cfg) 0] "float32";
       LayersData "target"
         [Args.kp_dim (config_args cfg);
          nth 1 (HEATMAP_SIZE cfg) 0; nth 0 (HEATMAP_SIZE cfg) 0] "float32";
       LayersData "target_weight" [Args.kp_dim (config_args cfg); 1] "float32";
       ResNet 50 (Args.kp_dim (config_args cfg));
       ModelNet] /\
    R w6 w'.
Proof.
  intros Hcfg Hrun. unfold train in Hrun.
  rewrite (bindM_Ok _ _ _ _ _ Hcfg), !bindM_emit in Hrun.
  eexists. split; cycle 1.
  - refine (respects_bind _ _ _ _ _ _ _ Hrun).
    + apply respects_optimizer_setting.
    + intros [o p]. respects_step.
      * cbn [Args.pretrained_model set_pretrained_model String.eqb Ascii.eqb Bool.eqb].
        respects_step.
      * match goal with |- context [Args.checkpoint ?a] => destruct (Args.checkpoint a) end;
          respects_step.
      * apply respects_train_loop.
  - cbn [trace]. rewrite <- !app_assoc. reflexivity.
Qed.

End respects.

(** No run of [train], finished or not, leaves an image under another
    name. *)
Lemma one_file_kept_train {cv : OpenCV} (args : Args.t) (batches : nat -> list fetched) :
  respects one_file_kept (train args batches).
Proof.
  apply respects_train.
  - intros w Hw. exact Hw.
  - intros w1 w2 w3 H12 H23 Hw. auto.
  - intros w e d He Hw. unfold only_visualization_file in *. simpl.
    rewrite images_written_app. apply Forall_app. split; [exact Hw|].
    destruct e; simpl; try constructor; [|constructor].
    eapply He. reflexivity.
Qed.

(** Whatever [train] does, it only adds to the trace. *)
Lemma trace_extended_refl (w : world) : trace_extended w w.
Proof. exists []. rewrite app_nil_r. reflexivity. Qed.

Lemma trace_extended_trans (w1 w2 w3 : world) :
  trace_extended w1 w2 -> trace_extended w2 w3 -> trace_extended w1 w3.
Proof.
  intros [t1 E1] [t2 E2]. exists (t1 ++ t2). rewrite E2, E1, app_assoc. reflexivity.
Qed.

Lemma trace_extended_event (w : world) (e : event) (d : gset string) :
  no_other_image e -> trace_extended w (World (trace w ++ [e]) d).
Proof. intros _. exists [e]. reflexivity. Qed.

(** ** The visualisation file *)

Section visualization_file.

Context {cv : OpenCV}.

Lemma train_batch_prefix (pass_id batch_id : nat) (data : fetched) (w : world) :
  exists w3,
    images_written (trace w3) = images_written (trace w) /\
    train_batch pass_id batch_id data w =
      (if (batch_id mod 10 =? 0)%nat
       then save_batch_heatmaps (input_image data) (out_heatmaps data)
                                visualization_file true
       else ret tt) w3.
Proof.
  eexists. split; [|reflexivity]. simpl.
  rewrite !images_written_app. simpl. rewrite !app_nil_r. reflexivity.
Qed.

Lemma train_batch_returns (pass_id batch_id : nat) (data : fetched) (w : world) :
  drawable data -> exists w', train_batch pass_id batch_id data w = (Ok tt, w').
Proof.
  intros (Hwf & Hwfi & b & k & h & wd & n & hi & wi & Hsh & Hshi &
          Hb & Hk & Hh & Hwd & Hn & Hhi & Hwi).
  destruct (train_batch_prefix pass_id batch_id data w) as (w3 & _ & Hstep).
  rewrite Hstep. destruct (batch_id mod 10 =? 0)%nat; [|unfold ret; eauto].
  eapply save_batch_heatmaps_returns; eauto.
Qed.

(** C9.  One step of the batch loop that returns has written exactly one
    image when the batch index is a multiple of 10 and none otherwise, always
    to ['visualization@train.jpg']; a step that raises has written none; and
    a step returns when the fetched batch can be drawn: heatmaps with at
    least one cell along every axis and a three-channel image that is not
    empty for every sample.  Over a whole run of [train], no image is ever
    written under another name. *)
Theorem train_batch_visualization
    (pass_id batch_id : nat) (data : fetched) (w : world) :
  (forall w',
     train_batch pass_id batch_id data w = (Ok tt, w') ->
     images_written (trace w') =
       images_written (trace w) ++
       (if (batch_id mod 10 =? 0)%nat then ["visualization@train.jpg"] else [])) /\
  (forall e w',
     train_batch pass_id batch_id data w = (Raise e, w') ->
     images_written (trace w') = images_written (trace w)) /\
  (drawable data ->
   exists w', train_batch pass_id batch_id data w = (Ok tt, w')) /\
  (forall args batches r w',
     train args batches w = (r, w') ->
     Forall (fun f => f = "visualization@train.jpg") (images_written (trace w)) ->
     Forall (fun f => f = "visualization@train.jpg") (images_written (trace w'))).
Proof.
  destruct (train_batch_prefix pass_id batch_id data w) as (w3 & Hw3 & Hstep).
  split; [|split; [|split]].
  - intros w' Hrun. rewrite Hstep in Hrun.
    destruct (batch_id mod 10 =? 0)%nat.
    + destruct (save_batch_heatmaps_cases (input_image data) (out_heatmaps data)
                  visualization_file true w3)
        as [[e E]|(b & k & h & wd & grid & _ & E & _)];
        rewrite E in Hrun; [discriminate|].
      injection Hrun as <-. simpl. rewrite images_written_app, Hw3. reflexivity.
    + injection Hrun as <-. rewrite app_nil_r. exact Hw3.
  - intros e w' Hrun. rewrite Hstep in Hrun.
    destruct (batch_id mod 10 =? 0)%nat; [|discriminate].
    destruct (save_batch_heatmaps_cases (input_image data) (out_heatmaps data)
                visualization_file true w3)
      as [[e' E]|(b & k & h & wd & grid & _ & E & _)];
      rewrite E in Hrun; [|discriminate].
    injection Hrun as _ <-. exact Hw3.
  - apply train_batch_returns.
  - intros args batches r w' Hrun Hw.
    exact (one_file_kept_train args batches w r w' Hrun Hw).
Qed.

End visualization_file.

(** ** [optimizer_setting] and [train]: configuration *)

Lemma int_of_Q_between (q : Q) (z : Z) :
  0 <= z -> (inject_Z z <= q)%Q -> (q < inject_Z (z + 1))%Q -> int_of_Q q = z.
Proof.
  intros Hz Hlo Hhi. unfold Qle, Qlt in *. simpl in *. rewrite Z.mul_1_r in *.
  unfold int_of_Q.
  assert (0 <= z * Zpos (Qden q)) by (apply Z.mul_nonneg_nonneg; lia).
  rewrite Z.quot_div_nonneg by lia. apply div_between; lia.
Qed.

Lemma int_of_Q_dyadic (r : Q) (z j : Z) :
  0 <= z -> 0 <= j ->
  (z * 2 ^ j # Z.to_pos (2 ^ j) <= r)%Q ->
  (r <= (z + 1) * 2 ^ j - 1 # Z.to_pos (2 ^ j))%Q ->
  int_of_Q r = z.
Proof.
  intros Hz Hj Hlo Hhi. pose proof (pow2_pos j Hj) as HJ.
  unfold Qle in Hlo, Hhi. simpl in Hlo, Hhi. rewrite Z2Pos.id in Hlo, Hhi by lia.
  set (J := 2 ^ j) in *. clearbody J.
  set (d := Zpos (Qden r)) in *. assert (Hd : 0 < d) by (unfold d; lia).
  apply int_of_Q_between; [assumption| |]; unfold Qle, Qlt; simpl; fold d;
    rewrite Z.mul_1_r.
  - apply (Z.mul_le_mono_pos_r _ _ J); [assumption|].
    replace (z * d * J) with (z * J * d) by ring. assumption.
  - apply (Z.mul_lt_mono_pos_r J); [assumption|].
    apply (Z.le_lt_trans _ (((z + 1) * J - 1) * d)); [assumption|].
    replace ((z + 1) * d * J) with ((z + 1) * J * d) by ring.
    apply Z.mul_lt_mono_pos_r; lia.
Qed.

Lemma dyadic_plus_one (v : Q) (a b J : Z) :
  0 < J ->
  (a # Z.to_pos J <= v)%Q -> (v <= b # Z.to_pos J)%Q ->
  (a + J # Z.to_pos J <= v + 1)%Q /\ (v + 1 <= b + J # Z.to_pos J)%Q.
Proof.
  intros HJ Hlo Hhi.
  assert (E : forall c, (c + J # Z.to_pos J) == (c # Z.to_pos J) + 1).
  { intros c. unfold Qeq, Qplus. cbn [Qnum Qden].
    rewrite !Pos2Z.inj_mul, !Z2Pos.id by lia. ring. }
  rewrite !E. split; apply Qplus_le_compat; assumption || apply Qle_refl.
Qed.

Lemma quotient_window (t b : Z) :
  0 <= t -> 0 < b ->
  0 <= t / b <= t /\ t / b * b <= t < (t / b + 1) * b.
Proof.
  intros Ht Hb.
  pose proof (Z.div_mod t b ltac:(lia)) as Hdm.
  pose proof (Z.mod_pos_bound t b Hb) as Hr.
  assert (H0 : 0 <= t / b) by (apply Z.div_pos; lia).
  assert (H1 : t / b * 1 <= t / b * b) by (apply Z.mul_le_mono_nonneg_l; lia).
  lia.
Qed.

(** The float64 step below [2^26]: the quotient rounds to a float between
    the same two integers, and so does the sum. *)
Lemma steps_per_epoch_float_eq (total_images batch_size : Z) :
  0 <= total_images < 2 ^ 26 -> 0 < batch_size <= 2 ^ 26 ->
  steps_per_epoch_float total_images batch_size = total_images / batch_size + 1.
Proof.
  intros [Ht Ht26] [Hb Hb26].
  destruct (quotient_window total_images batch_size Ht Hb) as [Hk Hkb].
  set (k := total_images / batch_size) in *. clearbody k.
  assert (Ex : inject_Z total_images / inject_Z batch_size
               == total_images # Z.to_pos batch_size).
  { rewrite Qmake_Qdiv. rewrite Z2Pos.id by lia. reflexivity. }
  unfold steps_per_epoch_float, round_f64.
  assert (HJ : 0 < 2 ^ 26) by reflexivity.
  assert (H53 : 2 ^ 53 = 2 ^ 26 * (2 ^ 26 * 2)) by reflexivity.
  set (J := 2 ^ 26) in *.
  assert (HkJ : (k + 2) * J <= J * (J * 2)).
  { rewrite (Z.mul_comm (k + 2)). apply Z.mul_le_mono_nonneg_l; lia. }
  assert (Hwin : (k * J # Z.to_pos J <= inject_Z total_images / inject_Z batch_size)%Q /\
                 (inject_Z total_images / inject_Z batch_size
                  <= (k + 1) * J - 1 # Z.to_pos J)%Q).
  { rewrite Ex. unfold Qle. simpl. rewrite !Z2Pos.id by lia. split.
    - replace (k * J * batch_size) with (k * batch_size * J) by ring.
      apply Z.mul_le_mono_nonneg_r; lia.
    - apply (Z.le_trans _ (((k + 1) * batch_size - 1) * J)).
      + apply Z.mul_le_mono_nonneg_r; lia.
      + assert (batch_size * 1 <= batch_size * ((k + 1) * J - 1) -
                                  ((k + 1) * batch_size - 1) * J + batch_size * 1)
          by (ring_simplify; lia).
        lia. }
  destruct Hwin as [Hlo Hhi].
  destruct (round_float_dyadic 53 (-1022) 26 (k * J) ((k + 1) * J - 1) _
              ltac:(lia) ltac:(lia) ltac:(lia) ltac:(lia) ltac:(lia) Hlo Hhi)
    as [Hlo' Hhi'].
  destruct (dyadic_plus_one _ _ _ J HJ Hlo' Hhi') as [Hlo1 Hhi1].
  replace (k * J + J) with ((k + 1) * J) in Hlo1 by ring.
  replace ((k + 1) * J - 1 + J) with ((k + 1 + 1) * J - 1) in Hhi1 by ring.
  destruct (round_float_dyadic 53 (-1022) 26 ((k + 1) * J) ((k + 1 + 1) * J - 1) _
              ltac:(lia) ltac:(lia) ltac:(lia) ltac:(lia) ltac:(lia) Hlo1 Hhi1)
    as [Hlo2 Hhi2].
  apply (int_of_Q_dyadic _ (k + 1) 26); [lia|lia|assumption|assumption].
Qed.

(** The quotient of two integers is no larger than the dividend. *)
Lemma Qdiv_int_bounds (t b B : Z) :
  b <> 0 -> - B <= t <= B ->
  (- inject_Z B <= inject_Z t / inject_Z b)%Q /\ (inject_Z t / inject_Z b <= inject_Z B)%Q.
Proof.
  intros Hb Ht. unfold Qdiv, Qinv, Qmult, Qle, inject_Z, Qopp.
  destruct b as [|p|p]; [congruence| |]; cbn [Qnum Qden Z.opp]; split; nia.
Qed.

(** The division goes through while the dividend is below [2^26]. *)
Lemma true_divide_small (total_images batch_size : Z) :
  - 2 ^ 26 <= total_images <= 2 ^ 26 -> batch_size <> 0 ->
  true_divide total_images batch_size
  = Ok (round_f64 (inject_Z total_images / inject_Z batch_size)).
Proof.
  intros Ht Hb. unfold true_divide.
  destruct (Z.eqb_spec batch_size 0) as [E|_]; [contradiction|]. cbv zeta.
  rewrite Qle_bool_false; [reflexivity|].
  destruct (Qdiv_int_bounds total_images batch_size (2 ^ 26) Hb Ht) as [Hlo Hhi].
  set (q := (inject_Z total_images / inject_Z batch_size)%Q) in *.
  apply Qabs_Qlt_condition. split.
  - apply (Qlt_le_trans _ (- inject_Z (2 ^ 26))); [reflexivity|].
    assert (H : (round_f64 (- q) <= inject_Z (1 * 2 ^ 26))%Q).
    { apply round_float_upper; try lia.
      apply (Qopp_le_compat (- inject_Z (2 ^ 26))) in Hlo.
      rewrite Qopp_involutive in Hlo. exact Hlo. }
    unfold round_f64 in H. rewrite round_float_opp in H.
    apply Qopp_le_compat in H. rewrite Qopp_involutive in H. exact H.
  - apply (Qle_lt_trans _ (inject_Z (1 * 2 ^ 26))); [|reflexivity].
    apply round_float_upper; try lia. exact Hhi.
Qed.

Lemma steps_per_epoch_Ok (total_images batch_size : Z) (q : Q) :
  true_divide total_images batch_size = Ok q ->
  steps_per_epoch total_images batch_size
  = Ok (steps_per_epoch_float total_images batch_size).
Proof.
  unfold steps_per_epoch, steps_per_epoch_float. intros E. rewrite E. cbn [bind].
  unfold true_divide in E.
  destruct (batch_size =? 0); [discriminate|].
  destruct (Qle_bool _ _); [discriminate|].
  injection E as <-. reflexivity.
Qed.

(** How the step comes out: the two errors of the division, or the float64
    step. *)
Lemma steps_per_epoch_cases (total_images batch_size : Z) :
  let q := round_f64 (inject_Z total_images / inject_Z batch_size) in
  (batch_size = 0 /\
   steps_per_epoch total_images batch_size
   = Raise (ZeroDivisionError "division by zero")) \/
  (batch_size <> 0 /\ (huge float64 <= Qabs q)%Q /\
   steps_per_epoch total_images batch_size
   = Raise (OverflowError "integer division result too large for a float")) \/
  (batch_size <> 0 /\ (Qabs q < huge float64)%Q /\
   steps_per_epoch total_images batch_size
   = Ok (steps_per_epoch_float total_images batch_size)).
Proof.
  intros q. unfold steps_per_epoch, steps_per_epoch_float, true_divide. fold q.
  destruct (Z.eqb_spec batch_size 0) as [E|E]; [left; auto|right].
  destruct (Qle_bool (huge float64) (Qabs q)) eqn:Eq.
  - left. split; [exact E|]. split; [apply Qle_bool_iff, Eq|reflexivity].
  - right. split; [exact E|]. split; [|reflexivity].
    apply Qnot_le_lt. intros H. apply Qle_bool_iff in H. congruence.
Qed.

(** [optimizer_setting] either raises at the division, in the world it was
    called in, or registers one optimizer and returns it. *)
Lemma optimizer_setting_cases (args : Args.t) (params : Params.t) (w : world) :
  let ls := Params.learning_strategy params in
  let step := steps_per_epoch (Params.total_images params) (Strategy.batch_size ls) in
  ((Strategy.name ls =? "piecewise_decay")%string = true /\
   exists e, step = Raise e /\ optimizer_setting args params w = (Raise e, w)) \/
  ((Strategy.name ls =? "piecewise_decay")%string = true /\
   exists s,
     step = Ok s /\
     let values :=
       map (fun i => float_mul float64 (Params.lr params)
                                       (float_pow (round_f64 (1 # 10)) i)) (seq 0 3) in
     let o := AdamOptimizer (piecewise_decay [s * 91; s * 121] values) in
     optimizer_setting args params w
     = (Ok (o, Params.mk (Params.total_images params) (Params.lr params)
                         (Params.num_epochs params)
                         (Strategy.mk (Strategy.name ls) (Strategy.batch_size ls)
                                      (Some [91; 121]))),
        World (trace w ++ [Print "=> LR will be dropped at the epoch of [91, 121]";
                           NewOptimizer o]) (dirs w))) \/
  ((Strategy.name ls =? "piecewise_decay")%string = false /\
   let o := Momentum (Params.lr params) (round_f64 (9 # 10))
                     (L2Decay (round_f64 (5 # 10000))) in
   optimizer_setting args params w
   = (Ok (o, params), World (trace w ++ [NewOptimizer o]) (dirs w))).
Proof.
  intros ls step. unfold optimizer_setting. fold ls.
  destruct (Strategy.name ls =? "piecewise_decay")%string; [|right; right; auto].
  fold step. destruct step as [s|e].
  - right. left. split; [reflexivity|]. exists s. split; [reflexivity|].
    unfold bindM, lift, emit, ret. cbn [trace dirs].
    rewrite <- app_assoc. reflexivity.
  - left. split; [reflexivity|]. exists e. split; reflexivity.
Qed.

(** C2, amended.  With [total_images = 144406] and [batch_size = 32] the
    piecewise strategy computes [step = 4513], which is
    [floor (144406 / 32) + 1], the boundaries [[410683; 546073]], which are
    [step * 91] and [step * 121], and the three learning rates
    [lr * 0.1 ** i] in float64.  The powers are [1.0], [0.1] and
    [0.1 ** 2 = 0.010000000000000002], the float next above [0.01]. *)
Theorem optimizer_setting_piecewise_schedule
    (args : Args.t) (base_lr : f32) (num_epochs : Z) (epochs : option (list Z))
    (w : world) :
  let params :=
    Params.mk 144406 base_lr num_epochs
              (Strategy.mk "piecewise_decay" 32 epochs) in
  let ratio := round_f64 (1 # 10) in
  steps_per_epoch 144406 32 = Ok 4513 /\
  4513 = 144406 / 32 + 1 /\
  [410683; 546073] = [4513 * 91; 4513 * 121] /\
  exists p0 p1 p2 params' w',
    optimizer_setting args params w =
      (Ok (AdamOptimizer
             (piecewise_decay [410683; 546073]
                [float_mul float64 base_lr (Fin p0);
                 float_mul float64 base_lr (Fin p1);
                 float_mul float64 base_lr (Fin p2)]), params'), w') /\
    p0 == 1 /\ p1 == ratio /\ p2 == round_f64 (ratio * ratio) /\
    p2 == 5764607523034236 # 576460752303423488 /\
    round_f64 (1 # 100) == 5764607523034235 # 576460752303423488.
Proof.
  intros params ratio.
  split; [vm_compute; reflexivity|]. split; [reflexivity|]. split; [reflexivity|].
  destruct (optimizer_setting_cases args params w)
    as [(_ & e & E & _)|[(_ & s & Es & E)|(Hp & _)]].
  - vm_compute in E. discriminate.
  - assert (s = 4513) as -> by (vm_compute in Es; congruence).
    cbv zeta in E. rewrite E.
    eexists _, _, _, _, _. split.
    + reflexivity.
    + repeat split; vm_compute; reflexivity.
  - discriminate.
Qed.

(** C2 as stated fails: the step is not 4514 and the boundaries are not
    [[410774; 546194]]; and with the default [lr = 0.001] the third rate is
    not [lr * 0.01], which is the float [1e-05], but the float next above
    it, [1.0000000000000003e-05]. *)
Lemma optimizer_setting_step_is_not_4514 :
  steps_per_epoch 144406 32 <> Ok 4514 /\
  exists values params' w',
    optimizer_setting default_args example_params empty_world =
      (Ok (AdamOptimizer (piecewise_decay [410683; 546073] values), params'), w') /\
    [410683; 546073] <> [410774; 546194] /\
    exists r r',
      values !! 2%nat = Some (Fin r) /\
      float_mul float64 (Params.lr example_params) (Fin (round_f64 (1 # 100))) = Fin r' /\
      r' == round_f64 (1 # 100000) /\
      (r' < r)%Q /\
      r == 5902958103587058 # 590295810358705651712.
Proof.
  split; [vm_compute; discriminate|].
  destruct (optimizer_setting_cases default_args example_params empty_world)
    as [(_ & e & E & _)|[(_ & s & Es & E)|(Hp & _)]].
  - vm_compute in E. discriminate.
  - assert (s = 4513) as -> by (vm_compute in Es; congruence).
    cbv zeta in E. rewrite E.
    eexists _, _, _. split; [reflexivity|]. split; [discriminate|].
    eexists _, _. split; [vm_compute; reflexivity|].
    split; [vm_compute; reflexivity|].
    split; [vm_compute; reflexivity|].
    split; vm_compute; reflexivity.
  - discriminate.
Qed.

Lemma select_dataset_other (args : Args.t) (w : world) :
  Args.dataset args <> "coco" -> Args.dataset args <> "mpii" ->
  select_dataset args w =
    (Raise (ValueError ("The dataset " +:+ Args.dataset args +:+ " is not supported yet.")), w).
Proof.
  intros Hc Hm. unfold select_dataset.
  destruct (String.eqb_spec (Args.dataset args) "coco") as [E|_]; [contradiction|].
  destruct (String.eqb_spec (Args.dataset args) "mpii") as [E|_]; [contradiction|].
  reflexivity.
Qed.

Lemma select_dataset_coco (args : Args.t) (w : world) :
  Args.dataset args = "coco" ->
  select_dataset args w =
    (Ok (DatasetConfig "lib.coco_reader" [288; 384] [72; 96]
                       (set_dataset_fields args 17 144406)),
     World (trace w ++ [Import "lib.coco_reader"]) (dirs w)).
Proof. intros E. unfold select_dataset. rewrite E. reflexivity. Qed.

Lemma select_dataset_mpii (args : Args.t) (w : world) :
  Args.dataset args = "mpii" ->
  select_dataset args w =
    (Ok (DatasetConfig "lib.mpii_reader" [384; 384] [96; 96]
                       (set_dataset_fields args 16 22246)),
     World (trace w ++ [Import "lib.mpii_reader"]) (dirs w)).
Proof. intros E. unfold select_dataset. rewrite E. reflexivity. Qed.

(** C3.  [train] starts by settling the dataset: ['coco'] gives
    [kp_dim = 17] and [IMAGE_SIZE = [288, 384]], ['mpii'] gives [kp_dim = 16]
    and [IMAGE_SIZE = [384, 384]], and every run of [train], finished or not,
    has then declared its inputs and built its network with these values;
    on any other name [train] raises a [ValueError]. *)
Theorem train_dataset_config {cv : OpenCV}
    (args : Args.t) (batches : nat -> list fetched) (w : world) :
  (Args.dataset args = "coco" ->
   exists cfg w1,
     select_dataset args w = (Ok cfg, w1) /\
     Args.kp_dim (config_args cfg) = 17 /\ IMAGE_SIZE cfg = [288; 384] /\
     forall r w',
       train args batches w = (r, w') ->
       exists t,
         trace w' =
           trace w ++
           [Import "lib.coco_reader";
            PrintArguments (set_dataset_fields args 17 144406);
            LayersData "image" [3; 384; 288] "float32";
            LayersData "target" [17; 96; 72] "float32";
            LayersData "target_weight" [17; 1] "float32";
            ResNet 50 17;
            ModelNet] ++ t) /\
  (Args.dataset args = "mpii" ->
   exists cfg w1,
     select_dataset args w = (Ok cfg, w1) /\
     Args.kp_dim (config_args cfg) = 16 /\ IMAGE_SIZE cfg = [384; 384] /\
     forall r w',
       train args batches w = (r, w') ->
       exists t,
         trace w' =
           trace w ++
           [Import "lib.mpii_reader";
            PrintArguments (set_dataset_fields args 16 22246);
            LayersData "image" [3; 384; 384] "float32";
            LayersData "target" [16; 96; 96] "float32";
            LayersData "target_weight" [16; 1] "float32";
            ResNet 50 16;
            ModelNet] ++ t) /\
  (Args.dataset args <> "coco" -> Args.dataset args <> "mpii" ->
   exists msg, train args batches w = (Raise (ValueError msg), w)).
Proof.
  split; [|split].
  - intros E. eexists _, _.
    split; [apply select_dataset_coco, E|]. split; [reflexivity|].
    split; [reflexivity|]. intros r w' Hrun.
    destruct (train_declares_inputs trace_extended trace_extended_refl
                trace_extended_trans trace_extended_event args batches _ w _ r w'
                (select_dataset_coco args w E) Hrun) as (w6 & E6 & t & Et).
    exists t. rewrite Et, E6. cbn [trace]. rewrite <- !app_assoc. reflexivity.
  - intros E. eexists _, _.
    split; [apply select_dataset_mpii, E|]. split; [reflexivity|].
    split; [reflexivity|]. intros r w' Hrun.
    destruct (train_declares_inputs trace_extended trace_extended_refl
                trace_extended_trans trace_extended_event args batches _ w _ r w'
                (select_dataset_mpii args w E) Hrun) as (w6 & E6 & t & Et).
    exists t. rewrite Et, E6. cbn [trace]. rewrite <- !app_assoc. reflexivity.
  - intros Hc Hm. eexists. unfold train, bindM.
    rewrite select_dataset_other by assumption. reflexivity.
Qed.

(** C7.  On an unsupported dataset name [train] raises the configuration
    error in the world it started in: no call of any kind has been made, so
    no optimizer has been built and [optimizer_setting] has not run. *)
Theorem train_unsupported_dataset {cv : OpenCV}
    (args : Args.t) (batches : nat -> list fetched) (w : world) :
  Args.dataset args <> "coco" -> Args.dataset args <> "mpii" ->
  exists w',
    train args batches w =
      (Raise (ValueError ("The dataset " +:+ Args.dataset args +:+ " is not supported yet.")), w') /\
    trace w' = trace w /\
    optimizers_built (trace w') = optimizers_built (trace w).
Proof.
  intros Hc Hm. exists w. split; [|split].
  - unfold train, bindM. rewrite select_dataset_other by assumption. reflexivity.
  - reflexivity.
  - reflexivity.
Qed.

Lemma train_unsupported_dataset_witness :
  exists w',
    train (cv := plain_cv)
          (Args.mk 32 "lsp" true 140 144406 16 "output" true None None
                   (Fin (round_f64 (1 # 1000))) "piecewise_decay")
          (fun _ => [example_fetched]) empty_world =
      (Raise (ValueError ("The dataset " +:+ "lsp" +:+ " is not supported yet.")), w') /\
    trace w' = trace empty_world /\
    optimizers_built (trace w') = optimizers_built (trace empty_world).
Proof.
  apply (train_unsupported_dataset (cv := plain_cv)).
  - simpl. discriminate.
  - simpl. discriminate.
Defined.

(** ** [optimizer_setting]: the step and the schedule *)

(** X10.  For a non-negative number of images and a positive batch size,
    both below [2^26], the division of [int(total_images / batch_size + 1)]
    goes through and the step, with the two float64 roundings, is the floor
    of the quotient plus one.  Far above, the float64 step can be another
    integer: [int((2^53 - 1) / 2^52 + 1)] is 3, not 2. *)
Theorem steps_per_epoch_floor (total_images batch_size : Z) :
  0 <= total_images < 2 ^ 26 -> 0 < batch_size <= 2 ^ 26 ->
  steps_per_epoch total_images batch_size = Ok (total_images / batch_size + 1) /\
  steps_per_epoch (2 ^ 53 - 1) (2 ^ 52) = Ok 3 /\
  (2 ^ 53 - 1) / 2 ^ 52 + 1 = 2.
Proof.
  intros Ht Hb. split; [|split; [vm_compute; reflexivity|reflexivity]].
  rewrite (steps_per_epoch_Ok _ _ _
             (true_divide_small total_images batch_size ltac:(lia) ltac:(lia))).
  rewrite steps_per_epoch_float_eq by assumption. reflexivity.
Qed.

(** X11.  [optimizer_setting] raises only under the piecewise strategy and
    only at the division, before anything is printed or built: a
    [ZeroDivisionError] with a batch size of zero, an [OverflowError] when
    the quotient is out of the range of a float, as for [10^400] images in
    batches of one.  Otherwise it registers exactly one optimizer and
    returns it: Adam over a piecewise schedule for the name
    ['piecewise_decay'], and for every other name, known or not, Momentum
    with momentum [0.9] and L2 decay [0.0005] at the flat rate.  Only the
    piecewise branch writes to the caller's dictionary: it adds the entry
    ['epochs'] = [[91, 121]]. *)
Theorem optimizer_setting_outcome (args : Args.t) (params : Params.t) (w : world) :
  let ls := Params.learning_strategy params in
  let piecewise := (Strategy.name ls =? "piecewise_decay")%string in
  let quotient :=
    round_f64 (inject_Z (Params.total_images params) / inject_Z (Strategy.batch_size ls)) in
  (piecewise = true -> Strategy.batch_size ls = 0 ->
   optimizer_setting args params w = (Raise (ZeroDivisionError "division by zero"), w)) /\
  (piecewise = true -> Strategy.batch_size ls <> 0 ->
   (huge float64 <= Qabs quotient)%Q ->
   optimizer_setting args params w
   = (Raise (OverflowError "integer division result too large for a float"), w)) /\
  (piecewise = false \/
   (Strategy.batch_size ls <> 0 /\ (Qabs quotient < huge float64)%Q) ->
   exists o params' w',
     optimizer_setting args params w = (Ok (o, params'), w') /\
     optimizers_built (trace w') = optimizers_built (trace w) ++ [o] /\
     dirs w' = dirs w /\
     Params.total_images params' = Params.total_images params /\
     Params.lr params' = Params.lr params /\
     Params.num_epochs params' = Params.num_epochs params /\
     Strategy.name (Params.learning_strategy params') = Strategy.name ls /\
     Strategy.batch_size (Params.learning_strategy params') = Strategy.batch_size ls /\
     if piecewise
     then (exists boundaries values,
             o = AdamOptimizer (piecewise_decay boundaries values)) /\
          Strategy.epochs (Params.learning_strategy params') = Some [91; 121]
     else o = Momentum (Params.lr params) (round_f64 (9 # 10))
                       (L2Decay (round_f64 (5 # 10000))) /\
          params' = params) /\
  optimizer_setting args
    (Params.mk (10 ^ 400) (Params.lr params) (Params.num_epochs params)
               (Strategy.mk "piecewise_decay" 1 None)) w
  = (Raise (OverflowError "integer division result too large for a float"), w).
Proof.
  intros ls piecewise quotient. subst piecewise.
  assert (Hlast : optimizer_setting args
            (Params.mk (10 ^ 400) (Params.lr params) (Params.num_epochs params)
                       (Strategy.mk "piecewise_decay" 1 None)) w
          = (Raise (OverflowError "integer division result too large for a float"), w)).
  { match goal with
    | |- optimizer_setting ?a ?p ?w0 = _ =>
        destruct (optimizer_setting_cases a p w0)
          as [(_ & e & E & Erun)|[(_ & s & Es & _)|(Hp & _)]]
    end.
    - rewrite Erun. vm_compute in E. congruence.
    - vm_compute in Es. discriminate.
    - discriminate. }
  pose proof (steps_per_epoch_cases (Params.total_images params) (Strategy.batch_size ls))
    as Hsteps.
  cbv zeta in Hsteps. fold quotient in Hsteps.
  pose proof (optimizer_setting_cases args params w) as Hcases.
  cbv zeta in Hcases. fold ls in Hcases.
  split; [|split; [|split; [|exact Hlast]]].
  - intros Hp Hb.
    destruct Hcases as [(_ & e & E & Erun)|[(_ & s & Es & _)|(Hp' & _)]];
      [| |congruence];
      destruct Hsteps as [(_ & Ez)|[(Hb' & _)|(Hb' & _)]]; try contradiction.
    + rewrite Erun. congruence.
    + congruence.
  - intros Hp Hb Hq.
    destruct Hcases as [(_ & e & E & Erun)|[(_ & s & Es & _)|(Hp' & _)]];
      [| |congruence];
      destruct Hsteps as [(Hb' & _)|[(_ & _ & Eo)|(_ & Hq' & _)]]; try contradiction;
      try (exfalso; exact (Qlt_not_le _ _ Hq' Hq)).
    + rewrite Erun. congruence.
    + congruence.
  - intros Hok.
    destruct Hcases as [(Hp & e & E & _)|[(Hp & s & Es & Erun)|(Hp & Erun)]].
    + exfalso. destruct Hok as [Hnp|[Hb Hq]]; [congruence|].
      destruct Hsteps as [(Hb' & _)|[(_ & Hq' & _)|(_ & _ & Ek)]];
        [contradiction|exact (Qlt_not_le _ _ Hq Hq')|congruence].
    + eexists _, _, _. split; [exact Erun|]. rewrite Hp. cbn [trace dirs].
      unfold optimizers_built. rewrite omap_app. simpl.
      repeat split; eauto.
    + eexists _, _, _. split; [exact Erun|]. rewrite Hp. cbn [trace dirs].
      unfold optimizers_built. rewrite omap_app. simpl.
      repeat split; eauto.
Qed.

(** X12.  Under the piecewise strategy, with a non-negative number of images
    and a positive batch size, both below [2^26], the schedule handed to
    [piecewise_decay] is well formed: the two boundaries are
    [91] and [121] times the step [total_images // batch_size + 1], so they
    are positive and strictly increasing, and there is one more rate than
    there are boundaries.  The float64 step gives the same boundaries. *)
Theorem optimizer_setting_schedule_well_formed
    (args : Args.t) (params : Params.t) (w : world) :
  let ls := Params.learning_strategy params in
  let total_images := Params.total_images params in
  let batch_size := Strategy.batch_size ls in
  Strategy.name ls = "piecewise_decay" ->
  0 <= total_images < 2 ^ 26 -> 0 < batch_size <= 2 ^ 26 ->
  exists b1 b2 values params' w',
    optimizer_setting args params w
    = (Ok (AdamOptimizer (piecewise_decay [b1; b2] values), params'), w') /\
    b1 = (total_images / batch_size + 1) * 91 /\
    b2 = (total_images / batch_size + 1) * 121 /\
    0 < b1 < b2 /\
    length values = S (length [b1; b2]) /\
    [b1; b2] = map (fun e => steps_per_epoch_float total_images batch_size * e) [91; 121].
Proof.
  intros ls total_images batch_size Hname Ht Hb.
  pose proof (steps_per_epoch_float_eq total_images batch_size Ht Hb) as E2.
  pose proof (steps_per_epoch_Ok _ _ _
                (true_divide_small total_images batch_size ltac:(lia) ltac:(lia))) as E1.
  rewrite E2 in E1.
  destruct (quotient_window total_images batch_size) as [Hk _]; [lia..|].
  pose proof (optimizer_setting_cases args params w) as Hcases.
  cbv zeta in Hcases. fold ls in Hcases. fold total_images batch_size in Hcases.
  destruct Hcases as [(Hp & e & E & _)|[(Hp & s & Es & E)|(Hp & E)]].
  - congruence.
  - assert (s = total_images / batch_size + 1) as -> by congruence.
    eexists _, _, _, _, _. split; [exact E|].
    split; [reflexivity|]. split; [reflexivity|]. split; [lia|].
    split; [reflexivity|].
    rewrite E2. reflexivity.
  - rewrite Hname in Hp. discriminate.
Qed.

(** ** [train]: a whole run *)

Lemma appends_refl (P : event -> Prop) (w : world) : appends P w w.
Proof. exists []. rewrite app_nil_r. auto. Qed.

Lemma appends_trans (P : event -> Prop) (w1 w2 w3 : world) :
  appends P w1 w2 -> appends P w2 w3 -> appends P w1 w3.
Proof.
  intros (t1 & E1 & F1) (t2 & E2 & F2). exists (t1 ++ t2).
  rewrite E2, E1, app_assoc. split; [reflexivity|]. apply Forall_app. auto.
Qed.

Lemma appends_emit (P : event -> Prop) (e : event) :
  P e -> respects (appends P) (emit e).
Proof. intros He w r w' [= <- <-]. exists [e]. simpl. auto. Qed.

Lemma omap_None_Forall {A B} (f : A -> option B) (P : A -> Prop) (l : list A) :
  (forall a, P a -> f a = None) -> Forall P l -> omap f l = [].
Proof.
  intros Hf. induction 1 as [|a l Ha _ IH]; [reflexivity|].
  simpl. rewrite (Hf a Ha). exact IH.
Qed.

Lemma batch_event_loop_event (e : event) : batch_event e -> loop_event e.
Proof. destruct e; simpl; auto. Qed.

Section run.

Context {cv : OpenCV}.

(** One step of the batch loop: three calls, then at most one image. *)
Lemma train_batch_run (pass_id batch_id : nat) (data : fetched)
    (w : world) (r : result unit) (w' : world) :
  train_batch pass_id batch_id data w = (r, w') ->
  dirs w' = dirs w /\
  exists imgs,
    trace w' =
      trace w ++
      [FindVar "learning_rate"; ExeRun pass_id batch_id;
       PrintProgress batch_id pass_id (current_lr data) (loss data)] ++ imgs /\
    (imgs = [] \/ exists grid, imgs = [ImWrite visualization_file grid]).
Proof.
  unfold train_batch. rewrite !bindM_emit. cbn [trace dirs].
  set (w3 := World _ _).
  assert (E3 : trace w3 = trace w ++
                [FindVar "learning_rate"; ExeRun pass_id batch_id;
                 PrintProgress batch_id pass_id (current_lr data) (loss data)])
    by (unfold w3; cbn [trace]; rewrite <- !app_assoc; reflexivity).
  assert (D3 : dirs w3 = dirs w) by reflexivity.
  clearbody w3.
  destruct (batch_id mod 10 =? 0)%nat.
  - destruct (save_batch_heatmaps_cases (input_image data) (out_heatmaps data)
                "visualization@train.jpg" true w3)
      as [[e E]|(b & k & h & wd & grid & _ & E & _)];
      rewrite E; intros [= <- <-].
    + split; [exact D3|]. exists []. rewrite app_nil_r. auto.
    + split; [exact D3|]. exists [ImWrite visualization_file grid].
      cbn [trace]. rewrite E3, <- app_assoc. eauto.
  - intros [= <- <-]. split; [exact D3|]. exists []. rewrite app_nil_r. auto.
Qed.

Lemma train_batch_appends (pass_id batch_id : nat) (data : fetched) :
  respects (appends batch_event) (train_batch pass_id batch_id data).
Proof.
  intros w r w' Hrun.
  destruct (train_batch_run _ _ _ _ _ _ Hrun) as (_ & imgs & E & Himgs).
  eexists. split; [exact E|].
  repeat (constructor; [exact I|]).
  destruct Himgs as [->|[g ->]]; repeat constructor.
Qed.

(** The batches of one epoch, numbered from [k]. *)
Lemma train_batches_run (pass_id : nat) (bs : list fetched) (k : nat) (w w' : world) :
  for_each (imap (fun i x => ((k + i)%nat, x)) bs)
           (fun bd => train_batch pass_id bd.1 bd.2) w = (Ok tt, w') ->
  dirs w' = dirs w /\
  exists t,
    trace w' = trace w ++ t /\ Forall batch_event t /\
    exe_runs t = map (pair pass_id) (seq k (length bs)).
Proof.
  revert k w. induction bs as [|x bs IH]; intros k w.
  - simpl. intros [= <-]. split; [reflexivity|].
    exists []. rewrite app_nil_r. auto.
  - rewrite imap_cons. cbn [for_each]. unfold bindM at 1.
    cbn [fst snd]. rewrite Nat.add_0_r.
    destruct (train_batch pass_id k x w) as [[[]|e] w1] eqn:E1; [|discriminate].
    rewrite (imap_ext _ (fun i y => ((S k + i)%nat, y)))
      by (intros i y _; simpl; f_equal; lia).
    intros Hrest. destruct (IH _ _ Hrest) as (D2 & t2 & E2 & F2 & R2).
    destruct (train_batch_run _ _ _ _ _ _ E1) as (D1 & imgs & T1 & Himgs).
    split; [congruence|].
    eexists. split; [rewrite E2, T1, <- app_assoc; reflexivity|]. split.
    + apply Forall_app. split; [|exact F2].
      repeat (constructor; [exact I|]).
      destruct Himgs as [->|[g ->]]; repeat constructor.
    + unfold exe_runs in *. rewrite !omap_app, R2.
      destruct Himgs as [->|[g ->]]; reflexivity.
Qed.

(** An epoch that returns has run its batches in order, created its
    snapshot directory if it was missing, and saved the snapshot last. *)
Lemma train_epoch_run (args : Args.t) (pass_id : nat) (bs : list fetched)
    (w w' : world) :
  train_epoch args pass_id bs w = (Ok tt, w') ->
  let path := model_path args pass_id in
  exists t,
    Forall batch_event t /\
    exe_runs t = map (pair pass_id) (seq 0 (length bs)) /\
    trace w' =
      trace w ++ t ++
      (if bool_decide (path ∈ dirs w) then [] else [MakeDirs path]) ++
      [SavePersistables path] /\
    dirs w' = {[path]} ∪ dirs w.
Proof.
  intros Hrun path. unfold train_epoch in Hrun. fold (model_path args pass_id) in Hrun.
  fold path in Hrun. unfold enumerate in Hrun.
  unfold bindM at 1 in Hrun.
  destruct (for_each _ _ w) as [[[]|e] w1] eqn:E1; [|discriminate].
  rewrite (imap_ext _ (fun i y => ((0 + i)%nat, y))) in E1 by reflexivity.
  destruct (train_batches_run _ _ _ _ _ E1) as (D1 & t & T1 & F1 & R1).
  exists t. split; [exact F1|]. split; [exact R1|].
  unfold bindM, isdir, makedirs, emit, ret in Hrun. rewrite D1 in Hrun.
  destruct (bool_decide_reflect (path ∈ dirs w)) as [Hin|Hin];
    cbn [negb] in Hrun; injection Hrun as <-; cbn [trace dirs]; rewrite T1.
  - rewrite <- app_assoc. split; [reflexivity|]. rewrite D1.
    symmetry. apply subseteq_union_1_L, singleton_subseteq_l. exact Hin.
  - rewrite <- !app_assoc. split; [reflexivity|]. rewrite D1. reflexivity.
Qed.

Lemma train_epoch_appends (args : Args.t) (pass_id : nat) (bs : list fetched) :
  respects (appends loop_event) (train_epoch args pass_id bs).
Proof.
  pose proof (appends_refl loop_event) as Hrefl.
  pose proof (appends_trans loop_event) as Htrans.
  unfold train_epoch.
  apply respects_bind; [exact Htrans| |intros _].
  - apply respects_for_each; [exact Hrefl|exact Htrans|]. intros x w r w' Hrun.
    destruct (train_batch_appends _ _ _ _ _ _ Hrun) as (t & E & F).
    exists t. split; [exact E|].
    eapply Forall_impl; [exact F|apply batch_event_loop_event].
  - apply respects_bind; [exact Htrans|apply respects_isdir, Hrefl|intros exists_].
    apply respects_bind; [exact Htrans| |intros _; apply appends_emit; exact I].
    destruct (negb exists_); [|apply respects_ret, Hrefl].
    intros w r w' [= <- <-]. eexists. split; [reflexivity|]. repeat constructor.
Qed.

(** The epoch loop, from epoch [s]. *)
Lemma train_loop_appends (args : Args.t) (batches : nat -> list fetched) (l : list nat) :
  respects (appends loop_event)
    (for_each l (fun pass_id => train_epoch args pass_id (batches pass_id))).
Proof.
  apply respects_for_each;
    [apply appends_refl|apply appends_trans|intros p; apply train_epoch_appends].
Qed.

Lemma train_loop_run (args : Args.t) (batches : nat -> list fetched)
    (s n : nat) (w w' : world) :
  for_each (seq s n) (fun pass_id => train_epoch args pass_id (batches pass_id)) w
  = (Ok tt, w') ->
  exe_runs (trace w') =
    exe_runs (trace w) ++
    flat_map (fun p => map (pair p) (seq 0 (length (batches p)))) (seq s n) /\
  persistables_saved (trace w') =
    persistables_saved (trace w) ++ map (model_path args) (seq s n) /\
  dirs w ⊆ dirs w' /\
  forall p, p ∈ seq s n -> model_path args p ∈ dirs w'.
Proof.
  revert s w. induction n as [|n IH]; intros s w.
  - simpl. intros [= <-]. rewrite !app_nil_r.
    split; [reflexivity|]. split; [reflexivity|]. split; [reflexivity|].
    intros p Hp. inversion Hp.
  - cbn [seq for_each]. unfold bindM at 1.
    destruct (train_epoch args s (batches s) w) as [[[]|e] w1] eqn:E1; [|discriminate].
    intros Hrest. destruct (IH _ _ Hrest) as (R2 & S2 & D2 & P2).
    destruct (train_epoch_run _ _ _ _ _ E1) as (t & F1 & R1 & T1 & D1).
    assert (Hs : persistables_saved t = []).
    { apply (omap_None_Forall _ batch_event); [|exact F1].
      intros [] H; simpl in H; try contradiction; reflexivity. }
    split; [|split; [|split]].
    + rewrite R2, T1. unfold exe_runs in *. rewrite !omap_app, R1.
      cbn [flat_map]. rewrite <- !app_assoc. f_equal. f_equal.
      destruct (bool_decide _); reflexivity.
    + rewrite S2, T1. unfold persistables_saved in *. rewrite !omap_app, Hs.
      cbn [map]. rewrite <- !app_assoc. f_equal.
      destruct (bool_decide _); reflexivity.
    + etrans; [|exact D2]. rewrite D1. apply union_subseteq_r.
    + intros p Hp. apply elem_of_cons in Hp as [->|Hp]; [|auto].
      apply D2. rewrite D1. apply elem_of_union_l, elem_of_singleton. reflexivity.
Qed.

(** The world in which [train] calls [optimizer_setting]. *)
Lemma train_to_optimizer (args : Args.t) (batches : nat -> list fetched)
    (cfg : dataset_config) (w w1 : world) :
  let args1 := config_args cfg in
  select_dataset args w = (Ok cfg, w1) ->
  exists k,
    train args batches w =
      bindM (optimizer_setting args1
               (Params.mk (Args.total_images args1) (Args.lr args1) (Args.num_epochs args1)
                  (Strategy.mk (Args.lr_strategy args1) (Args.batch_size args1) None)))
            k
            (World (trace w1 ++
                    [PrintArguments args1;
                     LayersData "image"
                       [3; nth 1 (IMAGE_SIZE cfg) 0; nth 0 (IMAGE_SIZE cfg) 0] "float32";
                     LayersData "target"
                       [Args.kp_dim args1; nth 1 (HEATMAP_SIZE cfg) 0;
                        nth 0 (HEATMAP_SIZE cfg) 0] "float32";
                     LayersData "target_weight" [Args.kp_dim args1; 1] "float32";
                     ResNet 50 (Args.kp_dim args1);
                     ModelNet]) (dirs w1)) /\
    forall o params' w7,
    exists w_loop,
      k (o, params') w7 =
        for_each (range (Params.num_epochs params'))
                 (fun pass_id =>
                    train_epoch (set_pretrained_model args1 (Some "./pretrained/resnet_50/115"))
                                pass_id (batches pass_id)) w_loop /\
      dirs w_loop = dirs w7 /\
      trace w_loop =
        trace w7 ++
        [Minimize o] ++
        (if Args.with_mem_opt args1 then [MemoryOptimize] else []) ++
        [RunStartup (Args.use_gpu args1); LoadVars "./pretrained/resnet_50/115"] ++
        match Args.checkpoint args1 with
        | Some path => [LoadPersistables path]
        | None => []
        end ++
        [PaddleBatch (reader cfg) (Args.batch_size args1);
         NewParallelExecutor (Args.use_gpu args1)].
Proof.
  intros args1 Hcfg.
  unfold train. rewrite (bindM_Ok _ _ _ _ _ Hcfg), !bindM_emit.
  cbn [trace dirs]. fold args1. rewrite <- !app_assoc. cbn [app].
  eexists. split; [reflexivity|].
  intros o params' w7. cbv beta iota. rewrite bindM_emit.
  cbn [Args.pretrained_model set_pretrained_model String.eqb Ascii.eqb Bool.eqb
       Args.checkpoint Args.batch_size Args.use_gpu].
  destruct (Args.with_mem_opt args1); destruct (Args.checkpoint args1) as [c|];
    unfold bindM, emit, ret; cbn [trace dirs];
    eexists; (split; [reflexivity|]); cbn [trace dirs];
    (split; [reflexivity|]); rewrite <- ?app_assoc; reflexivity.
Qed.

(** The three ways a call of [train] can go: an unsupported dataset, a
    division by zero in [optimizer_setting], or the epoch loop. *)
Lemma train_outcomes (args : Args.t) (batches : nat -> list fetched) (w : world) :
  (Args.dataset args <> "coco" /\ Args.dataset args <> "mpii" /\
   train args batches w =
     (Raise (ValueError ("The dataset " +:+ Args.dataset args +:+ " is not supported yet.")), w)) \/
  exists rd img hm kp ti,
    let cfg := DatasetConfig rd img hm (set_dataset_fields args kp ti) in
    let declared :=
      [Import rd; PrintArguments (config_args cfg);
       LayersData "image" [3; nth 1 img 0; nth 0 img 0] "float32";
       LayersData "target" [kp; nth 1 hm 0; nth 0 hm 0] "float32";
       LayersData "target_weight" [kp; 1] "float32";
       ResNet 50 kp; ModelNet] in
    (Args.dataset args = "coco" \/ Args.dataset args = "mpii") /\
    ((Args.lr_strategy args = "piecewise_decay" /\ Args.batch_size args = 0 /\
      train args batches w =
        (Raise (ZeroDivisionError "division by zero"),
         World (trace w ++ declared) (dirs w))) \/
     ((Args.lr_strategy args = "piecewise_decay" -> Args.batch_size args <> 0) /\
      exists o evs w_loop,
        (evs = [] \/ exists line, evs = [Print line]) /\
        train args batches w =
          for_each (range (Args.num_epochs args))
                   (fun pass_id =>
                      train_epoch (set_pretrained_model (config_args cfg)
                                     (Some "./pretrained/resnet_50/115"))
                                  pass_id (batches pass_id)) w_loop /\
        dirs w_loop = dirs w /\
        trace w_loop =
          trace w ++ declared ++ evs ++ [NewOptimizer o; Minimize o] ++
          (if Args.with_mem_opt args then [MemoryOptimize] else []) ++
          [RunStartup (Args.use_gpu args); LoadVars "./pretrained/resnet_50/115"] ++
          match Args.checkpoint args with
          | Some path => [LoadPersistables path]
          | None => []
          end ++
          [PaddleBatch rd (Args.batch_size args);
           NewParallelExecutor (Args.use_gpu args)])).
Proof.
  assert (Hsel : (Args.dataset args <> "coco" /\ Args.dataset args <> "mpii") \/
                 exists rd img hm kp ti,
                   (Args.dataset args = "coco" \/ Args.dataset args = "mpii") /\
                   0 <= ti < 2 ^ 26 /\
                   select_dataset args w =
                     (Ok (DatasetConfig rd img hm (set_dataset_fields args kp ti)),
                      World (trace w ++ [Import rd]) (dirs w))).
  { destruct (String.eqb_spec (Args.dataset args) "coco") as [E|Hc].
    - right. eexists _, _, _, _, _. split; [auto|].
      split; [|apply select_dataset_coco, E]. split; [lia|reflexivity].
    - destruct (String.eqb_spec (Args.dataset args) "mpii") as [E|Hm].
      + right. eexists _, _, _, _, _. split; [auto|].
        split; [|apply select_dataset_mpii, E]. split; [lia|reflexivity].
      + left. auto. }
  destruct Hsel as [[Hc Hm]|(rd & img & hm & kp & ti & Hds & Hti & Hsel)].
  { left. split; [exact Hc|]. split; [exact Hm|].
    unfold train, bindM. rewrite select_dataset_other by assumption. reflexivity. }
  right. exists rd, img, hm, kp, ti. intros cfg declared. split; [exact Hds|].
  destruct (train_to_optimizer args batches cfg w _ Hsel) as (k & Htrain & Hk).
  cbn [config_args cfg IMAGE_SIZE HEATMAP_SIZE reader trace dirs
       set_dataset_fields Args.kp_dim Args.total_images Args.lr Args.num_epochs
       Args.lr_strategy Args.batch_size Args.with_mem_opt Args.use_gpu Args.checkpoint]
    in Htrain, Hk.
  rewrite <- app_assoc in Htrain. cbn [app] in Htrain. fold declared in Htrain.
  pose proof (steps_per_epoch_cases ti (Args.batch_size args)) as Hsteps.
  cbv zeta in Hsteps.
  match type of Htrain with
  | _ = bindM (optimizer_setting ?a ?p) _ ?w6 =>
      pose proof (optimizer_setting_cases a p w6) as Hcases
  end.
  cbv zeta in Hcases.
  cbn [Params.learning_strategy Strategy.name Strategy.batch_size
       Params.total_images Params.lr Params.num_epochs trace dirs] in Hcases.
  assert (Hsmall : Args.batch_size args <> 0 ->
            steps_per_epoch ti (Args.batch_size args)
            = Ok (steps_per_epoch_float ti (Args.batch_size args))).
  { intros Hb. eapply steps_per_epoch_Ok.
    apply true_divide_small; [lia|exact Hb]. }
  destruct Hcases as [(Hp & e & Estep & E)|[(Hp & s & Estep & E)|(Hp & E)]].
  - left. apply String.eqb_eq in Hp.
    destruct (Z.eq_dec (Args.batch_size args) 0) as [Hb|Hb];
      [|rewrite (Hsmall Hb) in Estep; discriminate].
    split; [exact Hp|]. split; [exact Hb|].
    rewrite Htrain. unfold bindM at 1. rewrite E.
    destruct Hsteps as [(_ & Ez)|[(Hb' & _)|(Hb' & _)]]; try contradiction.
    assert (e = ZeroDivisionError "division by zero") as -> by congruence.
    reflexivity.
  - right.
    assert (Hb : Args.batch_size args <> 0).
    { destruct Hsteps as [(_ & Ez)|[(Hb' & _)|(Hb' & _)]]; try assumption.
      congruence. }
    split; [intros _; exact Hb|].
    rewrite (bindM_Ok _ _ _ _ _ E) in Htrain.
    match type of Htrain with
    | _ = k (?o, ?p) ?w7 => destruct (Hk o p w7) as (w_loop & Hloop & Hdirs & Htrace)
    end.
    cbn [Params.num_epochs trace dirs] in Hloop, Hdirs, Htrace.
    eexists _, [Print _], w_loop. split; [eauto|].
    split; [rewrite Htrain; exact Hloop|]. split; [exact Hdirs|].
    rewrite Htrace, <- !app_assoc. reflexivity.
  - right. split.
    { intros Hname. apply String.eqb_neq in Hp. contradiction. }
    rewrite (bindM_Ok _ _ _ _ _ E) in Htrain.
    match type of Htrain with
    | _ = k (?o, ?p) ?w7 => destruct (Hk o p w7) as (w_loop & Hloop & Hdirs & Htrace)
    end.
    cbn [Params.num_epochs trace dirs] in Hloop, Hdirs, Htrace.
    eexists _, [], w_loop. split; [auto|].
    split; [rewrite Htrain; exact Hloop|]. split; [exact Hdirs|].
    rewrite Htrace, <- !app_assoc. reflexivity.
Qed.

(** What the batch loop leaves alone: the directories; and it only adds
    events of its own. *)
Lemma train_batches_keep (pass_id : nat) (l : list (nat * fetched)) :
  respects (fun w w' => dirs w' = dirs w /\ appends batch_event w w')
    (for_each l (fun bd => train_batch pass_id bd.1 bd.2)).
Proof.
  apply respects_for_each.
  - intros w. split; [reflexivity|apply appends_refl].
  - intros w1 w2 w3 [D1 A1] [D2 A2]. split; [congruence|].
    eapply appends_trans; eassumption.
  - intros bd w r w' Hrun. split.
    + apply (train_batch_run _ _ _ _ _ _ Hrun).
    + apply (train_batch_appends _ _ _ _ _ _ Hrun).
Qed.

Lemma for_each_returns {A} (l : list A) (body : A -> M unit) :
  (forall x, x ∈ l -> forall w, exists w', body x w = (Ok tt, w')) ->
  forall w, exists w', for_each l body w = (Ok tt, w').
Proof.
  induction l as [|x l IH]; intros Hbody w; simpl.
  - unfold ret. eauto.
  - destruct (Hbody x ltac:(constructor) w) as [w1 E1].
    unfold bindM. rewrite E1. apply IH. intros y Hy. apply Hbody. constructor. exact Hy.
Qed.

Lemma train_epoch_returns (args : Args.t) (pass_id : nat) (bs : list fetched) (w : world) :
  (forall data, data ∈ bs -> drawable data) ->
  exists w', train_epoch args pass_id bs w = (Ok tt, w').
Proof.
  intros Hbs. unfold train_epoch.
  destruct (for_each_returns (enumerate bs)
              (fun bd => train_batch pass_id bd.1 bd.2)) with (w := w) as [w1 E1].
  { intros [i data] Hin w0. apply train_batch_returns, Hbs.
    unfold enumerate in Hin. apply elem_of_lookup_imap in Hin as (i' & y & Heq & Hy).
    injection Heq as -> ->. eapply list_elem_of_lookup_2. exact Hy. }
  rewrite (bindM_Ok _ _ _ _ _ E1).
  unfold bindM, isdir, makedirs, emit, ret.
  destruct (negb _); eauto.
Qed.

(** An epoch can only fail in one of its batches. *)
Lemma train_epoch_raise (args : Args.t) (pass_id : nat) (bs : list fetched)
    (w : world) (e : exn) (w' : world) :
  train_epoch args pass_id bs w = (Raise e, w') ->
  dirs w' = dirs w /\ appends batch_event w w'.
Proof.
  intros Hrun. unfold train_epoch in Hrun. unfold bindM at 1 in Hrun.
  destruct (for_each _ _ w) as [[[]|e1] w1] eqn:E1.
  - unfold bindM, isdir, makedirs, emit, ret in Hrun.
    destruct (negb _) in Hrun; discriminate.
  - injection Hrun as <- <-. apply (train_batches_keep _ _ _ _ _ E1).
Qed.

(** A failure of [save_batch_heatmaps] does not depend on the world it is
    called in, and leaves it as it was. *)
Lemma save_batch_heatmaps_raise (batch_image : ndarray f32) (batch_heatmaps : ndarray f32)
    (file_name : string) (normalize : bool) (w : world) (e : exn) (w' : world) :
  save_batch_heatmaps batch_image batch_heatmaps file_name normalize w = (Raise e, w') ->
  w' = w /\
  forall w0,
    save_batch_heatmaps batch_image batch_heatmaps file_name normalize w0 = (Raise e, w0).
Proof.
  unfold save_batch_heatmaps, bindM, lift.
  destruct (prepare_batch batch_image normalize) as [[t bi]|e0];
    [|intros [= <- <-]; auto].
  destruct (shape batch_heatmaps) as [|b [|k [|h [|wd [|? ?]]]]];
    try (intros [= <- <-]; auto).
  destruct (get_max_preds batch_heatmaps) as [[preds maxvals]|e0];
    [|intros [= <- <-]; auto].
  match goal with
  | |- context [fold_result ?f ?l ?s] => destruct (fold_result f l s) as [grid|e0]
  end; [discriminate|intros [= <- <-]; auto].
Qed.

(** A step of the batch loop that raises has run the executor and has
    failed in the drawing, at a batch index that is a multiple of 10. *)
Lemma train_batch_raise (pass_id batch_id : nat) (data : fetched)
    (w : world) (e : exn) (w' : world) :
  train_batch pass_id batch_id data w = (Raise e, w') ->
  (batch_id mod 10 = 0)%nat /\
  (forall w0,
     save_batch_heatmaps (input_image data) (out_heatmaps data)
                         "visualization@train.jpg" true w0 = (Raise e, w0)) /\
  trace w' =
    trace w ++
    [FindVar "learning_rate"; ExeRun pass_id batch_id;
     PrintProgress batch_id pass_id (current_lr data) (loss data)] /\
  dirs w' = dirs w.
Proof.
  unfold train_batch. rewrite !bindM_emit. cbn [trace dirs].
  destruct (batch_id mod 10 =? 0)%nat eqn:E; [|discriminate].
  intros Hrun. apply save_batch_heatmaps_raise in Hrun as [-> Hany].
  split; [apply Nat.eqb_eq, E|]. split; [exact Hany|].
  cbn [trace dirs]. rewrite <- !app_assoc. split; reflexivity.
Qed.

(** The batch loop of one epoch, numbered from [k], when it fails. *)
Lemma train_batches_raise (pass_id : nat) (bs : list fetched) (k : nat)
    (w : world) (e : exn) (w' : world) :
  for_each (imap (fun i x => ((k + i)%nat, x)) bs)
           (fun bd => train_batch pass_id bd.1 bd.2) w = (Raise e, w') ->
  exists j data,
    bs !! j = Some data /\ ((k + j) mod 10 = 0)%nat /\
    (forall w0,
       save_batch_heatmaps (input_image data) (out_heatmaps data)
                           "visualization@train.jpg" true w0 = (Raise e, w0)) /\
    exe_runs (trace w') = exe_runs (trace w) ++ map (pair pass_id) (seq k (S j)) /\
    persistables_saved (trace w') = persistables_saved (trace w) /\
    dirs w' = dirs w.
Proof.
  revert k w. induction bs as [|x bs IH]; intros k w; [discriminate|].
  rewrite imap_cons. cbn [for_each]. unfold bindM at 1.
  cbn [fst snd]. rewrite Nat.add_0_r.
  destruct (train_batch pass_id k x w) as [[[]|e1] w1] eqn:E1.
  - rewrite (imap_ext _ (fun i y => ((S k + i)%nat, y)))
      by (intros i y _; simpl; f_equal; lia).
    intros Hrest.
    destruct (IH _ _ Hrest) as (j & data & Hj & Hmod & Hany & R2 & S2 & D2).
    destruct (train_batch_run _ _ _ _ _ _ E1) as (D1 & imgs & T1 & Himgs).
    exists (S j), data. split; [exact Hj|].
    split; [replace (k + S j)%nat with (S k + j)%nat by lia; exact Hmod|].
    split; [exact Hany|]. split; [|split; [|congruence]].
    + rewrite R2, T1. unfold exe_runs. rewrite !omap_app.
      destruct Himgs as [->|[g ->]]; cbn [omap seq map app];
        rewrite <- app_assoc; reflexivity.
    + rewrite S2, T1. unfold persistables_saved. rewrite !omap_app.
      destruct Himgs as [->|[g ->]]; cbn [omap app]; rewrite app_nil_r; reflexivity.
  - intros [= <- <-].
    destruct (train_batch_raise _ _ _ _ _ _ E1) as (Hmod & Hany & T1 & D1).
    exists 0%nat, x. split; [reflexivity|].
    split; [rewrite Nat.add_0_r; exact Hmod|]. split; [exact Hany|].
    rewrite T1. unfold exe_runs, persistables_saved. rewrite !omap_app.
    cbn [omap seq map app]. rewrite app_nil_r. auto.
Qed.

(** An epoch that fails has failed in the drawing of one of its batches,
    after running the executor on that batch and on those before it. *)
Lemma train_epoch_raise_at (args : Args.t) (pass_id : nat) (bs : list fetched)
    (w : world) (e : exn) (w' : world) :
  train_epoch args pass_id bs w = (Raise e, w') ->
  exists j data,
    bs !! j = Some data /\ (j mod 10 = 0)%nat /\
    (forall w0,
       save_batch_heatmaps (input_image data) (out_heatmaps data)
                           "visualization@train.jpg" true w0 = (Raise e, w0)) /\
    exe_runs (trace w') = exe_runs (trace w) ++ map (pair pass_id) (seq 0 (S j)) /\
    persistables_saved (trace w') = persistables_saved (trace w) /\
    dirs w' = dirs w.
Proof.
  intros Hrun. unfold train_epoch in Hrun. unfold bindM at 1 in Hrun.
  destruct (for_each _ _ w) as [[[]|e1] w1] eqn:E1.
  - unfold bindM, isdir, makedirs, emit, ret in Hrun.
    destruct (negb _) in Hrun; discriminate.
  - injection Hrun as <- <-. unfold enumerate in E1.
    rewrite (imap_ext _ (fun i y => ((0 + i)%nat, y))) in E1 by reflexivity.
    apply train_batches_raise in E1. exact E1.
Qed.

(** When the epoch loop fails in epoch [s + m], the epochs before it have
    run all their batches and saved their snapshots, and no other snapshot
    has been saved. *)
Lemma train_loop_raise (args : Args.t) (batches : nat -> list fetched)
    (s n : nat) (w : world) (e : exn) (w' : world) :
  for_each (seq s n) (fun pass_id => train_epoch args pass_id (batches pass_id)) w
  = (Raise e, w') ->
  exists m j data,
    (m < n)%nat /\
    batches (s + m)%nat !! j = Some data /\ (j mod 10 = 0)%nat /\
    (forall w0,
       save_batch_heatmaps (input_image data) (out_heatmaps data)
                           "visualization@train.jpg" true w0 = (Raise e, w0)) /\
    exe_runs (trace w') =
      exe_runs (trace w) ++
      flat_map (fun p => map (pair p) (seq 0 (length (batches p)))) (seq s m) ++
      map (pair (s + m)%nat) (seq 0 (S j)) /\
    persistables_saved (trace w') =
      persistables_saved (trace w) ++ map (model_path args) (seq s m) /\
    dirs w ⊆ dirs w' /\
    forall p, p ∈ seq s m -> model_path args p ∈ dirs w'.
Proof.
  revert s w. induction n as [|n IH]; intros s w; [discriminate|].
  cbn [seq for_each]. unfold bindM at 1.
  destruct (train_epoch args s (batches s) w) as [[[]|e1] w1] eqn:E1.
  - intros Hrest.
    destruct (IH _ _ Hrest) as (m & j & data & Hm & Hj & Hmod & Hany & R2 & S2 & D2 & P2).
    destruct (train_epoch_run _ _ _ _ _ E1) as (t & F1 & R1 & T1 & D1).
    assert (Hs : persistables_saved t = []).
    { apply (omap_None_Forall _ batch_event); [|exact F1].
      intros [] H; simpl in H; try contradiction; reflexivity. }
    exists (S m), j, data. split; [lia|].
    replace (s + S m)%nat with (S s + m)%nat by lia.
    split; [exact Hj|]. split; [exact Hmod|]. split; [exact Hany|].
    split; [|split; [|split]].
    + rewrite R2, T1. unfold exe_runs in *. rewrite !omap_app, R1.
      cbn [seq flat_map]. rewrite <- !app_assoc. f_equal. f_equal.
      destruct (bool_decide _); reflexivity.
    + rewrite S2, T1. unfold persistables_saved in *. rewrite !omap_app, Hs.
      cbn [seq map]. rewrite <- !app_assoc. f_equal.
      destruct (bool_decide _); reflexivity.
    + etrans; [|exact D2]. rewrite D1. apply union_subseteq_r.
    + intros p Hp. cbn [seq] in Hp. apply elem_of_cons in Hp as [->|Hp]; [|auto].
      apply D2. rewrite D1. apply elem_of_union_l, elem_of_singleton. reflexivity.
  - intros [= <- <-].
    destruct (train_epoch_raise_at _ _ _ _ _ _ E1) as (j & data & Hj & Hmod & Hany & R1 & S1 & D1).
    exists 0%nat, j, data. rewrite Nat.add_0_r. split; [lia|].
    split; [exact Hj|]. split; [exact Hmod|]. split; [exact Hany|].
    cbn [seq flat_map map app]. rewrite app_nil_r.
    split; [exact R1|]. split; [exact S1|]. split; [rewrite D1; reflexivity|].
    intros p Hp. inversion Hp.
Qed.

End run.

(** X13.  [train] overwrites the flags [kp_dim] and [total_images] with the
    constants of the dataset before it reads them: whatever values the
    command line gave them, the run is the same. *)
Theorem train_ignores_kp_dim_and_total_images {cv : OpenCV}
    (args : Args.t) (kp_dim total_images : Z)
    (batches : nat -> list fetched) (w : world) :
  train (set_dataset_fields args kp_dim total_images) batches w
  = train args batches w.
Proof.
  unfold train, select_dataset. cbn [Args.dataset set_dataset_fields].
  destruct (Args.dataset args =? "coco")%string; [reflexivity|].
  destruct (Args.dataset args =? "mpii")%string; reflexivity.
Qed.

Ltac trace_filters :=
  repeat match goal with
         | H : _ = [] \/ (exists _, _ = [_]) |- _ => destruct H as [->|[? ->]]
         end;
  rewrite ?omap_app; cbn [omap app];
  repeat match goal with
         | |- context [if ?b then _ else _] => destruct b
         | |- context [match ?o with Some _ => _ | None => _ end] => destruct o
         end;
  cbn [omap app]; rewrite ?app_nil_r; try reflexivity.

(** X14.  Every run of [train] that gets past the optimizer, whether it then
    completes or fails in the loop, has loaded weights exactly once from the
    fixed directory ['./pretrained/resnet_50/115'], whatever
    [pretrained_model] was on the command line, and after that the
    checkpoint if one was given; the loop loads nothing. *)
Theorem train_loads_weights {cv : OpenCV}
    (args : Args.t) (batches : nat -> list fetched)
    (w : world) (r : result unit) (w' : world) :
  Args.dataset args = "coco" \/ Args.dataset args = "mpii" ->
  (Args.lr_strategy args = "piecewise_decay" -> Args.batch_size args <> 0) ->
  train args batches w = (r, w') ->
  weights_loaded (trace w') =
    weights_loaded (trace w) ++
    [LoadVars "./pretrained/resnet_50/115"] ++
    match Args.checkpoint args with
    | Some path => [LoadPersistables path]
    | None => []
    end.
Proof.
  intros Hds Hnz Hrun.
  destruct (train_outcomes args batches w)
    as [(Hc & Hm & _)|(rd & img & hm & kp & ti & _ &
         [(Hn & Hb & _)|(_ & o & evs & w_loop & Hevs & Hloop & Hdirs & Htrace)])].
  - destruct Hds; contradiction.
  - apply Hnz in Hn. contradiction.
  - rewrite Hloop in Hrun.
    destruct (train_loop_appends _ _ _ _ _ _ Hrun) as (t & Et & Ft).
    assert (Ht : weights_loaded t = []).
    { apply (omap_None_Forall _ loop_event); [|exact Ft].
      intros [] H; simpl in H; try contradiction; reflexivity. }
    rewrite Et, Htrace. unfold weights_loaded in *.
    rewrite !omap_app, Ht. trace_filters.
Qed.

(** X15.  A run of [train] that completes has run the executor once on
    every batch of every epoch, epoch by epoch and batch by batch from
    zero, and has saved one snapshot per epoch, in order, to
    [{model_save_dir}/simplebase-{dataset}/{epoch}]; all these directories
    exist afterwards and none that existed has been removed. *)
Theorem train_completed_run {cv : OpenCV}
    (args : Args.t) (batches : nat -> list fetched) (w w' : world) :
  train args batches w = (Ok tt, w') ->
  let epochs := range (Args.num_epochs args) in
  exe_runs (trace w') =
    exe_runs (trace w) ++
    flat_map (fun pass_id => map (pair pass_id) (seq 0 (length (batches pass_id))))
             epochs /\
  persistables_saved (trace w') =
    persistables_saved (trace w) ++
    map (fun pass_id =>
           (Args.model_save_dir args +:+ "/" +:+ "simplebase-" +:+ Args.dataset args)
             +:+ "/" +:+ pretty pass_id) epochs /\
  (forall pass_id, pass_id ∈ epochs -> model_path args pass_id ∈ dirs w') /\
  dirs w ⊆ dirs w'.
Proof.
  intros Hrun epochs.
  destruct (train_outcomes args batches w)
    as [(_ & _ & E)|(rd & img & hm & kp & ti & _ &
         [(_ & _ & E)|(_ & o & evs & w_loop & Hevs & Hloop & Hdirs & Htrace)])];
    try (rewrite E in Hrun; discriminate).
  rewrite Hloop in Hrun. unfold range in Hrun.
  destruct (train_loop_run _ _ _ _ _ _ Hrun) as (R & S & D & P).
  rewrite Hdirs in D.
  split; [|split; [|split]].
  - rewrite R, Htrace. f_equal. unfold exe_runs. trace_filters.
  - rewrite S, Htrace. f_equal. unfold persistables_saved. trace_filters.
  - exact P.
  - exact D.
Qed.

(** X16.  An epoch that returns leaves its snapshot directory in place:
    [os.makedirs] is called on it exactly when it did not exist, on nothing
    else, and the snapshot is saved last.  An epoch that raises has created
    no directory and saved no snapshot. *)
Theorem train_epoch_snapshot {cv : OpenCV}
    (args : Args.t) (pass_id : nat) (bs : list fetched) (w : world) :
  let path :=
    ((Args.model_save_dir args +:+ "/" +:+ "simplebase-" +:+ Args.dataset args)
       +:+ "/" +:+ pretty pass_id)%string in
  (forall w',
     train_epoch args pass_id bs w = (Ok tt, w') ->
     path ∈ dirs w' /\ dirs w ⊆ dirs w' /\
     dirs_made (trace w') =
       dirs_made (trace w) ++ (if bool_decide (path ∈ dirs w) then [] else [path]) /\
     persistables_saved (trace w') = persistables_saved (trace w) ++ [path] /\
     last (trace w') = Some (SavePersistables path)) /\
  (forall e w',
     train_epoch args pass_id bs w = (Raise e, w') ->
     dirs w' = dirs w /\
     dirs_made (trace w') = dirs_made (trace w) /\
     persistables_saved (trace w') = persistables_saved (trace w)).
Proof.
  intros path. split.
  - intros w' Hrun.
    destruct (train_epoch_run _ _ _ _ _ Hrun) as (t & Ft & _ & Et & D).
    fold path in Et, D. fold (model_path args pass_id) in Et, D.
    assert (Hm : dirs_made t = []).
    { apply (omap_None_Forall _ batch_event); [|exact Ft].
      intros [] H; simpl in H; try contradiction; reflexivity. }
    assert (Hs : persistables_saved t = []).
    { apply (omap_None_Forall _ batch_event); [|exact Ft].
      intros [] H; simpl in H; try contradiction; reflexivity. }
    split; [rewrite D; apply elem_of_union_l, elem_of_singleton; reflexivity|].
    split; [rewrite D; apply union_subseteq_r|].
    rewrite Et. unfold dirs_made, persistables_saved in *.
    rewrite !omap_app, Hm, Hs.
    split; [|split].
    + destruct (bool_decide _); reflexivity.
    + destruct (bool_decide _); reflexivity.
    + rewrite !app_assoc. apply last_snoc.
  - intros e w' Hrun.
    destruct (train_epoch_raise _ _ _ _ _ _ Hrun) as (D & t & Et & Ft).
    split; [exact D|]. rewrite Et. unfold dirs_made, persistables_saved.
    rewrite !omap_app.
    rewrite (omap_None_Forall _ batch_event t), (omap_None_Forall _ batch_event t);
      rewrite ?app_nil_r; auto;
      intros [] H; simpl in H; try contradiction; reflexivity.
Qed.

(** X17.  With the piecewise strategy and a batch size of zero, [train] on
    a supported dataset fails with a [ZeroDivisionError] raised by
    [optimizer_setting]: the inputs are declared and the network is built,
    but no optimizer, no executor run, no directory. *)
Theorem train_zero_batch_size {cv : OpenCV}
    (args : Args.t) (batches : nat -> list fetched) (w : world) :
  Args.dataset args = "coco" \/ Args.dataset args = "mpii" ->
  Args.lr_strategy args = "piecewise_decay" -> Args.batch_size args = 0 ->
  exists msg w' t,
    train args batches w = (Raise (ZeroDivisionError msg), w') /\
    trace w' = trace w ++ t ++ [ModelNet] /\
    optimizers_built (trace w') = optimizers_built (trace w) /\
    exe_runs (trace w') = exe_runs (trace w) /\
    dirs w' = dirs w.
Proof.
  intros Hds Hname Hb.
  destruct (train_outcomes args batches w)
    as [(Hc & Hm & _)|(rd & img & hm & kp & ti & _ &
         [(_ & _ & E)|(Hnz & _)])].
  - destruct Hds; contradiction.
  - eexists _, _, _. split; [exact E|]. cbn [trace dirs].
    split; [|split; [|split]].
    + f_equal. exact (eq_refl ([_; _; _; _; _; _] ++ [ModelNet])).
    + unfold optimizers_built. rewrite omap_app. cbn [omap]. apply app_nil_r.
    + unfold exe_runs. rewrite omap_app. cbn [omap]. apply app_nil_r.
    + reflexivity.
  - apply Hnz in Hname. contradiction.
Qed.

(** X18.  When [train] fails, it has failed either in the setup - an
    unsupported dataset, or a batch size of zero under the piecewise
    strategy - with no optimizer built, no executor run and no snapshot; or
    in the drawing of a batch [j] of an epoch [m], with [j] a multiple of 10.
    In that case every epoch before [m] has run the executor on all its
    batches and saved its snapshot, in order; epoch [m] has run the executor
    on its batches up to [j]; and no other snapshot has been saved. *)
Theorem train_failed_run {cv : OpenCV}
    (args : Args.t) (batches : nat -> list fetched) (w : world)
    (e : exn) (w' : world) :
  train args batches w = (Raise e, w') ->
  ((Args.dataset args <> "coco" /\ Args.dataset args <> "mpii" \/
    Args.lr_strategy args = "piecewise_decay" /\ Args.batch_size args = 0) /\
   optimizers_built (trace w') = optimizers_built (trace w) /\
   exe_runs (trace w') = exe_runs (trace w) /\
   persistables_saved (trace w') = persistables_saved (trace w) /\
   dirs w' = dirs w) \/
  (exists m j data,
     (m < length (range (Args.num_epochs args)))%nat /\
     batches m !! j = Some data /\ (j mod 10 = 0)%nat /\
     (forall w0,
        save_batch_heatmaps (input_image data) (out_heatmaps data)
                            "visualization@train.jpg" true w0 = (Raise e, w0)) /\
     exe_runs (trace w') =
       exe_runs (trace w) ++
       flat_map (fun pass_id => map (pair pass_id) (seq 0 (length (batches pass_id))))
                (seq 0 m) ++
       map (pair m) (seq 0 (S j)) /\
     persistables_saved (trace w') =
       persistables_saved (trace w) ++ map (model_path args) (seq 0 m) /\
     (forall pass_id, (pass_id < m)%nat -> model_path args pass_id ∈ dirs w') /\
     dirs w ⊆ dirs w').
Proof.
  intros Hrun.
  destruct (train_outcomes args batches w)
    as [(Hc & Hm & E)|(rd & img & hm & kp & ti & _ &
         [(Hn & Hb & E)|(_ & o & evs & w_loop & Hevs & Hloop & Hdirs & Htrace)])].
  - left. rewrite E in Hrun. injection Hrun as _ <-. auto.
  - left. rewrite E in Hrun. injection Hrun as _ <-. cbn [trace dirs].
    split; [auto|].
    unfold optimizers_built, exe_runs, persistables_saved. rewrite !omap_app.
    cbn [omap]. rewrite !app_nil_r. auto.
  - right. rewrite Hloop in Hrun. unfold range in Hrun |- *.
    destruct (train_loop_raise _ _ _ _ _ _ _ Hrun)
      as (m & j & data & Hm & Hj & Hmod & Hany & R & S & D & P).
    exists m, j, data. rewrite length_seq. split; [exact Hm|].
    split; [exact Hj|]. split; [exact Hmod|]. split; [exact Hany|].
    split; [|split; [|split]].
    + rewrite R, Htrace. cbn [Nat.add]. f_equal. unfold exe_runs. trace_filters.
    + rewrite S, Htrace. f_equal. unfold persistables_saved. trace_filters.
    + intros pass_id Hp. apply P. apply elem_of_seq. lia.
    + rewrite <- Hdirs. exact D.
Qed.

(** X19.  [train] itself raises nothing on a supported dataset once the
    division of [optimizer_setting] is safe and every fetched batch can be
    drawn, that is, has heatmaps with no empty axis and enough three-channel
    images: with the calls into the framework and into OpenCV returning,
    the run completes. *)
Theorem train_returns {cv : OpenCV}
    (args : Args.t) (batches : nat -> list fetched) (w : world) :
  Args.dataset args = "coco" \/ Args.dataset args = "mpii" ->
  (Args.lr_strategy args = "piecewise_decay" -> Args.batch_size args <> 0) ->
  (forall pass_id data, data ∈ batches pass_id -> drawable data) ->
  exists w', train args batches w = (Ok tt, w').
Proof.
  intros Hds Hnz Hbatches.
  destruct (train_outcomes args batches w)
    as [(Hc & Hm & _)|(rd & img & hm & kp & ti & _ &
         [(Hn & Hb & _)|(_ & o & evs & w_loop & Hevs & Hloop & Hdirs & Htrace)])].
  - destruct Hds; contradiction.
  - apply Hnz in Hn. contradiction.
  - rewrite Hloop. apply for_each_returns. intros pass_id _ w0.
    apply train_epoch_returns, Hbatches.
Qed.

(** ** The training script on the sample inputs *)

Lemma save_batch_heatmaps_grid_shape_witness :
  (forall w',
     save_batch_heatmaps (cv := plain_cv) example_image example_heatmaps
                         "grid.jpg" true empty_world = (Ok tt, w') ->
     exists grid_image,
       trace w' = trace empty_world ++ [ImWrite "grid.jpg" grid_image] /\
       shape grid_image = [1 * 2; (2 + 1) * 3; 3]%nat /\
       wf grid_image) /\
  (exists w',
     save_batch_heatmaps (cv := plain_cv) example_image example_heatmaps
                         "grid.jpg" true empty_world = (Ok tt, w')).
Proof.
  destruct (save_batch_heatmaps_grid_shape (cv := plain_cv)
              example_image example_heatmaps "grid.jpg" true empty_world 1 2 2 3
              eq_refl) as [Hshape Hreturns].
  split; [exact Hshape|].
  apply (Hreturns 1 2 2)%nat; try reflexivity; lia.
Defined.

Example get_max_preds_example :
  get_max_preds example_heatmaps =
    Ok (NDArray [1; 2; 2]%nat [8388608 # 8388608; 8388608 # 8388608; 0; 0]%Q,
        NDArray [1; 2; 1]%nat [Fin (3 # 4); Fin 0]).
Proof. vm_compute. reflexivity. Qed.

Example f32_of_int_rounds :
  f32_of_int 16777216 = 16777216%Q /\
  f32_of_int 16777217 = 16777216%Q /\
  f32_of_int 16777219 = 16777220%Q.
Proof. vm_compute. auto. Qed.

Example get_max_preds_no_joint :
  get_max_preds (NDArray [0; 2; 2; 3]%nat []) = Raise (ValueError "cannot reshape array").
Proof. reflexivity. Qed.

Example get_max_preds_empty_map :
  get_max_preds (NDArray [1; 2; 0; 3]%nat [])
  = Raise (ValueError "attempt to get argmax of an empty sequence").
Proof. reflexivity. Qed.

Example train_batch_example :
  images_written
    (trace (train_batch (cv := plain_cv) 0 20 example_fetched empty_world).2)
  = ["visualization@train.jpg"] /\
  images_written
    (trace (train_batch (cv := plain_cv) 0 21 example_fetched empty_world).2)
  = [].
Proof. vm_compute. auto. Qed.

Lemma train_batch_visualization_witness :
  exists w',
    train_batch (cv := plain_cv) 0 20 example_fetched empty_world = (Ok tt, w').
Proof.
  apply (train_batch_visualization (cv := plain_cv) 0 20 example_fetched empty_world).
  split; [reflexivity|]. split; [reflexivity|].
  exists 1%nat, 2%nat, 2%nat, 3%nat, 1%nat, 2%nat, 2%nat.
  repeat split; try lia; reflexivity.
Defined.

Lemma normalize_denominator_positive_witness :
  exists min max t bi,
    np_min (buf example_image) = Ok min /\
    np_max (buf example_image) = Ok max /\
    f32_le min max = true /\
    positive (normalize_denominator min max) /\
    normalize_batch example_image = Ok (t, bi) /\
    positive (float_cast t (normalize_denominator min max)) /\
    buf bi =
      map (fun v => float_div t
                      (float_add (result_type float32 (float_neg min)) v (float_neg min))
                      (float_cast t (normalize_denominator min max)))
          (buf example_image).
Proof.
  apply (normalize_denominator_positive example_image).
  - discriminate.
  - repeat constructor.
Defined.

(** ** The further properties on the sample inputs *)

Lemma get_max_preds_returns_iff_witness :
  (ndim example_heatmaps <> 4%nat ->
   get_max_preds example_heatmaps
   = Raise (AssertionError "batch_images should be 4-ndim")) /\
  (forall N K H W, shape example_heatmaps = [N; K; H; W] ->
     ((N = 0 \/ K = 0)%nat ->
      exists msg, get_max_preds example_heatmaps = Raise (ValueError msg)) /\
     ((0 < N)%nat -> (0 < K)%nat -> (H = 0 \/ W = 0)%nat ->
      exists msg, get_max_preds example_heatmaps = Raise (ValueError msg)) /\
     ((0 < N)%nat -> (0 < K)%nat -> (0 < H)%nat -> (0 < W)%nat ->
      exists preds maxvals,
        get_max_preds example_heatmaps = Ok (preds, maxvals) /\
        shape preds = [N; K; 2%nat] /\ wf preds /\
        shape maxvals = [N; K; 1%nat] /\ wf maxvals)).
Proof.
  apply (get_max_preds_returns_iff example_heatmaps). reflexivity.
Defined.

Lemma get_max_preds_nan_witness :
  exists preds maxvals,
    get_max_preds nan_heatmaps = Ok (preds, maxvals) /\
    item3 maxvals 0 0 0 = Some NaN /\
    item3 preds 0 0 0 = Some 0%Q /\ item3 preds 0 0 1 = Some 0%Q.
Proof.
  apply (get_max_preds_nan nan_heatmaps 1 1 2 2 0 0 1).
  - reflexivity.
  - reflexivity.
  - lia.
  - lia.
  - reflexivity.
Defined.

Lemma get_max_preds_points_at_maximum_witness :
  exists preds maxvals px py m,
    get_max_preds example_heatmaps = Ok (preds, maxvals) /\
    item3 preds 0 0 0 = Some px /\ item3 preds 0 0 1 = Some py /\
    item3 maxvals 0 0 0 = Some m /\
    (f32_gt m f32_zero = true ->
     0 <= int_of_Q px < Z.of_nat 3 /\ 0 <= int_of_Q py < Z.of_nat 2 /\
     item4 NaN example_heatmaps 0 0 (Z.to_nat (int_of_Q py)) (Z.to_nat (int_of_Q px)) = m).
Proof.
  apply (get_max_preds_points_at_maximum example_heatmaps 1 2 2 3 0 0).
  - reflexivity.
  - reflexivity.
  - lia.
  - lia.
  - lia.
  - lia.
  - vm_compute. discriminate.
Defined.

Lemma get_max_preds_local_witness :
  exists preds maxvals preds' maxvals',
    get_max_preds example_heatmaps = Ok (preds, maxvals) /\
    get_max_preds example_heatmaps_two_samples = Ok (preds', maxvals') /\
    item3 preds 0 1 0 = item3 preds' 1 0 0 /\
    item3 preds 0 1 1 = item3 preds' 1 0 1 /\
    item3 maxvals 0 1 0 = item3 maxvals' 1 0 0.
Proof.
  apply (get_max_preds_local example_heatmaps example_heatmaps_two_samples
           1 2 2 1 2 3 0 1 1 0).
  - reflexivity.
  - reflexivity.
  - reflexivity.
  - reflexivity.
  - lia.
  - lia.
  - lia.
  - lia.
  - lia.
  - lia.
  - reflexivity.
Defined.

Lemma steps_per_epoch_floor_witness :
  steps_per_epoch 144406 32 = Ok (144406 / 32 + 1) /\
  steps_per_epoch (2 ^ 53 - 1) (2 ^ 52) = Ok 3 /\
  (2 ^ 53 - 1) / 2 ^ 52 + 1 = 2.
Proof.
  apply (steps_per_epoch_floor 144406 32).
  - lia.
  - lia.
Defined.

Lemma optimizer_setting_schedule_well_formed_witness :
  exists b1 b2 values params' w',
    optimizer_setting default_args example_params empty_world
    = (Ok (AdamOptimizer (piecewise_decay [b1; b2] values), params'), w') /\
    b1 = (144406 / 32 + 1) * 91 /\
    b2 = (144406 / 32 + 1) * 121 /\
    0 < b1 < b2 /\
    length values = S (length [b1; b2]) /\
    [b1; b2] = map (fun e => steps_per_epoch_float 144406 32 * e) [91; 121].
Proof.
  apply (optimizer_setting_schedule_well_formed default_args example_params empty_world).
  - reflexivity.
  - split; [apply Z.leb_le|apply Z.ltb_lt]; reflexivity.
  - split; [apply Z.ltb_lt|apply Z.leb_le]; reflexivity.
Defined.

Lemma train_loads_weights_witness :
  weights_loaded
    (trace (train (cv := plain_cv) coco_args (fun _ => [example_fetched]) empty_world).2)
  = weights_loaded (trace empty_world) ++
    [LoadVars "./pretrained/resnet_50/115"] ++ [].
Proof.
  apply (train_loads_weights (cv := plain_cv) coco_args (fun _ => [example_fetched])
           empty_world
           (train (cv := plain_cv) coco_args (fun _ => [example_fetched]) empty_world).1).
  - left. reflexivity.
  - intros _. discriminate.
  - apply surjective_pairing.
Defined.

Lemma train_completed_run_witness :
  let batches := fun _ : nat => [example_fetched] in
  let w' := (train (cv := plain_cv) coco_args batches empty_world).2 in
  let epochs := range (Args.num_epochs coco_args) in
  exe_runs (trace w') =
    exe_runs (trace empty_world) ++
    flat_map (fun pass_id => map (pair pass_id) (seq 0 (length (batches pass_id))))
             epochs /\
  persistables_saved (trace w') =
    persistables_saved (trace empty_world) ++
    map (fun pass_id =>
           (Args.model_save_dir coco_args +:+ "/" +:+ "simplebase-"
              +:+ Args.dataset coco_args) +:+ "/" +:+ pretty pass_id) epochs /\
  (forall pass_id, pass_id ∈ epochs -> model_path coco_args pass_id ∈ dirs w') /\
  dirs empty_world ⊆ dirs w'.
Proof.
  intros batches w'.
  apply (train_completed_run (cv := plain_cv) coco_args batches empty_world w').
  vm_compute. reflexivity.
Defined.

Lemma train_zero_batch_size_witness :
  exists msg w' t,
    train (cv := plain_cv) zero_batch_args (fun _ => [example_fetched]) empty_world
    = (Raise (ZeroDivisionError msg), w') /\
    trace w' = trace empty_world ++ t ++ [ModelNet] /\
    optimizers_built (trace w') = optimizers_built (trace empty_world) /\
    exe_runs (trace w') = exe_runs (trace empty_world) /\
    dirs w' = dirs empty_world.
Proof.
  apply (train_zero_batch_size (cv := plain_cv) zero_batch_args).
  - left. reflexivity.
  - reflexivity.
  - reflexivity.
Defined.

Lemma train_failed_run_witness :
  let e := ValueError "zero-size array to reduction operation minimum which has no identity" in
  let w' := (train (cv := plain_cv) coco_args failing_batches empty_world).2 in
  exists m j data,
    (m < length (range (Args.num_epochs coco_args)))%nat /\
    failing_batches m !! j = Some data /\ (j mod 10 = 0)%nat /\
    (forall w0,
       save_batch_heatmaps (cv := plain_cv) (input_image data) (out_heatmaps data)
                           "visualization@train.jpg" true w0 = (Raise e, w0)) /\
    exe_runs (trace w') =
      exe_runs (trace empty_world) ++
      flat_map (fun pass_id => map (pair pass_id) (seq 0 (length (failing_batches pass_id))))
               (seq 0 m) ++
      map (pair m) (seq 0 (S j)) /\
    persistables_saved (trace w') =
      persistables_saved (trace empty_world) ++ map (model_path coco_args) (seq 0 m) /\
    (forall pass_id, (pass_id < m)%nat -> model_path coco_args pass_id ∈ dirs w') /\
    dirs empty_world ⊆ dirs w'.
Proof.
  intros e w'.
  destruct (train_failed_run (cv := plain_cv) coco_args failing_batches empty_world e w')
    as [([[Hc _]|[_ Hb]] & _)|Hloop].
  - vm_compute. reflexivity.
  - exfalso. apply Hc. reflexivity.
  - discriminate.
  - exact Hloop.
Defined.

Example train_failed_run_example :
  let w' := (train (cv := plain_cv) coco_args failing_batches empty_world).2 in
  exe_runs (trace w') = [(0, 0); (1, 0)]%nat /\
  persistables_saved (trace w') = ["output/simplebase-coco/0"] /\
  images_written (trace w') = ["visualization@train.jpg"].
Proof. vm_compute. auto. Qed.

Lemma save_batch_heatmaps_channels_witness :
  save_batch_heatmaps (cv := plain_cv) two_channel_image example_heatmaps
                      "grid.jpg" true empty_world
  = (Raise (ValueError "operands could not be broadcast together"), empty_world).
Proof.
  apply (save_batch_heatmaps_channels (cv := plain_cv) two_channel_image example_heatmaps
           "grid.jpg" true empty_world 1 2 2 3 1 2 2 2); try reflexivity; lia.
Defined.

(** An image of a single channel comes back from [cv2.resize] as an array
    of two axes; on a heatmap of one cell numpy broadcasts it over the three
    channels of the grid. *)
Example save_batch_heatmaps_one_channel :
  (save_batch_heatmaps (cv := plain_cv) one_channel_image one_cell_heatmaps
                       "grid.jpg" false empty_world).2
  = World [ImWrite "grid.jpg" (NDArray [1; 2; 3]%nat [127; 127; 127; 216; 216; 216])] ∅.
Proof. vm_compute. reflexivity. Qed.

Lemma save_batch_heatmaps_tiles_witness :
  let w' := (save_batch_heatmaps (cv := plain_cv) example_image example_heatmaps
                                 "grid.jpg" true empty_world).2 in
  exists grid_image t images preds maxvals,
    trace w' = trace empty_world ++ [ImWrite "grid.jpg" grid_image] /\
    prepare_batch example_image true = Ok (t, images) /\
    get_max_preds example_heatmaps = Ok (preds, maxvals) /\
    forall i r c ch,
      (i < 1)%nat -> (r < 2)%nat -> (c < 3)%nat -> (ch < 3)%nat ->
      item3 grid_image (2 * i + r) c ch =
        Some (to_uint8 (marked_image (cv := plain_cv) t images preds 2 3 i 2 r c ch)) /\
      forall j, (j < 2)%nat ->
        item3 grid_image (2 * i + r) (3 * (j + 1) + c) ch =
          Some (to_uint8 (joint_tile (cv := plain_cv) t images example_heatmaps preds
                                     2 3 i j r c ch)) /\
        forall colored_heatmap resized_image,
          blend_pixels (Picture [2; 3; 3]%nat colored_heatmap)
                       (Picture [2; 3; 3]%nat resized_image) r c ch
          = round_f64 (round_f64 (colored_heatmap r c ch * round_f64 (7 # 10))
                       + round_f64 (resized_image r c ch * round_f64 (3 # 10))).
Proof.
  intros w'.
  apply (save_batch_heatmaps_tiles (cv := plain_cv) example_image example_heatmaps
           "grid.jpg" true empty_world w' 1 2 2 3 1 2 2).
  - reflexivity.
  - reflexivity.
  - vm_compute. reflexivity.
Defined.

Lemma normalize_batch_range_witness :
  exists t bi min,
    normalize_batch example_image = Ok (t, bi) /\
    np_min (buf example_image) = Ok min /\
    shape bi = shape example_image /\
    Forall2 (fun v v' => f32_le (Fin 0) v' = true /\ (f32_le v min = true -> v' = Fin 0))
            (buf example_image) (buf bi) /\
    ((forall v, v ∈ buf example_image -> f32_le v min = true) ->
     Forall (fun v' => v' = Fin 0) (buf bi)).
Proof.
  apply (normalize_batch_range example_image).
  - discriminate.
  - repeat constructor.
Defined.

Example normalize_batch_example :
  normalize_batch example_image
  = Ok (float32,
        NDArray [1; 3; 2; 2]%nat
          (map (fun v => float_div float32 v (Fin (round_f32 (round_f64 (1 + round_f64 (1 # 100000))))))
               (buf example_image))).
Proof. vm_compute. reflexivity. Qed.

Lemma train_returns_witness :
  exists w',
    train (cv := plain_cv) coco_args (fun _ => [example_fetched]) empty_world
    = (Ok tt, w').
Proof.
  apply (train_returns (cv := plain_cv) coco_args (fun _ => [example_fetched]) empty_world).
  - left. reflexivity.
  - intros _. discriminate.
  - intros pass_id data Hin. apply list_elem_of_singleton in Hin as ->.
    split; [reflexivity|]. split; [reflexivity|].
    exists 1%nat, 2%nat, 2%nat, 3%nat, 1%nat, 2%nat, 2%nat.
    repeat split; try lia; reflexivity.
Defined.

Lemma joint_point_inside_witness :
  let preds := NDArray [1; 2; 2]%nat [8388608 # 8388608; 8388608 # 8388608; 0; 0]%Q in
  0 <= (joint_point preds 0 0).1 < Z.of_nat 3 /\
  0 <= (joint_point preds 0 0).2 < Z.of_nat 2.
Proof.
  intros preds.
  apply (joint_point_inside example_heatmaps 1 2 2 3 preds
           (NDArray [1; 2; 1]%nat [Fin (3 # 4); Fin 0])).
  - reflexivity.
  - reflexivity.
  - lia.
  - lia.
  - vm_compute. discriminate.
  - vm_compute. reflexivity.
  - lia.
  - lia.
Defined.
